(** * Watcher: dependency collection, diffing, dispatch and deep traversal

    A shallow embedding of [src/core/observer/watcher.js] (Vue 2.1.7).

    JavaScript objects live in heaps ([gmap]s from references to records),
    one heap per class the file handles: watchers, publishers ([Dep]),
    component instances and plain data objects.  Every method becomes a
    function on the whole [World]; methods that can run user code return a
    [World] together with an [Outcome] (normal completion, a thrown value, or
    exhaustion of the recursion budget of the deep traversal).  User code
    (watched functions, callbacks, the global error handler) is a parameter
    of the development, see [Host]. *)

From Stdlib Require Import PrimFloat SpecFloat FloatOps FloatAxioms.
From stdpp Require Import base option list gmap sets strings.

#[local] Set Warnings "-clear-no-such-hyp".

(** ** References *)

Abbreviation wref := nat (only parsing).   (* a Watcher object *)
Abbreviation dref := nat (only parsing).   (* a Dep object *)
Abbreviation vref := nat (only parsing).   (* a component instance *)
Abbreviation oref := nat (only parsing).   (* a plain object or an array *)
Abbreviation fnref := nat (only parsing).  (* a user function *)

(** ** Values *)

(** JavaScript values as far as the watcher looks at them: the primitives
    and references to composites (objects and arrays).  Numbers are IEEE 754
    doubles. *)
Inductive Value :=
  | VUndefined
  | VNull
  | VBool (b : bool)
  | VNum (n : float)
  | VStr (s : string)
  | VRef (o : oref).

(** The strict comparison [a !== b]. *)
Definition strict_neq (a b : Value) : bool :=
  match a, b with
  | VUndefined, VUndefined => false
  | VNull, VNull => false
  | VBool x, VBool y => negb (Bool.eqb x y)
  | VNum x, VNum y => negb (PrimFloat.eqb x y)
  | VStr x, VStr y => negb (String.eqb x y)
  | VRef x, VRef y => negb (Nat.eqb x y)
  | _, _ => true
  end.

(** The coercion [!!v]. *)
Definition truthy (v : Value) : bool :=
  match v with
  | VUndefined | VNull => false
  | VBool b => b
  | VNum n => negb (PrimFloat.eqb n PrimFloat.zero || PrimFloat.is_nan n)
  | VStr s => negb (String.eqb s EmptyString)
  | VRef _ => true
  end.

(** Modelled from the spec: [isObject] of [util/index] is missing from the
    sources; the spec calls it the object-ness test that recognises a
    composite (object/array) value. *)
Definition isObject (v : Value) : bool :=
  match v with VRef _ => true | _ => false end.

(** ** Heap objects *)

(** A property of a data object: its value and, when the property carries
    reactive instrumentation, the publisher behind it. *)
Record Prop_ := mkProp {
  pval : Value;
  pdep : option dref
}.

(** A composite.  [props] are the array elements in index order, or the
    own enumerable properties in [Object.keys] order.  [ob_depId] is
    [val.__ob__.dep.id] when the marker [__ob__] is present. *)
Record Obj := mkObj {
  isArray : bool;
  isExtensible : bool;
  ob_depId : option nat;
  props : list Prop_
}.

(** Modelled from the spec: the class [Dep] of [./dep] is missing from the
    sources.  The spec gives a publisher a stable numeric [id] and a registry
    of subscriber references, notified in registry order. *)
Record Dep := mkDep {
  dep_id : nat;
  subs : list wref
}.

(** The part of a component instance the watcher touches. *)
Record Component := mkComponent {
  _watchers : list wref;
  _isBeingDestroyed : bool
}.

Inductive Getter :=
  | GFn (f : fnref)      (* a user function, or the function made by parsePath *)
  | GNoop.               (* function () {} *)

Record Watcher := mkWatcher {
  vm : vref;
  expression : string;
  cb : fnref;
  id : float;                          (* this.id = ++uid *)
  deep : bool;
  user : bool;
  lazy : bool;
  sync : bool;
  dirty : bool;
  active : bool;
  deps : list dref;
  newDeps : list dref;
  depIds : gset nat;
  newDepIds : gset nat;
  getter : Getter;
  value : Value
}.

(** ** The world *)

Inductive Event :=
  | EvConsoleLog (s : string)
  | EvWarn (msg : string) (ctx : vref)
  | EvTouch (o : oref) (i : nat).      (* the property read val[i] / val[keys[i]] *)

Record World := mkWorld {
  watchers : gmap wref Watcher;
  depHeap : gmap dref Dep;
  vms : gmap vref Component;
  objs : gmap oref Obj;
  uid : float;                         (* let uid = 0, a double *)
  targetStack : list wref;             (* the evaluation-context stack *)
  queue : list wref;                   (* the scheduler's queue *)
  seenObjects : gset nat;              (* const seenObjects = new Set() *)
  config_errorHandler : option fnref;  (* config.errorHandler *)
  production : bool;                   (* process.env.NODE_ENV === 'production' *)
  trace : list Event
}.

Inductive Outcome (A : Type) :=
  | Normal (a : A)
  | Throw (e : Value)
  | OutOfFuel.
Arguments Normal {A} a.
Arguments Throw {A} e.
Arguments OutOfFuel {A}.

(** *** Field updates *)

Definition set_watchers (f : gmap wref Watcher → gmap wref Watcher) (W : World) : World :=
  mkWorld (f (watchers W)) (depHeap W) (vms W) (objs W) (uid W) (targetStack W)
          (queue W) (seenObjects W) (config_errorHandler W) (production W) (trace W).

Definition set_depHeap (f : gmap dref Dep → gmap dref Dep) (W : World) : World :=
  mkWorld (watchers W) (f (depHeap W)) (vms W) (objs W) (uid W) (targetStack W)
          (queue W) (seenObjects W) (config_errorHandler W) (production W) (trace W).

Definition set_vms (f : gmap vref Component → gmap vref Component) (W : World) : World :=
  mkWorld (watchers W) (depHeap W) (f (vms W)) (objs W) (uid W) (targetStack W)
          (queue W) (seenObjects W) (config_errorHandler W) (production W) (trace W).

Definition set_uid (n : float) (W : World) : World :=
  mkWorld (watchers W) (depHeap W) (vms W) (objs W) n (targetStack W)
          (queue W) (seenObjects W) (config_errorHandler W) (production W) (trace W).

Definition set_targetStack (f : list wref → list wref) (W : World) : World :=
  mkWorld (watchers W) (depHeap W) (vms W) (objs W) (uid W) (f (targetStack W))
          (queue W) (seenObjects W) (config_errorHandler W) (production W) (trace W).

Definition set_queue (f : list wref → list wref) (W : World) : World :=
  mkWorld (watchers W) (depHeap W) (vms W) (objs W) (uid W) (targetStack W)
          (f (queue W)) (seenObjects W) (config_errorHandler W) (production W) (trace W).

Definition set_seenObjects (f : gset nat → gset nat) (W : World) : World :=
  mkWorld (watchers W) (depHeap W) (vms W) (objs W) (uid W) (targetStack W)
          (queue W) (f (seenObjects W)) (config_errorHandler W) (production W) (trace W).

Definition emit (e : Event) (W : World) : World :=
  mkWorld (watchers W) (depHeap W) (vms W) (objs W) (uid W) (targetStack W)
          (queue W) (seenObjects W) (config_errorHandler W) (production W) (trace W ++ [e]).

Definition upd_watcher (this : wref) (f : Watcher → Watcher) (W : World) : World :=
  set_watchers (alter f this) W.

Definition set_dirty (b : bool) (w : Watcher) : Watcher :=
  mkWatcher (vm w) (expression w) (cb w) (id w) (deep w) (user w) (lazy w) (sync w)
            b (active w) (deps w) (newDeps w) (depIds w) (newDepIds w) (getter w) (value w).

Definition set_active (b : bool) (w : Watcher) : Watcher :=
  mkWatcher (vm w) (expression w) (cb w) (id w) (deep w) (user w) (lazy w) (sync w)
            (dirty w) b (deps w) (newDeps w) (depIds w) (newDepIds w) (getter w) (value w).

Definition set_value (v : Value) (w : Watcher) : Watcher :=
  mkWatcher (vm w) (expression w) (cb w) (id w) (deep w) (user w) (lazy w) (sync w)
            (dirty w) (active w) (deps w) (newDeps w) (depIds w) (newDepIds w) (getter w) v.

Definition set_deps (l : list dref) (w : Watcher) : Watcher :=
  mkWatcher (vm w) (expression w) (cb w) (id w) (deep w) (user w) (lazy w) (sync w)
            (dirty w) (active w) l (newDeps w) (depIds w) (newDepIds w) (getter w) (value w).

Definition set_newDeps (l : list dref) (w : Watcher) : Watcher :=
  mkWatcher (vm w) (expression w) (cb w) (id w) (deep w) (user w) (lazy w) (sync w)
            (dirty w) (active w) (deps w) l (depIds w) (newDepIds w) (getter w) (value w).

Definition set_depIds (s : gset nat) (w : Watcher) : Watcher :=
  mkWatcher (vm w) (expression w) (cb w) (id w) (deep w) (user w) (lazy w) (sync w)
            (dirty w) (active w) (deps w) (newDeps w) s (newDepIds w) (getter w) (value w).

Definition set_newDepIds (s : gset nat) (w : Watcher) : Watcher :=
  mkWatcher (vm w) (expression w) (cb w) (id w) (deep w) (user w) (lazy w) (sync w)
            (dirty w) (active w) (deps w) (newDeps w) (depIds w) s (getter w) (value w).

(** ** Collaborators *)

(** Modelled from the spec: [remove] of [util/index] (array removal) is
    missing from the sources: it takes one occurrence of the item, the first,
    out of the array. *)
Fixpoint remove (arr : list nat) (item : nat) : list nat :=
  match arr with
  | [] => []
  | x :: arr' => if decide (x = item) then arr' else x :: remove arr' item
  end.

(** Modelled from the spec: [Dep.prototype.addSub] is missing from the
    sources; the publisher adds the subscriber to its notification
    registry. *)
Definition Dep_addSub (dep : dref) (sub : wref) (W : World) : World :=
  set_depHeap (alter (λ d, mkDep (dep_id d) (subs d ++ [sub])) dep) W.

(** Modelled from the spec: [Dep.prototype.removeSub] is missing from the
    sources; the subscriber is taken out of the publisher's registry. *)
Definition Dep_removeSub (dep : dref) (sub : wref) (W : World) : World :=
  set_depHeap (alter (λ d, mkDep (dep_id d) (remove (subs d) sub)) dep) W.

(** Modelled from the spec: [pushTarget] of [./dep] is missing from the
    sources; the evaluation-context stack is a strict LIFO stack whose top
    is the subscriber being evaluated. *)
Definition pushTarget (target : wref) (W : World) : World :=
  set_targetStack (cons target) W.

(** Modelled from the spec: [popTarget] of [./dep] is missing from the
    sources; it restores the context that was evaluating before. *)
Definition popTarget (W : World) : World :=
  set_targetStack tail W.

(** Modelled from the spec: [Dep.target], the top of the stack, if any. *)
Definition Dep_target (W : World) : option wref := head (targetStack W).

(** Modelled from the spec: [queueWatcher] of [./scheduler] is missing from
    the sources; the scheduler accepts a subscriber for deferred flushing
    and de-duplicates by subscriber identity. *)
Definition queueWatcher (watcher : wref) (W : World) : World :=
  if decide (watcher ∈ queue W) then W else set_queue (λ q, q ++ [watcher]) W.

(** Modelled from the spec: [warn] of [util/index] is missing from the
    sources; the diagnostics sink accepts a warning and a context object. *)
Definition warn (msg : string) (ctx : vref) (W : World) : World :=
  emit (EvWarn msg ctx) W.

(** ** Watcher: dependency registration *)

(** [dep.id] *)
Definition depId (W : World) (dep : dref) : option nat :=
  dep_id <$> depHeap W !! dep.

(** [Watcher.prototype.addDep] *)
Definition addDep (this : wref) (dep : dref) (W : World) : World :=
  match watchers W !! this, depId W dep with
  | Some w, Some id =>
      if decide (id ∈ newDepIds w) then W
      else
        let W1 := upd_watcher this (λ w, set_newDepIds ({[id]} ∪ newDepIds w) w) W in
        let W2 := upd_watcher this (λ w, set_newDeps (newDeps w ++ [dep]) w) W1 in
        if decide (id ∈ depIds w) then W2
        else Dep_addSub dep this W2
  | _, _ => W
  end.

(** The loop [let i = this.deps.length; while (i--) { ... }] of
    [cleanupDeps], over the indices [i-1, ..., 0]. *)
Fixpoint cleanupDeps_loop (this : wref) (i : nat) (W : World) : World :=
  match i with
  | 0 => W
  | S i' =>
      let W' :=
        match watchers W !! this with
        | Some w =>
            match deps w !! i' with
            | Some dep =>
                match depId W dep with
                | Some id =>
                    if decide (id ∈ newDepIds w) then W
                    else Dep_removeSub dep this W
                | None => W
                end
            | None => W
            end
        | None => W
        end in
      cleanupDeps_loop this i' W'
  end.

(** [Watcher.prototype.cleanupDeps] *)
Definition cleanupDeps (this : wref) (W : World) : World :=
  match watchers W !! this with
  | Some w =>
      let W1 := cleanupDeps_loop this (length (deps w)) W in
      (* let tmp = this.depIds; this.depIds = this.newDepIds;
         this.newDepIds = tmp; this.newDepIds.clear() *)
      let W2 := upd_watcher this (λ w,
                  let tmp := depIds w in
                  set_newDepIds ∅ (set_newDepIds tmp (set_depIds (newDepIds w) w))) W1 in
      (* tmp = this.deps; this.deps = this.newDeps;
         this.newDeps = tmp; this.newDeps.length = 0 *)
      upd_watcher this (λ w,
        let tmp := deps w in
        set_newDeps [] (set_newDeps tmp (set_deps (newDeps w) w))) W2
  | None => W
  end.

(** Modelled from the spec: [Dep.prototype.depend] is missing from the
    sources; it registers an edge from this publisher to whatever subscriber
    is atop the evaluation-context stack, if any, by calling its [addDep]. *)
Definition Dep_depend (dep : dref) (W : World) : World :=
  match Dep_target W with
  | Some target => addDep target dep W
  | None => W
  end.

(** Modelled from the spec: the property-interception mechanism is missing
    from the sources.  Reading a property ("touching" it) makes the
    publisher behind it, if the property is instrumented, register an edge
    with the subscriber being evaluated.  The read is recorded in the
    trace. *)
Definition readProp (o : oref) (i : nat) (W : World) : Value * World :=
  match objs W !! o with
  | Some ob =>
      match props ob !! i with
      | Some p =>
          let W1 := emit (EvTouch o i) W in
          (pval p, match pdep p with Some d => Dep_depend d W1 | None => W1 end)
      | None => (VUndefined, W)
      end
  | None => (VUndefined, W)
  end.

(** ** Deep traversal *)

(** [Array.isArray(val)] *)
Definition Array_isArray (W : World) (val : Value) : bool :=
  match val with
  | VRef o => match objs W !! o with Some ob => isArray ob | None => false end
  | _ => false
  end.

(** [Object.isExtensible(val)]; a primitive is not extensible. *)
Definition Object_isExtensible (W : World) (val : Value) : bool :=
  match val with
  | VRef o => match objs W !! o with Some ob => isExtensible ob | None => false end
  | _ => false
  end.

(** The loops [while (i--) _traverse(val[i], seen)] and
    [while (i--) _traverse(val[keys[i]], seen)], over a recursive call
    [rec]. *)
Definition traverse_children (rec : Value → World → option World) (o : oref)
  : nat → World → option World :=
  fix loop (i : nat) (W : World) : option World :=
    match i with
    | 0 => Some W
    | S i' =>
        let '(v, W1) := readProp o i' W in
        match rec v W1 with
        | Some W2 => loop i' W2
        | None => None
        end
    end.

(** [_traverse(val, seen)], where [seen] is always the module's
    [seenObjects].  The recursion of the source is not bounded; [fuel]
    bounds its depth here and [None] stands for a walk that needs more. *)
Fixpoint _traverse (fuel : nat) (val : Value) (W : World) : option World :=
  match fuel with
  | 0 => None
  | S fuel' =>
      let isA := Array_isArray W val in
      if (negb isA && negb (isObject val)) || negb (Object_isExtensible W val)
      then Some W
      else
        match val with
        | VRef o =>
            match objs W !! o with
            | Some ob =>
                let walk (W : World) : option World :=
                  if isA
                  then traverse_children (_traverse fuel') o (length (props ob)) W
                  else traverse_children (_traverse fuel') o (length (props ob)) W in
                match ob_depId ob with
                | Some depId =>
                    if decide (depId ∈ seenObjects W) then Some W
                    else walk (set_seenObjects (λ s, {[depId]} ∪ s) W)
                | None => walk W
                end
            | None => Some W
            end
        | _ => Some W
        end
  end.

(** [traverse(val)] *)
Definition traverse (fuel : nat) (val : Value) (W : World) : option World :=
  _traverse fuel val (set_seenObjects (λ _, ∅) W).

(** ** User code *)

(** The functions the watcher calls but does not define: the watched
    function [getter.call(vm, vm)], the callback
    [cb.call(vm, value, oldValue)], the configured error handler
    [config.errorHandler.call(null, e, vm)], and, missing from the sources,
    [parsePath] (taken as a parameter: a function for a simple
    dot-delimited path, nothing otherwise) and [Function.prototype.toString]. *)
Record Host := mkHost {
  call_getter : fnref → vref → World → World * Outcome Value;
  call_cb : fnref → vref → Value → Value → World → World * Outcome unit;
  call_errorHandler : fnref → Value → vref → World → World * Outcome unit;
  parsePath : string → option fnref;
  fn_toString : fnref → string
}.

Inductive ExpOrFn :=
  | EString (s : string)
  | EFunction (f : fnref).

Record Options := mkOptions {
  o_deep : Value;
  o_user : Value;
  o_lazy : Value;
  o_sync : Value
}.

Definition dquote : string := String (Ascii.ascii_of_nat 34) EmptyString.

Definition msg_error_in_watcher (expression : string) : string :=
  ("Error in watcher " +:+ dquote +:+ expression +:+ dquote)%string.

Definition msg_failed_watching (path : string) : string :=
  ("Failed watching path: " +:+ dquote +:+ path +:+ dquote +:+ " " +:+
   "Watcher only accepts simple dot-delimited paths. " +:+
   "For full control, use a function instead.")%string.

Section Watcher.
Variable H : Host.

(** [this.getter.call(this.vm, this.vm)] *)
Definition call_this_getter (w : Watcher) (W : World) : World * Outcome Value :=
  match getter w with
  | GFn f => call_getter H f (vm w) W
  | GNoop => (W, Normal VUndefined)
  end.

(** [Watcher.prototype.get] *)
Definition get (fuel : nat) (this : wref) (W : World) : World * Outcome Value :=
  match watchers W !! this with
  | Some w =>
      let W1 := pushTarget this W in
      match call_this_getter w W1 with
      | (W2, Normal v) =>                 (* const value = ... *)
          let deep_now :=
            match watchers W2 !! this with Some w2 => deep w2 | None => false end in
          match (if deep_now then traverse fuel v W2 else Some W2) with
          | Some W3 =>
              let W4 := popTarget W3 in
              let W5 := cleanupDeps this W4 in
              (W5, Normal v)
          | None => (W2, OutOfFuel)
          end
      | (W2, Throw e) => (W2, Throw e)
      | (W2, OutOfFuel) => (W2, OutOfFuel)
      end
  | None => (W, Normal VUndefined)
  end.

(** The callback invocation of [run]: guarded by try/catch when
    [this.user], bare otherwise. *)
Definition invoke_cb (w : Watcher) (v oldValue : Value) (W : World)
  : World * Outcome unit :=
  if user w then
    match call_cb H (cb w) (vm w) v oldValue W with
    | (W1, Throw e) =>
        match config_errorHandler W1 with
        | Some handler => call_errorHandler H handler e (vm w) W1
        | None =>
            let W2 := if production W1 then W1
                      else warn (msg_error_in_watcher (expression w)) (vm w) W1 in
            (W2, Throw e)
        end
    | r => r
    end
  else call_cb H (cb w) (vm w) v oldValue W.

(** The test of [run]: [value !== this.value || isObject(value) || this.deep] *)
Definition should_fire (w : Watcher) (v : Value) : bool :=
  strict_neq v (value w) || isObject v || deep w.

(** [Watcher.prototype.run] *)
Definition run (fuel : nat) (this : wref) (W : World) : World * Outcome unit :=
  match watchers W !! this with
  | Some w =>
      if active w then
        match get fuel this W with
        | (W1, Normal v) =>               (* const value = this.get() *)
            match watchers W1 !! this with
            | Some w1 =>
                if should_fire w1 v then
                  let oldValue := value w1 in
                  let W2 := upd_watcher this (set_value v) W1 in
                  invoke_cb w1 v oldValue W2
                else (W1, Normal tt)
            | None => (W1, Normal tt)
            end
        | (W1, Throw e) => (W1, Throw e)
        | (W1, OutOfFuel) => (W1, OutOfFuel)
        end
      else (W, Normal tt)
  | None => (W, Normal tt)
  end.

(** [Watcher.prototype.update] *)
Definition update (fuel : nat) (this : wref) (W : World) : World * Outcome unit :=
  match watchers W !! this with
  | Some w =>
      if lazy w then (upd_watcher this (set_dirty true) W, Normal tt)
      else if sync w then run fuel this W
      else (queueWatcher this W, Normal tt)
  | None => (W, Normal tt)
  end.

(** [Watcher.prototype.evaluate] *)
Definition evaluate (fuel : nat) (this : wref) (W : World) : World * Outcome unit :=
  match get fuel this W with
  | (W1, Normal v) =>
      (upd_watcher this (set_dirty false) (upd_watcher this (set_value v) W1), Normal tt)
  | (W1, Throw e) => (W1, Throw e)
  | (W1, OutOfFuel) => (W1, OutOfFuel)
  end.

(** Modelled from the spec: [Dep.prototype.notify] is missing from the
    sources; it calls [update()] on every currently-registered subscriber,
    in registry order. *)
Fixpoint notify_loop (fuel : nat) (l : list wref) (W : World) : World * Outcome unit :=
  match l with
  | [] => (W, Normal tt)
  | sub :: l' =>
      match update fuel sub W with
      | (W1, Normal _) => notify_loop fuel l' W1
      | r => r
      end
  end.

Definition Dep_notify (fuel : nat) (dep : dref) (W : World) : World * Outcome unit :=
  match depHeap W !! dep with
  | Some d => notify_loop fuel (subs d) W
  | None => (W, Normal tt)
  end.

(** The constructor [new Watcher(vm, expOrFn, cb, options)].  The new
    object gets a reference no watcher has.  The counter [uid] is a double:
    [++uid] is an addition of doubles, which rounds. *)
Definition Watcher_new (fuel : nat) (vm : vref) (expOrFn : ExpOrFn) (cb : fnref)
    (options : option Options) (W : World) : World * Outcome wref :=
  let W0 := emit (EvConsoleLog "Wather-") W in
  let this : wref := fresh (dom (watchers W0)) in
  let W1 := set_vms (alter (λ c, mkComponent (_watchers c ++ [this])
                                             (_isBeingDestroyed c)) vm) W0 in
  let '(deep, user, lazy, sync) :=
    match options with
    | Some o => (truthy (o_deep o), truthy (o_user o), truthy (o_lazy o), truthy (o_sync o))
    | None => (false, false, false, false)
    end in
  let id := (uid W1 + 1)%float in
  let W2 := set_uid id W1 in
  let expression :=
    if production W2 then EmptyString
    else match expOrFn with EString s => s | EFunction f => fn_toString H f end in
  let '(getter, W3) :=
    match expOrFn with
    | EFunction f => (GFn f, W2)
    | EString s =>
        match parsePath H s with
        | Some f => (GFn f, W2)
        | None => (GNoop, if production W2 then W2
                          else warn (msg_failed_watching s) vm W2)
        end
    end in
  let w := mkWatcher vm expression cb id deep user lazy sync lazy true
                     [] [] ∅ ∅ getter VUndefined in
  let W4 := set_watchers (insert this w) W3 in
  if lazy then (W4, Normal this)
  else
    match get fuel this W4 with
    | (W5, Normal v) => (upd_watcher this (set_value v) W5, Normal this)
    | (W5, Throw e) => (W5, Throw e)
    | (W5, OutOfFuel) => (W5, OutOfFuel)
    end.
End Watcher.

(** ** Watcher: dependency forwarding and teardown *)

(** The loop [while (i--) this.deps[i].depend()] *)
Fixpoint depend_loop (this : wref) (i : nat) (W : World) : World :=
  match i with
  | 0 => W
  | S i' =>
      let W' :=
        match watchers W !! this with
        | Some w =>
            match deps w !! i' with
            | Some dep => Dep_depend dep W
            | None => W
            end
        | None => W
        end in
      depend_loop this i' W'
  end.

(** [Watcher.prototype.depend] *)
Definition depend (this : wref) (W : World) : World :=
  match watchers W !! this with
  | Some w => depend_loop this (length (deps w)) W
  | None => W
  end.

(** The loop [while (i--) this.deps[i].removeSub(this)] *)
Fixpoint teardown_loop (this : wref) (i : nat) (W : World) : World :=
  match i with
  | 0 => W
  | S i' =>
      let W' :=
        match watchers W !! this with
        | Some w =>
            match deps w !! i' with
            | Some dep => Dep_removeSub dep this W
            | None => W
            end
        | None => W
        end in
      teardown_loop this i' W'
  end.

(** [Watcher.prototype.teardown] *)
Definition teardown (this : wref) (W : World) : World :=
  match watchers W !! this with
  | Some w =>
      if active w then
        let W1 :=
          match vms W !! vm w with
          | Some c =>
              if _isBeingDestroyed c then W
              else set_vms (alter (λ c, mkComponent (remove (_watchers c) this)
                                                    (_isBeingDestroyed c)) (vm w)) W
          | None => W
          end in
        let W2 := teardown_loop this (length (deps w)) W1 in
        upd_watcher this (set_active false) W2
      else W
  | None => W
  end.

(** ** Edge bookkeeping *)

(** The ids [dep.id] along a sequence of publisher references. *)
Definition ids_of (W : World) (l : list dref) : list nat := omap (depId W) l.

(** A publisher of [this.deps] is stale when its id is missing from
    [this.newDepIds]: the test of the loop of [cleanupDeps]. *)
Definition stale (W : World) (w : Watcher) (dep : dref) : bool :=
  match depId W dep with
  | Some id => bool_decide (id ∉ newDepIds w)
  | None => false
  end.

(** [dep.removeSub(this)] for the publishers [l], last one first. *)
Definition unsubscribe (this : wref) (l : list dref) (W : World) : World :=
  foldr (λ dep W, Dep_removeSub dep this W) W l.

(** The edges of a subscriber list no id twice, and the staging id set
    covers the staging sequence. *)
Definition edges_wf (W : World) (w : Watcher) : Prop :=
  NoDup (ids_of W (deps w)) ∧
  NoDup (ids_of W (newDeps w)) ∧
  ∀ i, i ∈ ids_of W (newDeps w) → i ∈ newDepIds w.

Definition world_wf (W : World) : Prop :=
  ∀ this w, watchers W !! this = Some w → edges_wf W w.

(** The moves of the engine, made by any subscriber.  Evaluation,
    re-evaluation, dispatch and notification are runs of such moves when
    user code is, see [host_steps]. *)
Inductive engine_step : World → World → Prop :=
  | step_addDep this dep W : engine_step W (addDep this dep W)
  | step_cleanupDeps this W : engine_step W (cleanupDeps this W)
  | step_Dep_depend dep W : engine_step W (Dep_depend dep W)
  | step_teardown this W : engine_step W (teardown this W)
  | step_pushTarget this W : engine_step W (pushTarget this W)
  | step_popTarget W : engine_step W (popTarget W)
  | step_queueWatcher this W : engine_step W (queueWatcher this W)
  | step_emit e W : engine_step W (emit e W)
  | step_seenObjects f W : engine_step W (set_seenObjects f W)
  | step_set_value this v W : engine_step W (upd_watcher this (set_value v) W)
  | step_set_dirty this b W : engine_step W (upd_watcher this (set_dirty b) W).

(** User code that acts on the world through the engine only. *)
Definition host_steps (H : Host) : Prop :=
  (∀ f c W, rtc engine_step W (call_getter H f c W).1) ∧
  (∀ f c v oldValue W, rtc engine_step W (call_cb H f c v oldValue W).1) ∧
  (∀ f e c W, rtc engine_step W (call_errorHandler H f e c W).1).

(** ** The object graph seen by the deep traversal *)

(** The ids of the markers of a heap. *)
Definition marker_ids (h : gmap oref Obj) : gset nat :=
  list_to_set (omap (λ p : oref * Obj, ob_depId p.2) (map_to_list h)).

(** A reference between two unmarked extensible composites. *)
Definition plain_ref (h : gmap oref Obj) (o c : oref) : Prop :=
  ∃ ob p cb,
    h !! o = Some ob ∧ isExtensible ob = true ∧ ob_depId ob = None ∧
    p ∈ props ob ∧ pval p = VRef c ∧
    h !! c = Some cb ∧ isExtensible cb = true ∧ ob_depId cb = None.

(** Two composites never share a marker id. *)
Definition markers_unique (h : gmap oref Obj) : Prop :=
  ∀ o1 o2 ob1 ob2 d,
    h !! o1 = Some ob1 → h !! o2 = Some ob2 →
    ob_depId ob1 = Some d → ob_depId ob2 = Some d → o1 = o2.

#[global] Instance Event_eq_dec : EqDecision Event.
Proof. solve_decision. Defined.

(** How many times the property [i] of [o] is read along a trace. *)
Definition touches (o : oref) (i : nat) (T : list Event) : nat :=
  length (filter (λ e, e = EvTouch o i) T).

(** The composites the walk of [val] reaches: [val] itself, and what an
    extensible composite it reaches refers to. *)
Inductive reach (h : gmap oref Obj) (val : Value) : oref → Prop :=
  | reach_root o : val = VRef o → reach h val o
  | reach_child o ob p c :
      reach h val o → h !! o = Some ob → isExtensible ob = true →
      p ∈ props ob → pval p = VRef c → reach h val c.

(** Every cycle the walk of [val] can run into passes through a marked
    composite: no composite it reaches lies on a cycle of references
    between unmarked extensible composites. *)
Definition marker_guarded (h : gmap oref Obj) (val : Value) : Prop :=
  ∀ o, reach h val o → ¬ tc (plain_ref h) o o.

(** [W'] comes after [W] in a walk: same object graph, a larger seen set,
    a longer trace. *)
Definition extends (W W' : World) : Prop :=
  objs W' = objs W ∧
  seenObjects W ⊆ seenObjects W' ∧
  ∃ T, trace W' = trace W ++ T.

(** 1 if [k] is the index of a property of [ob], 0 otherwise. *)
Definition in_range (k : nat) (ob : Obj) : nat :=
  if decide (k < length (props ob)) then 1 else 0.

(** Along the walk from [W] to [W'], the property [k] of the composite
    [o], marked [d], is read [n] times if [d] is recorded on the way, and
    not at all otherwise. *)
Definition reads_once (o : oref) (k d n : nat) (W W' : World) : Prop :=
  extends W W' ∧
  ∃ T, trace W' = trace W ++ T ∧
       touches o k T
       = if decide ((d ∉ seenObjects W) ∧ (d ∈ seenObjects W')) then n else 0.

(** The walk has dealt with the value [val]: if it is an extensible
    composite, its marker id is recorded, or, without a marker, every
    property of it has been read. *)
Definition entered (h : gmap oref Obj) (seen : gset nat) (T : list Event)
    (val : Value) : Prop :=
  ∀ c cb, val = VRef c → h !! c = Some cb → isExtensible cb = true →
    match ob_depId cb with
    | Some d => d ∈ seen
    | None => ∀ j, j < length (props cb) → EvTouch c j ∈ T
    end.

(** Whatever a read of the trace returned has been dealt with. *)
Definition closed (h : gmap oref Obj) (seen : gset nat) (T : list Event) : Prop :=
  ∀ o i ob p, EvTouch o i ∈ T → h !! o = Some ob → props ob !! i = Some p →
    entered h seen T (pval p).

Definition walked (h : gmap oref Obj) (val : Value) (W W' : World) : Prop :=
  extends W W' ∧
  ∃ T, trace W' = trace W ++ T ∧
       entered h (seenObjects W') T val ∧
       closed h (seenObjects W') T.

(** ** Evaluations as sequences of reads *)

(** The publishers [ds] are read in turn: each registers with whatever
    subscriber is on top of the evaluation-context stack. *)
Definition reads (ds : list dref) (W : World) : World :=
  foldl (λ W d, Dep_depend d W) W ds.

(** The staging sequence and the staging id set of a subscriber agree. *)
Definition staging_consistent (W : World) (w : Watcher) : Prop :=
  ∀ i, i ∈ ids_of W (newDeps w) ↔ i ∈ newDepIds w.

(** No subscriber carries an id above the counter [uid]. *)
Definition ids_bounded (W : World) : Prop :=
  ∀ x w, watchers W !! x = Some w → (id w <=? uid W)%float = true.

(** The fields of a subscriber that registration and diffing leave alone. *)
Definition same_settings (w w' : Watcher) : Prop :=
  vm w' = vm w ∧ expression w' = expression w ∧ cb w' = cb w ∧ id w' = id w ∧
  deep w' = deep w ∧ user w' = user w ∧ lazy w' = lazy w ∧ sync w' = sync w ∧
  dirty w' = dirty w ∧ active w' = active w ∧ getter w' = getter w ∧
  value w' = value w.

(** The fields of a subscriber other than its cache, [value] and
    [dirty]. *)
Definition same_but_cache (w w' : Watcher) : Prop :=
  vm w' = vm w ∧ expression w' = expression w ∧ cb w' = cb w ∧ id w' = id w ∧
  deep w' = deep w ∧ user w' = user w ∧ lazy w' = lazy w ∧ sync w' = sync w ∧
  active w' = active w ∧ deps w' = deps w ∧ newDeps w' = newDeps w ∧
  depIds w' = depIds w ∧ newDepIds w' = newDepIds w ∧ getter w' = getter w.

(** [W'] is [W] but for the subscriber [this]. *)
Definition only_watcher (this : wref) (W W' : World) : Prop :=
  (∀ x, x ≠ this → watchers W' !! x = watchers W !! x) ∧
  depHeap W' = depHeap W ∧ vms W' = vms W ∧ objs W' = objs W ∧ uid W' = uid W ∧
  targetStack W' = targetStack W ∧ queue W' = queue W ∧
  seenObjects W' = seenObjects W ∧
  config_errorHandler W' = config_errorHandler W ∧ production W' = production W ∧
  trace W' = trace W.

(** What [run] does with the outcome of the callback of a guarded
    subscriber, called in [W] and ended in [W3]: a thrown error goes to the
    configured handler, or is re-thrown after a warning (outside
    production); any other outcome is the outcome of [run]. *)
Definition routed (H : Host) (w : Watcher) (W3 : World) (o : Outcome unit)
    (r : World * Outcome unit) : Prop :=
  match o with
  | Throw e =>
      (∀ handler, config_errorHandler W3 = Some handler →
         r = call_errorHandler H handler e (vm w) W3) ∧
      (config_errorHandler W3 = None →
         r.2 = Throw e ∧
         (production W3 = true → r.1 = W3) ∧
         (production W3 = false →
            r.1 = warn (msg_error_in_watcher (expression w)) (vm w) W3))
  | _ => r = (W3, o)
  end.

(** ** Scenarios

    Concrete hosts and worlds on which the statements below are exercised. *)

(** User code that does nothing and returns [undefined]. *)
Definition host_quiet : Host :=
  mkHost (λ _ _ W, (W, Normal VUndefined))
         (λ _ _ _ _ W, (W, Normal tt))
         (λ _ _ _ W, (W, Normal tt))
         (λ _, None)
         (λ _, EmptyString).

(** A watcher of component 0 with callback 0, watching function 0. *)
Definition watcher_with (deep user lazy sync active : bool)
    (deps : list dref) (depIds : gset nat) (v : Value) : Watcher :=
  mkWatcher 0 EmptyString 0 1 deep user lazy sync lazy active
            deps [] depIds ∅ (GFn 0) v.

(** A world with watchers [ws] and publishers [ds], one component that
    lists watcher 0, and nothing else. *)
Definition world_with (ws : gmap wref Watcher) (ds : gmap dref Dep) : World :=
  mkWorld ws ds {[0 := mkComponent [0] false]} ∅ 1 [] [] ∅ None false [].

Definition plain_watcher : Watcher :=
  watcher_with false false false false true [] ∅ VUndefined.

(** User code whose watched function is [g] and whose callback is [c]. *)
Definition host_of (g : World → World * Outcome Value)
    (c : World → World * Outcome unit) : Host :=
  mkHost (λ _ _, g) (λ _ _ _ _, c) (λ _ _ _ W, (W, Normal tt))
         (λ _, None) (λ _, EmptyString).

(** A watched function that reads the publishers [ds] in order and
    returns [v]. *)
Definition reading (ds : list dref) (v : Value) (W : World) : World * Outcome Value :=
  (foldl (λ W d, Dep_depend d W) W ds, Normal v).

Definition returning (W : World) : World * Outcome unit := (W, Normal tt).

Definition throwing {A : Type} (e : Value) (W : World) : World * Outcome A :=
  (W, Throw e).

Definition boom : Value := VStr "boom".

Definition torn_watcher : Watcher :=
  watcher_with false false false false false [] ∅ VUndefined.

Definition guarded_watcher : Watcher :=
  watcher_with false true false false true [] ∅ VUndefined.

Definition in_production (W : World) : World :=
  mkWorld (watchers W) (depHeap W) (vms W) (objs W) (uid W) (targetStack W)
          (queue W) (seenObjects W) (config_errorHandler W) true (trace W).

Definition with_errorHandler (h : fnref) (W : World) : World :=
  mkWorld (watchers W) (depHeap W) (vms W) (objs W) (uid W) (targetStack W)
          (queue W) (seenObjects W) (Some h) (production W) (trace W).

(** A watcher holding edges to publishers 0 and 1 (ids 10 and 11) from its
    previous evaluation, whose latest evaluation read publisher 0 only. *)
Definition diff_watcher : Watcher :=
  mkWatcher 0 EmptyString 0 1 false false false true false true
            [0; 1] [0] {[10; 11]} {[10]} (GFn 0) VUndefined.

Definition diff_world : World :=
  world_with {[0 := diff_watcher]} {[0 := mkDep 10 [0]; 1 := mkDep 11 [0]]}.

(** An instrumented object (marker id 5) and a plain array that refer to
    each other: [a = { items: b }], [b = [a, 1]]. *)
Definition cyclic_objs : gmap oref Obj :=
  {[0 := mkObj false true (Some 5) [mkProp (VRef 1) None];
    1 := mkObj true true None [mkProp (VRef 0) None; mkProp (VNum 1) None]]}.

Definition cyclic_world : World :=
  mkWorld ∅ ∅ ∅ cyclic_objs 0 [] [] ∅ None false [].

Definition with_objs (h : gmap oref Obj) (W : World) : World :=
  mkWorld (watchers W) (depHeap W) (vms W) h (uid W) (targetStack W)
          (queue W) (seenObjects W) (config_errorHandler W) (production W) (trace W).

(** A plain array that contains itself: [a = []; a.push(a)]. *)
Definition plain_cycle_world : World :=
  with_objs {[0 := mkObj true true None [mkProp (VRef 0) None]]} cyclic_world.

(** The data [{ flag, a: 1 }], whose two properties are instrumented with
    the publishers 0 and 1, and the watched function
    [() => data.flag ? data.a : null]. *)
Definition cond_objs (flag : bool) : gmap oref Obj :=
  {[0 := mkObj false true None
           [mkProp (VBool flag) (Some 0); mkProp (VNum 1) (Some 1)]]}.

Definition cond_getter (W : World) : World * Outcome Value :=
  let '(flag, W1) := readProp 0 0 W in
  if truthy flag
  then let '(a, W2) := readProp 0 1 W1 in (W2, Normal a)
  else (W1, Normal VNull).

Definition cond_world : World :=
  mkWorld ∅ {[0 := mkDep 10 []; 1 := mkDep 11 []]} {[0 := mkComponent [] false]}
          (cond_objs true) 0 [] [] ∅ None false [].

Definition sync_options : Options :=
  mkOptions VUndefined VUndefined VUndefined (VBool true).

(** A lazy subscriber whose cache is valid ([dirty = false]), and one that
    is sync as well. *)
Definition cached_watcher : Watcher :=
  mkWatcher 0 EmptyString 0 1 false false true false false true
            [] [] ∅ ∅ (GFn 0) (VNum 1).

Definition cached_sync_watcher : Watcher :=
  mkWatcher 0 EmptyString 0 1 false false true true false true
            [] [] ∅ ∅ (GFn 0) (VNum 1).

(** A lazy subscriber that has not been evaluated yet ([dirty = true]). *)
Definition lazy_watcher : Watcher :=
  watcher_with false false true false true [] ∅ VUndefined.

Definition lazy_world : World :=
  world_with {[0 := lazy_watcher]} {[0 := mkDep 10 []; 1 := mkDep 11 []]}.

(** The world the walk of [cyclic_world] ends in. *)
Definition cyclic_walked : World :=
  mkWorld ∅ ∅ ∅ cyclic_objs 0 [] [] {[5]} None false
          [EvTouch 0 0; EvTouch 1 1; EvTouch 1 0].

(** A subscriber without edges and two publishers, with ids 10 and 11. *)
Definition two_deps_world : World :=
  world_with {[0 := plain_watcher]} {[0 := mkDep 10 []; 1 := mkDep 11 []]}.

(** The world of [diff_world] with a second subscriber, 1, that is being
    evaluated. *)
Definition nested_world : World :=
  pushTarget 1 (set_watchers (insert 1 plain_watcher) diff_world).

(** From [W] to [W'] a walk has recorded marker ids and read properties of
    extensible composites reachable from [val0] only. *)
Definition only_reached (h : gmap oref Obj) (val0 : Value) (W W' : World) : Prop :=
  extends W W' ∧
  (∀ d, d ∈ seenObjects W' →
     d ∈ seenObjects W ∨
     ∃ o ob, reach h val0 o ∧ h !! o = Some ob ∧ isExtensible ob = true ∧
             ob_depId ob = Some d) ∧
  (∀ T e, trace W' = trace W ++ T → e ∈ T →
     ∃ o i ob, e = EvTouch o i ∧ reach h val0 o ∧ h !! o = Some ob ∧
               isExtensible ob = true ∧ i < length (props ob)).

(** What a walk leaves alone: everything but the seen set, the trace, and
    the staging and registrations of the subscriber being evaluated. *)
Definition walk_frame (W W' : World) : Prop :=
  objs W' = objs W ∧ vms W' = vms W ∧ uid W' = uid W ∧ queue W' = queue W ∧
  targetStack W' = targetStack W ∧
  config_errorHandler W' = config_errorHandler W ∧ production W' = production W ∧
  (∀ d, depId W' d = depId W d) ∧
  (∀ x, Dep_target W ≠ Some x → watchers W' !! x = watchers W !! x) ∧
  (Dep_target W = None → watchers W' = watchers W ∧ depHeap W' = depHeap W).

(** From [W] to [W'] every read of an instrumented property has put the id
    of the property's publisher into the staging set of subscriber [t]. *)
Definition registers (h : gmap oref Obj) (t : wref) (W W' : World) : Prop :=
  extends W W' ∧ walk_frame W W' ∧
  ∀ wt, watchers W !! t = Some wt →
    ∃ wt', watchers W' !! t = Some wt' ∧ same_settings wt wt' ∧
           newDepIds wt ⊆ newDepIds wt' ∧
           ∀ T o i ob p d k,
             trace W' = trace W ++ T → EvTouch o i ∈ T →
             h !! o = Some ob → props ob !! i = Some p → pdep p = Some d →
             depId W d = Some k → k ∈ newDepIds wt'.











(** A deep subscriber over the data of [cond_objs], whose properties are
    instrumented with the publishers 0 and 1. *)
Definition deep_watcher : Watcher :=
  watcher_with true false false false true [] ∅ VUndefined.

Definition deep_world : World :=
  with_objs (cond_objs true)
    (world_with {[0 := deep_watcher]} {[0 := mkDep 10 []; 1 := mkDep 11 []]}).

(** * Properties *)

(** ** Invalidation dispatch *)

Section Dispatch.
Variable H : Host.

(** C6: [update] dispatches on the mode flags.  On a lazy subscriber it
    sets [dirty = true] and returns: nothing else in the world changes.  On
    a sync subscriber that is not lazy it is [run], at once.  On any other
    it hands the subscriber to the scheduler, which has it queued
    afterwards, and changes nothing else.  In the lazy and in the batched
    case no user code runs: the result is the same whatever the user code
    and the budget are. *)
Theorem update_dispatch (fuel : nat) (this : wref) (W : World) (w : Watcher) :
  watchers W !! this = Some w →
  (lazy w = true →
     ∃ W' w',
       update H fuel this W = (W', Normal tt) ∧
       watchers W' !! this = Some w' ∧
       dirty w' = true ∧ value w' = value w ∧ same_but_cache w w' ∧
       only_watcher this W W') ∧
  (lazy w = false → sync w = true →
     update H fuel this W = run H fuel this W) ∧
  (lazy w = false → sync w = false →
     ∃ W',
       update H fuel this W = (W', Normal tt) ∧
       W' = queueWatcher this W ∧
       this ∈ queue W' ∧ (∀ x, x ∈ queue W → x ∈ queue W') ∧
       watchers W' = watchers W ∧ depHeap W' = depHeap W ∧
       targetStack W' = targetStack W ∧ trace W' = trace W) ∧
  (lazy w = true ∨ sync w = false →
     ∀ H' fuel', update H' fuel' this W = update H fuel this W).
Proof.
  intros Hw. unfold update. rewrite Hw. split_and!.
  - intros ->. eexists _, _. split; [done|].
    cbn [upd_watcher set_watchers watchers]. rewrite lookup_alter_eq, Hw.
    split; [done|]. split; [done|]. split; [done|]. split; [by repeat split|].
    unfold only_watcher. split_and!; try done.
    intros x Hx. cbn. by rewrite lookup_alter_ne.
  - by intros -> ->.
  - intros -> ->. eexists. split; [done|]. split; [done|].
    unfold queueWatcher. destruct (decide (this ∈ queue W)) as [Hin|Hout]; [done|].
    cbn. split_and!; try done; set_solver.
  - intros Hcase H' fuel'.
    destruct (lazy w); [done|]. destruct Hcase as [?| ->]; done.
Qed.
End Dispatch.

(** [update_dispatch] on a lazy subscriber whose cache is valid: [dirty],
    which was [false], is [true] afterwards. *)
Lemma update_dispatch_witness :
  dirty cached_watcher = false ∧
  dirty <$> watchers (update host_quiet 0 0 (world_with {[0 := cached_watcher]} ∅)).1 !! 0
  = Some true.
Proof.
  split; [reflexivity|].
  assert (watchers (world_with {[0 := cached_watcher]} ∅) !! 0 = Some cached_watcher)
    as Hw by reflexivity.
  destruct (proj1 (update_dispatch host_quiet 0 0 (world_with {[0 := cached_watcher]} ∅)
                     cached_watcher Hw) eq_refl)
    as (W' & w' & Hupd & Hw' & Hd & _).
  rewrite Hupd. cbn [fst]. rewrite Hw'. cbn [fmap option_fmap option_map]. by rewrite Hd.
Defined.

Section Lazy_and_sync.
Variable H : Host.

(** C10: a subscriber constructed with both the lazy and the sync option
    has both flags set (and is left dirty and unevaluated), and on any
    subscriber with both flags [update] takes the lazy branch: it sets
    [dirty = true], changes nothing else in the world, and returns.  [run]
    is not called, and no user code with it: the result is the same
    whatever the user code and the budget are. *)
Theorem lazy_precedes_sync (fuel : nat) (vm0 : vref) (e : ExpOrFn) (cb0 : fnref)
    (o : Options) (W : World) :
  truthy (o_lazy o) = true → truthy (o_sync o) = true →
  (∃ W1 this w,
      Watcher_new H fuel vm0 e cb0 (Some o) W = (W1, Normal this) ∧
      watchers W !! this = None ∧
      watchers W1 !! this = Some w ∧
      lazy w = true ∧ sync w = true ∧ dirty w = true ∧ value w = VUndefined) ∧
  (∀ fuel' this W2 w2,
      watchers W2 !! this = Some w2 → lazy w2 = true → sync w2 = true →
      ∃ W3 w3,
        update H fuel' this W2 = (W3, Normal tt) ∧
        watchers W3 !! this = Some w3 ∧
        dirty w3 = true ∧ value w3 = value w2 ∧ same_but_cache w2 w3 ∧
        only_watcher this W2 W3 ∧
        ∀ H' fuel'', update H' fuel'' this W2 = (W3, Normal tt)).
Proof.
  intros Hl Hs. split.
  - unfold Watcher_new. rewrite Hl, Hs. cbn zeta.
    set (this := fresh (dom (watchers (emit _ W)))).
    assert (watchers W !! this = None) as Hfresh.
    { apply not_elem_of_dom. apply (is_fresh (dom (watchers W))). }
    destruct e as [s|f]; [destruct (parsePath H s)|];
      (eexists _, this, _; split; [reflexivity|]; split; [exact Hfresh|];
       split; [apply lookup_insert_eq|]; done).
  - intros fuel' this W2 w2 Hw Hl2 Hs2. unfold update. rewrite Hw, Hl2.
    eexists _, _. split; [done|].
    cbn [upd_watcher set_watchers watchers]. rewrite lookup_alter_eq, Hw.
    split; [done|]. split; [done|]. split; [done|]. split; [by repeat split|].
    split.
    + unfold only_watcher. split_and!; try done.
      intros x Hx. cbn. by rewrite lookup_alter_ne.
    + done.
Qed.
End Lazy_and_sync.

(** [lazy_precedes_sync] on the options [{lazy: true, sync: true}] and a
    lazy and sync subscriber whose cache is valid: [dirty], which was
    [false], is [true] afterwards, and the value is still the cached one. *)
Lemma lazy_precedes_sync_witness :
  dirty cached_sync_watcher = false ∧
  dirty <$> watchers (update host_quiet 0 0
                        (world_with {[0 := cached_sync_watcher]} ∅)).1 !! 0
  = Some true ∧
  value <$> watchers (update host_quiet 0 0
                        (world_with {[0 := cached_sync_watcher]} ∅)).1 !! 0
  = Some (VNum 1).
Proof.
  split; [reflexivity|].
  assert (watchers (world_with {[0 := cached_sync_watcher]} ∅) !! 0
          = Some cached_sync_watcher) as Hw by reflexivity.
  destruct (proj2 (lazy_precedes_sync host_quiet 0 0 (EFunction 0) 0
                     (mkOptions VUndefined VUndefined (VBool true) (VBool true))
                     (world_with {[0 := plain_watcher]} ∅) eq_refl eq_refl)
                  0 0 (world_with {[0 := cached_sync_watcher]} ∅) cached_sync_watcher
                  Hw eq_refl eq_refl)
    as (W3 & w3 & Hupd & Hw3 & Hd & Hv & _).
  rewrite Hupd. cbn [fst]. rewrite Hw3. cbn [fmap option_fmap option_map].
  by rewrite Hd, Hv.
Defined.

(** ** Torn-down subscribers *)

(** C4, as stated, fails: [update] does not look at [active], and an
    inactive subscriber that is neither lazy nor sync is handed to the
    scheduler. *)
Lemma update_inactive_enqueues :
  watchers (world_with {[0 := torn_watcher]} ∅) !! 0 = Some torn_watcher ∧
  active torn_watcher = false ∧
  queue (world_with {[0 := torn_watcher]} ∅) = [] ∧
  queue (fst (update host_quiet 0 0 (world_with {[0 := torn_watcher]} ∅))) = [0].
Proof. repeat split; reflexivity. Qed.

Section Inactive.
Variable H : Host.

(** C4, amended: on an inactive subscriber [run] and [teardown] are
    no-ops.  [update] does not test [active]: it sets [dirty] when the
    subscriber is lazy, calls [run] (a no-op) when it is sync and not lazy,
    and otherwise hands it to the scheduler; in no case does it change a
    publisher's registry. *)
Theorem inactive_entry_points (fuel : nat) (this : wref) (W : World) (w : Watcher) :
  watchers W !! this = Some w → active w = false →
  run H fuel this W = (W, Normal tt) ∧
  teardown this W = W ∧
  (lazy w = true →
     update H fuel this W = (upd_watcher this (set_dirty true) W, Normal tt)) ∧
  (lazy w = false → sync w = true → update H fuel this W = (W, Normal tt)) ∧
  (lazy w = false → sync w = false →
     update H fuel this W = (queueWatcher this W, Normal tt)) ∧
  depHeap (fst (update H fuel this W)) = depHeap W.
Proof.
  intros Hw Ha.
  assert (run H fuel this W = (W, Normal tt)) as Hrun.
  { unfold run. by rewrite Hw, Ha. }
  split; [exact Hrun|]. split.
  { unfold teardown. by rewrite Hw, Ha. }
  unfold update. rewrite Hw, Hrun.
  repeat split; try (intros; repeat match goal with E : _ = _ |- _ => rewrite E end; done).
  destruct (lazy w); [done|]. destruct (sync w); [done|].
  unfold queueWatcher. by case_decide.
Qed.
End Inactive.

(** [inactive_entry_points] on a torn-down batched watcher. *)
Lemma inactive_entry_points_witness :
  run host_quiet 0 0 (world_with {[0 := torn_watcher]} ∅)
  = (world_with {[0 := torn_watcher]} ∅, Normal tt).
Proof.
  refine (proj1 (inactive_entry_points host_quiet 0 0 _ torn_watcher _ _));
    reflexivity.
Defined.

(** ** Re-evaluation and the callback *)

Section Run.
Variable H : Host.

(** C5: [run] on an inactive subscriber does nothing.  On an active one
    whose [get] returns [v], the callback is called exactly when
    [v !== this.value], or [v] is a composite, or the subscriber is deep.
    It is then called with [v] and the value stored before, in the world
    [get] left with [v] stored as the new value and nothing else changed;
    what the callback does is what [run] does, but for an error thrown by
    the callback of a guarded subscriber, which is routed.  Otherwise [run]
    ends in the world [get] left: the callback is not called and the stored
    value is not touched. *)
Theorem run_fires_iff (fuel : nat) (this : wref) (W : World) (w : Watcher) :
  watchers W !! this = Some w →
  (active w = false → run H fuel this W = (W, Normal tt)) ∧
  (active w = true →
   ∀ W1 v w1,
     get H fuel this W = (W1, Normal v) →
     watchers W1 !! this = Some w1 →
     (strict_neq v (value w1) || isObject v || deep w1 = true →
        ∃ W2 w2,
          watchers W2 !! this = Some w2 ∧
          value w2 = v ∧ dirty w2 = dirty w1 ∧ same_but_cache w1 w2 ∧
          only_watcher this W1 W2 ∧
          ∀ W3 o,
            call_cb H (cb w1) (vm w1) v (value w1) W2 = (W3, o) →
            (user w1 = false → run H fuel this W = (W3, o)) ∧
            (user w1 = true → routed H w1 W3 o (run H fuel this W))) ∧
     (strict_neq v (value w1) || isObject v || deep w1 = false →
        run H fuel this W = (W1, Normal tt))).
Proof.
  intros Hw. unfold run. rewrite Hw. split; intros Ha; rewrite Ha; [done|].
  intros W1 v w1 Hget Hw1. rewrite Hget, Hw1. unfold should_fire.
  split; intros Hc; rewrite Hc; [|done].
  exists (upd_watcher this (set_value v) W1), (set_value v w1).
  split; [by cbn; rewrite lookup_alter_eq, Hw1|].
  split; [done|]. split; [done|]. split; [by repeat split|]. split.
  { unfold only_watcher. split_and!; try done.
    intros x Hx. cbn. by rewrite lookup_alter_ne. }
  intros W3 o Hcb. unfold invoke_cb. rewrite Hcb.
  split; intros Hu; rewrite Hu; [done|].
  unfold routed. destruct o as [u|e|]; [done| |done]. split.
  - intros handler Hh. by rewrite Hh.
  - intros Hh. rewrite Hh. cbn [fst snd]. split; [done|].
    split; intros Hp; by rewrite Hp.
Qed.

(** C7, amended: when the callback of a guarded subscriber throws [e], a
    configured error handler is called with [e] and the context and what
    it does is the result of [run] (the error is not re-thrown); with no
    handler [e] is re-thrown, after a diagnostic unless the build is a
    production build.  The callback of a subscriber that is not guarded
    is called bare: its outcome is the outcome of [run]. *)
Theorem guarded_error_routing (fuel : nat) (this : wref) (W W1 : World)
    (w w1 : Watcher) (v : Value) :
  watchers W !! this = Some w → active w = true →
  get H fuel this W = (W1, Normal v) →
  watchers W1 !! this = Some w1 →
  strict_neq v (value w1) || isObject v || deep w1 = true →
  (user w1 = true →
   ∀ W2 e,
     call_cb H (cb w1) (vm w1) v (value w1) (upd_watcher this (set_value v) W1)
       = (W2, Throw e) →
     (∀ handler, config_errorHandler W2 = Some handler →
        run H fuel this W = call_errorHandler H handler e (vm w1) W2) ∧
     (config_errorHandler W2 = None →
        (production W2 = false →
           run H fuel this W
           = (warn (msg_error_in_watcher (expression w1)) (vm w1) W2, Throw e)) ∧
        (production W2 = true → run H fuel this W = (W2, Throw e)))) ∧
  (user w1 = false →
     run H fuel this W
     = call_cb H (cb w1) (vm w1) v (value w1) (upd_watcher this (set_value v) W1)).
Proof.
  intros Hw Ha Hget Hw1 Hc. unfold run. rewrite Hw, Ha, Hget, Hw1.
  unfold should_fire. rewrite Hc. unfold invoke_cb.
  split; intros Hu; rewrite Hu; [|done].
  intros W2 e Hcb. rewrite Hcb. split.
  - intros handler Hh. by rewrite Hh.
  - intros Hh. rewrite Hh. split; intros Hp; by rewrite Hp.
Qed.
End Run.

(** [run_fires_iff] on a guarded subscriber whose watched function
    returns [1] over a stored [undefined]: the callback is called, and [1]
    is the stored value afterwards. *)
Lemma run_fires_iff_witness :
  (run (host_of (reading [] (VNum 1)) returning) 0 0
       (world_with {[0 := guarded_watcher]} ∅)).2 = Normal tt ∧
  value <$> watchers (run (host_of (reading [] (VNum 1)) returning) 0 0
                        (world_with {[0 := guarded_watcher]} ∅)).1 !! 0
  = Some (VNum 1).
Proof.
  assert (watchers (world_with {[0 := guarded_watcher]} ∅) !! 0 = Some guarded_watcher)
    as Hw by reflexivity.
  assert (get (host_of (reading [] (VNum 1)) returning) 0 0
              (world_with {[0 := guarded_watcher]} ∅)
          = (world_with {[0 := guarded_watcher]} ∅, Normal (VNum 1)))
    as Hget by reflexivity.
  destruct (proj1 (proj2 (run_fires_iff (host_of (reading [] (VNum 1)) returning)
                            0 0 (world_with {[0 := guarded_watcher]} ∅)
                            guarded_watcher Hw) eq_refl
                         (world_with {[0 := guarded_watcher]} ∅) (VNum 1)
                         guarded_watcher Hget Hw) eq_refl)
    as (W2 & w2 & Hw2 & Hv & _ & _ & _ & Hcb).
  pose proof (proj2 (Hcb W2 (Normal tt) eq_refl) eq_refl) as Hrun.
  unfold routed in Hrun. rewrite Hrun. cbn [fst snd]. split; [reflexivity|].
  rewrite Hw2. cbn [fmap option_fmap option_map]. by rewrite Hv.
Defined.

(** C7, as stated, fails in a production build: the callback of a guarded
    subscriber throws, no handler is configured, the error is re-thrown and
    no diagnostic is emitted. *)
Lemma guarded_rethrow_without_diagnostic :
  user guarded_watcher = true ∧
  config_errorHandler (in_production (world_with {[0 := guarded_watcher]} ∅)) = None ∧
  snd (run (host_of (reading [] (VNum 1)) (throwing boom)) 0 0
         (in_production (world_with {[0 := guarded_watcher]} ∅)))
    = Throw boom ∧
  trace (fst (run (host_of (reading [] (VNum 1)) (throwing boom)) 0 0
                (in_production (world_with {[0 := guarded_watcher]} ∅))))
    = [].
Proof. repeat split; reflexivity. Qed.

(** [guarded_error_routing] with no handler, outside production: the
    diagnostic is emitted and the error re-thrown. *)
Lemma guarded_error_routing_witness :
  run (host_of (reading [] (VNum 1)) (throwing boom)) 0 0
      (world_with {[0 := guarded_watcher]} ∅)
  = (warn (msg_error_in_watcher EmptyString) 0
       (upd_watcher 0 (set_value (VNum 1)) (world_with {[0 := guarded_watcher]} ∅)),
     Throw boom).
Proof.
  refine (proj1 (proj2 (proj1 (guarded_error_routing
            (host_of (reading [] (VNum 1)) (throwing boom)) 0 0
            (world_with {[0 := guarded_watcher]} ∅)
            (world_with {[0 := guarded_watcher]} ∅)
            guarded_watcher guarded_watcher (VNum 1) _ _ _ _ _) _
            (upd_watcher 0 (set_value (VNum 1)) (world_with {[0 := guarded_watcher]} ∅))
            boom _) _) _);
    reflexivity.
Defined.

(** ** The evaluation-context stack *)

Lemma addDep_targetStack this dep W : targetStack (addDep this dep W) = targetStack W.
Proof. unfold addDep. repeat case_match; done. Qed.

Lemma Dep_depend_targetStack dep W : targetStack (Dep_depend dep W) = targetStack W.
Proof. unfold Dep_depend. case_match; [apply addDep_targetStack | done]. Qed.

Lemma readProp_targetStack o i W : targetStack (readProp o i W).2 = targetStack W.
Proof.
  unfold readProp. repeat case_match; simpl; try done.
  by rewrite Dep_depend_targetStack.
Qed.

Lemma cleanupDeps_loop_targetStack this i W :
  targetStack (cleanupDeps_loop this i W) = targetStack W.
Proof.
  revert W. induction i as [|i IH]; intros W; [done|].
  simpl. rewrite IH. repeat case_match; done.
Qed.

Lemma cleanupDeps_targetStack this W : targetStack (cleanupDeps this W) = targetStack W.
Proof.
  unfold cleanupDeps. case_match; [|done]. simpl. apply cleanupDeps_loop_targetStack.
Qed.

Lemma traverse_children_targetStack rec o i :
  (∀ v W W', rec v W = Some W' → targetStack W' = targetStack W) →
  ∀ W W', traverse_children rec o i W = Some W' → targetStack W' = targetStack W.
Proof.
  intros Hrec. induction i as [|i IH]; intros W W'; simpl.
  - by intros [= <-].
  - destruct (readProp o i W) as [v W1] eqn:Hr.
    destruct (rec v W1) as [W2|] eqn:Hv; [|done].
    intros Hl. rewrite (IH _ _ Hl), (Hrec _ _ _ Hv).
    change W1 with (v, W1).2. rewrite <- Hr. apply readProp_targetStack.
Qed.

Lemma _traverse_targetStack fuel :
  ∀ val W W', _traverse fuel val W = Some W' → targetStack W' = targetStack W.
Proof.
  induction fuel as [|fuel IH]; intros val W W'; [done|]. simpl.
  case_match; [by intros [= <-]|].
  destruct val as [| | | | |o]; try by intros [= <-].
  destruct (objs W !! o) as [ob|]; [|by intros [= <-]].
  assert (∀ W0, (if Array_isArray W (VRef o)
                 then traverse_children (_traverse fuel) o (length (props ob)) W0
                 else traverse_children (_traverse fuel) o (length (props ob)) W0)
                = Some W' → targetStack W' = targetStack W0) as Hwalk.
  { intros W0 Hl. destruct (Array_isArray W (VRef o));
      by apply (traverse_children_targetStack _ _ _ IH) in Hl. }
  destruct (ob_depId ob) as [d|]; [|apply Hwalk].
  case_decide; [by intros [= <-]|]. intros Hl. by apply Hwalk in Hl.
Qed.

Lemma traverse_targetStack fuel val W W' :
  traverse fuel val W = Some W' → targetStack W' = targetStack W.
Proof. unfold traverse. intros Hl. by apply _traverse_targetStack in Hl. Qed.

(** C3, as stated, fails: the watched function throws and [get] leaves
    the subscriber on the stack, which was empty before the call. *)
Lemma get_throw_leaves_target :
  targetStack (world_with {[0 := plain_watcher]} ∅) = [] ∧
  get (host_of (throwing boom) returning) 0 0 (world_with {[0 := plain_watcher]} ∅)
  = (pushTarget 0 (world_with {[0 := plain_watcher]} ∅), Throw boom) ∧
  targetStack (fst (get (host_of (throwing boom) returning) 0 0
                      (world_with {[0 := plain_watcher]} ∅))) = [0].
Proof. repeat split; reflexivity. Qed.

Section Stack.
Variable H : Host.

(** C3, amended: [get] pushes the subscriber before it calls the watched
    function.  When that call (and the deep traversal) return, [get] pops
    exactly once: the stack is the one the function left, less its top, so
    the previous context is restored whenever the function leaves the
    stack as it found it.  When the call throws, [get] ends there, in the
    world the function left, and nothing is popped. *)
Theorem get_stack_discipline (fuel : nat) (this : wref) (W : World) (w : Watcher) :
  watchers W !! this = Some w →
  (∀ W1 v W',
     call_this_getter H w (pushTarget this W) = (W1, Normal v) →
     get H fuel this W = (W', Normal v) →
     targetStack W' = tail (targetStack W1) ∧
     (targetStack W1 = this :: targetStack W → targetStack W' = targetStack W)) ∧
  (∀ W1 e,
     call_this_getter H w (pushTarget this W) = (W1, Throw e) →
     get H fuel this W = (W1, Throw e) ∧
     (targetStack W1 = this :: targetStack W →
      targetStack (fst (get H fuel this W)) = this :: targetStack W)).
Proof.
  intros Hw. split.
  - intros W1 v W' Hg. unfold get. rewrite Hw, Hg.
    set (dn := match watchers W1 !! this with Some w2 => deep w2 | None => false end).
    destruct (if dn then traverse fuel v W1 else Some W1) as [W3|] eqn:Ht; [|done].
    intros [= <-]. rewrite cleanupDeps_targetStack. simpl.
    assert (targetStack W3 = targetStack W1) as ->.
    { destruct dn; [by apply traverse_targetStack in Ht | by inversion Ht]. }
    split; [done|]. by intros ->.
  - intros W1 e Hg. unfold get. rewrite Hw, Hg. done.
Qed.
End Stack.

(** [get_stack_discipline] on a watched function that reads publisher 0
    and returns. *)
Lemma get_stack_discipline_witness :
  targetStack (fst (get (host_of (reading [0] VNull) returning) 0 0
                      (world_with {[0 := plain_watcher]} {[0 := mkDep 7 []]})))
  = targetStack (world_with {[0 := plain_watcher]} {[0 := mkDep 7 []]}).
Proof.
  refine (proj2 (proj1 (get_stack_discipline (host_of (reading [0] VNull) returning)
            0 0 (world_with {[0 := plain_watcher]} {[0 := mkDep 7 []]})
            plain_watcher _) _ VNull _ _ _) _);
    reflexivity.
Defined.

(** ** Registries and edges *)

Lemma remove_not_elem (l : list nat) (x : nat) : NoDup l → x ∉ remove l x.
Proof.
  induction 1 as [|y l Hy Hl IH]; simpl; [set_solver|].
  destruct (decide (y = x)) as [->|]; [done|]. set_solver.
Qed.

Lemma remove_sublist (l : list nat) (x y : nat) : y ∈ remove l x → y ∈ l.
Proof.
  induction l as [|z l IH]; simpl; [done|].
  destruct (decide (z = x)); set_solver.
Qed.

Lemma remove_absent (l : list nat) (x : nat) : x ∉ l → remove l x = l.
Proof.
  induction l as [|z l IH]; simpl; [done|]. intros Hx.
  destruct (decide (z = x)); [set_solver|]. f_equal. apply IH. set_solver.
Qed.

Lemma depId_Dep_addSub dep sub W d : depId (Dep_addSub dep sub W) d = depId W d.
Proof.
  unfold depId, Dep_addSub. simpl. rewrite lookup_alter.
  destruct (decide (dep = d)) as [->|]; [|done]. by destruct (depHeap W !! d).
Qed.

Lemma depId_Dep_removeSub dep sub W d : depId (Dep_removeSub dep sub W) d = depId W d.
Proof.
  unfold depId, Dep_removeSub. simpl. rewrite lookup_alter.
  destruct (decide (dep = d)) as [->|]; [|done]. by destruct (depHeap W !! d).
Qed.

Lemma depId_unsubscribe this l W d : depId (unsubscribe this l W) d = depId W d.
Proof.
  induction l as [|x l IH]; simpl; [done|]. by rewrite depId_Dep_removeSub.
Qed.

Lemma watchers_unsubscribe this l W : watchers (unsubscribe this l W) = watchers W.
Proof. induction l as [|x l IH]; simpl; done. Qed.

Lemma stale_Dep_removeSub dep sub W w d :
  stale (Dep_removeSub dep sub W) w d = stale W w d.
Proof. unfold stale. by rewrite depId_Dep_removeSub. Qed.

(** The registries after unsubscribing from a duplicate-free sequence. *)
Lemma unsubscribe_lookup this (l : list dref) W (d : dref) :
  NoDup l →
  depHeap (unsubscribe this l W) !! d
  = if decide (d ∈ l)
    then (λ D, mkDep (dep_id D) (remove (subs D) this)) <$> depHeap W !! d
    else depHeap W !! d.
Proof.
  induction 1 as [|x l Hx Hl IH].
  - rewrite decide_False by set_solver. done.
  - cbn [unsubscribe foldr]. fold (unsubscribe this l W).
    unfold Dep_removeSub at 1. cbn [depHeap set_depHeap].
    rewrite lookup_alter. destruct (decide (x = d)) as [->|Hne].
    + rewrite IH. rewrite decide_False by done. rewrite decide_True by set_solver. done.
    + rewrite IH. destruct (decide (d ∈ l)).
      * rewrite decide_True by set_solver. done.
      * rewrite decide_False by set_solver. done.
Qed.

(** The loop of [cleanupDeps] unsubscribes from the stale publishers. *)
Lemma cleanupDeps_loop_unsubscribe this w (i : nat) : ∀ W,
  watchers W !! this = Some w →
  cleanupDeps_loop this i W
  = unsubscribe this (filter (λ d, stale W w d = true) (take i (deps w))) W.
Proof.
  induction i as [|i IH]; intros W Hw.
  - by rewrite take_0.
  - simpl. rewrite Hw. destruct (deps w !! i) as [dep|] eqn:Hd.
    + rewrite (take_S_r _ _ _ Hd), filter_app. unfold unsubscribe at 1.
      rewrite foldr_app. fold (unsubscribe this).
      assert (∀ W', W' = W ∨ W' = Dep_removeSub dep this W →
                cleanupDeps_loop this i W'
                = unsubscribe this (filter (λ d, stale W w d = true) (take i (deps w))) W')
        as Hstep.
      { intros W' [->| ->]; [by apply IH|]. rewrite IH by done.
        f_equal. apply list_filter_iff. intros d. by rewrite stale_Dep_removeSub. }
      assert (match depId W dep with
              | Some k => if decide (k ∈ newDepIds w) then W else Dep_removeSub dep this W
              | None => W
              end = if stale W w dep then Dep_removeSub dep this W else W) as ->.
      { unfold stale. destruct (depId W dep) as [k|]; [|done].
        destruct (decide (k ∈ newDepIds w)).
        - rewrite bool_decide_eq_false_2; [done|]. by intros ?.
        - by rewrite bool_decide_eq_true_2. }
      destruct (stale W w dep) eqn:Hs.
      * rewrite filter_cons_True by done. apply Hstep. by right.
      * rewrite filter_cons_False by (by rewrite Hs). apply Hstep. by left.
    + rewrite IH by done. f_equal. f_equal.
      apply lookup_ge_None in Hd. by rewrite !take_ge by lia.
Qed.

(** The loop of [teardown] unsubscribes from every publisher of [deps]. *)
Lemma teardown_loop_unsubscribe this w (i : nat) : ∀ W,
  watchers W !! this = Some w →
  teardown_loop this i W = unsubscribe this (take i (deps w)) W.
Proof.
  induction i as [|i IH]; intros W Hw.
  - by rewrite take_0.
  - simpl. rewrite Hw. destruct (deps w !! i) as [dep|] eqn:Hd.
    + rewrite (take_S_r _ _ _ Hd). unfold unsubscribe at 1.
      rewrite foldr_app. fold (unsubscribe this). simpl. by apply IH.
    + rewrite IH by done. f_equal.
      apply lookup_ge_None in Hd. by rewrite !take_ge by lia.
Qed.

(** ** The dependency diff *)

Lemma elem_of_stale_filter W w (l : list dref) d D :
  depHeap W !! d = Some D →
  d ∈ filter (λ d, stale W w d = true) l ↔ d ∈ l ∧ dep_id D ∉ newDepIds w.
Proof.
  intros Hd. rewrite list_elem_of_filter. unfold stale, depId. rewrite Hd. simpl.
  rewrite bool_decide_eq_true. tauto.
Qed.


(** ** Dependency registration *)

Lemma ids_of_ext W W' (l : list dref) :
  (∀ d, depId W' d = depId W d) → ids_of W' l = ids_of W l.
Proof.
  intros Hext. unfold ids_of. induction l as [|d l IH]; [done|].
  csimpl. by rewrite Hext, IH.
Qed.

Lemma ids_of_app W (l k : list dref) : ids_of W (l ++ k) = ids_of W l ++ ids_of W k.
Proof. unfold ids_of. apply omap_app. Qed.

Lemma edges_wf_ext W W' w :
  (∀ d, depId W' d = depId W d) → edges_wf W w → edges_wf W' w.
Proof.
  intros Hext. unfold edges_wf. by rewrite !(ids_of_ext W W') by done.
Qed.

Lemma depId_addDep this dep W d : depId (addDep this dep W) d = depId W d.
Proof.
  unfold addDep. repeat case_match; try done. by rewrite depId_Dep_addSub.
Qed.

Lemma depId_cleanupDeps this W d : depId (cleanupDeps this W) d = depId W d.
Proof.
  unfold cleanupDeps. destruct (watchers W !! this) as [w|] eqn:Hw; [|done].
  rewrite (cleanupDeps_loop_unsubscribe this w _ W Hw).
  apply (depId_unsubscribe this _ W d).
Qed.

Lemma depId_teardown this W d : depId (teardown this W) d = depId W d.
Proof.
  unfold teardown. destruct (watchers W !! this) as [w|] eqn:Hw; [|done].
  destruct (active w); [|done].
  set (W1 := match vms W !! vm w with Some _ => _ | None => _ end).
  assert (watchers W1 = watchers W ∧ depHeap W1 = depHeap W) as [Hw1 Hd1].
  { unfold W1. repeat case_match; done. }
  rewrite (teardown_loop_unsubscribe this w _ W1) by (by rewrite Hw1).
  transitivity (depId W1 d); [apply (depId_unsubscribe this _ W1 d)|].
  unfold depId. by rewrite Hd1.
Qed.

(** A sequence of valid references with no repeated id has no repeated
    reference: [deps] is duplicate-free in a well-formed world. *)
Lemma ids_of_NoDup W (l : list dref) :
  (∀ d, d ∈ l → is_Some (depHeap W !! d)) → NoDup (ids_of W l) → NoDup l.
Proof.
  unfold ids_of. induction l as [|x l IH]; intros Hval; [constructor|].
  csimpl. destruct (Hval x) as [D HD]; [set_solver|].
  unfold depId at 1. rewrite HD. simpl. intros [Hx Hl]%NoDup_cons.
  apply NoDup_cons. split; [|apply IH; [intros d Hd; apply Hval; set_solver|done]].
  intros Hin. apply Hx. apply list_elem_of_omap. exists x. split; [done|].
  unfold depId. by rewrite HD.
Qed.

(** What [addDep] does to the subscriber and to the registries. *)
Lemma addDep_cases this dep W w D :
  watchers W !! this = Some w → depHeap W !! dep = Some D →
  (dep_id D ∈ newDepIds w → addDep this dep W = W) ∧
  (dep_id D ∉ newDepIds w →
     watchers (addDep this dep W) !! this
     = Some (set_newDeps (newDeps w ++ [dep])
               (set_newDepIds ({[dep_id D]} ∪ newDepIds w) w)) ∧
     (∀ x, x ≠ this → watchers (addDep this dep W) !! x = watchers W !! x) ∧
     (dep_id D ∈ depIds w → depHeap (addDep this dep W) = depHeap W) ∧
     (dep_id D ∉ depIds w →
        depHeap (addDep this dep W)
        = <[dep := mkDep (dep_id D) (subs D ++ [this])]> (depHeap W))).
Proof.
  intros Hw Hd. unfold addDep, depId. rewrite Hw, Hd. simpl.
  split; intros Hn; [by rewrite decide_True|]. rewrite decide_False by done.
  assert (∀ W', watchers (if decide (dep_id D ∈ depIds w) then W' else Dep_addSub dep this W')
                = watchers W') as Hws.
  { intros W'. by destruct (decide (dep_id D ∈ depIds w)). }
  split; [|split; [|split]].
  - rewrite Hws. cbn [upd_watcher set_watchers watchers].
    by rewrite !lookup_alter_eq, Hw.
  - intros x Hx. rewrite Hws. cbn [upd_watcher set_watchers watchers].
    by rewrite !lookup_alter_ne.
  - intros Hi. by rewrite decide_True.
  - intros Hi. rewrite decide_False by done. unfold Dep_addSub. simpl.
    apply map_eq. intros d. rewrite lookup_alter, lookup_insert.
    destruct (decide (dep = d)) as [<-|]; [|done]. by rewrite Hd.
Qed.

Lemma addDep_world_wf this dep W : world_wf W → world_wf (addDep this dep W).
Proof.
  intros Hwf x wx Hx.
  apply (edges_wf_ext W); [intros d; apply depId_addDep|].
  destruct (watchers W !! this) as [w|] eqn:Hw.
  2:{ unfold addDep in Hx. rewrite Hw in Hx. by apply Hwf in Hx. }
  destruct (depHeap W !! dep) as [D|] eqn:Hd.
  2:{ unfold addDep, depId in Hx. rewrite Hw, Hd in Hx. by apply (Hwf x). }
  destruct (addDep_cases this dep W w D Hw Hd) as [Hsame Hnew].
  destruct (decide (dep_id D ∈ newDepIds w)) as [Hi|Hi].
  { rewrite (Hsame Hi) in Hx. by apply (Hwf x). }
  destruct (Hnew Hi) as (Hthis & Hother & _).
  destruct (decide (x = this)) as [->|Hne].
  2:{ rewrite (Hother _ Hne) in Hx. by apply (Hwf x). }
  rewrite Hthis in Hx. injection Hx as <-.
  destruct (Hwf _ _ Hw) as (Hd1 & Hd2 & Hcov).
  unfold edges_wf. simpl. split; [done|].
  rewrite ids_of_app.
  assert (ids_of W [dep] = [dep_id D]) as ->.
  { unfold ids_of, depId. csimpl. by rewrite Hd. }
  split.
  - apply NoDup_app. split; [done|]. split; [|apply NoDup_singleton].
    intros i Hin Hi'. apply list_elem_of_singleton in Hi'. subst i.
    by apply Hi, Hcov.
  - intros i [Hin|Hin]%elem_of_app; [apply Hcov in Hin; set_solver|].
    apply list_elem_of_singleton in Hin. set_solver.
Qed.

Lemma cleanupDeps_world_wf this W : world_wf W → world_wf (cleanupDeps this W).
Proof.
  intros Hwf x wx Hx.
  apply (edges_wf_ext W); [intros d; apply depId_cleanupDeps|].
  destruct (watchers W !! this) as [w|] eqn:Hw.
  2:{ unfold cleanupDeps in Hx. rewrite Hw in Hx. by apply (Hwf x). }
  unfold cleanupDeps in Hx. rewrite Hw in Hx.
  cbn [upd_watcher set_watchers watchers] in Hx.
  rewrite (cleanupDeps_loop_unsubscribe this w _ W Hw), watchers_unsubscribe in Hx.
  destruct (decide (x = this)) as [->|Hne].
  2:{ rewrite !lookup_alter_ne in Hx by done. by apply (Hwf x). }
  rewrite !lookup_alter_eq, Hw in Hx. injection Hx as <-.
  destruct (Hwf _ _ Hw) as (Hd1 & Hd2 & Hcov).
  unfold edges_wf. simpl. split; [done|]. split; [apply NoDup_nil_2|].
  intros i Hi. by apply elem_of_nil in Hi.
Qed.

Lemma teardown_world_wf this W : world_wf W → world_wf (teardown this W).
Proof.
  intros Hwf x wx Hx.
  apply (edges_wf_ext W); [intros d; apply depId_teardown|].
  unfold teardown in Hx.
  destruct (watchers W !! this) as [w|] eqn:Hw; [|by apply (Hwf x)].
  destruct (active w); [|by apply (Hwf x)].
  revert Hx.
  set (W1 := match vms W !! vm w with Some _ => _ | None => _ end).
  assert (watchers W1 = watchers W) as Hw1.
  { unfold W1. repeat case_match; done. }
  rewrite (teardown_loop_unsubscribe this w _ W1) by (by rewrite Hw1).
  cbn [upd_watcher set_watchers watchers]. rewrite watchers_unsubscribe, Hw1.
  destruct (decide (x = this)) as [->|Hne].
  - rewrite lookup_alter_eq, Hw. intros [= <-]. exact (Hwf this w Hw).
  - rewrite lookup_alter_ne by done. by apply (Hwf x).
Qed.

Lemma upd_watcher_world_wf this (f : Watcher → Watcher) W :
  (∀ w, deps (f w) = deps w ∧ newDeps (f w) = newDeps w ∧ newDepIds (f w) = newDepIds w) →
  world_wf W → world_wf (upd_watcher this f W).
Proof.
  intros Hf Hwf x wx. cbn [upd_watcher set_watchers watchers].
  destruct (decide (x = this)) as [->|Hne].
  - rewrite lookup_alter_eq. destruct (watchers W !! this) as [w|] eqn:Hw; [|done].
    intros [= <-]. destruct (Hf w) as (H1 & H2 & H3). unfold edges_wf.
    rewrite H1, H2, H3. exact (Hwf this w Hw).
  - rewrite lookup_alter_ne by done. apply (Hwf x).
Qed.

Lemma engine_step_world_wf W W' : engine_step W W' → world_wf W → world_wf W'.
Proof.
  destruct 1 as [this dep W|this W|dep W|this W|this W|W|this W|e W|f W
                |this v W|this b W]; intros Hwf.
  - by apply addDep_world_wf.
  - by apply cleanupDeps_world_wf.
  - unfold Dep_depend. case_match; [by apply addDep_world_wf | done].
  - by apply teardown_world_wf.
  - done.
  - done.
  - unfold queueWatcher. by case_match.
  - done.
  - done.
  - by apply upd_watcher_world_wf.
  - by apply upd_watcher_world_wf.
Qed.

Lemma engine_steps_world_wf W W' : rtc engine_step W W' → world_wf W → world_wf W'.
Proof.
  induction 1 as [|W1 W2 W3 Hstep _ IH]; [done|].
  intros Hwf. apply IH. by apply (engine_step_world_wf W1).
Qed.



(** ** Teardown *)

Lemma teardown_active this W w :
  watchers W !! this = Some w → active w = true →
  teardown this W
  = upd_watcher this (set_active false)
      (unsubscribe this (deps w)
         match vms W !! vm w with
         | Some c =>
             if _isBeingDestroyed c then W
             else set_vms (alter (λ c, mkComponent (remove (_watchers c) this)
                                                   (_isBeingDestroyed c)) (vm w)) W
         | None => W
         end).
Proof.
  intros Hw Ha. unfold teardown. rewrite Hw, Ha.
  set (W1 := match vms W !! vm w with Some _ => _ | None => _ end).
  assert (watchers W1 = watchers W) as Hw1.
  { unfold W1. repeat case_match; done. }
  rewrite (teardown_loop_unsubscribe this w _ W1) by (by rewrite Hw1).
  by rewrite firstn_all.
Qed.

(** C9: a second [teardown] changes nothing.  The first one, on an active
    subscriber, calls [removeSub] on each publisher of [deps] (so that none
    of them lists the subscriber any more), takes the subscriber off its
    component's list unless the component is being destroyed, and sets
    [active = false]. *)
Theorem teardown_idempotent (this : wref) (W : World) :
  teardown this (teardown this W) = teardown this W ∧
  (∀ w, watchers W !! this = Some w → active w = true →
     watchers (teardown this W) !! this = Some (set_active false w) ∧
     (∀ c, vms W !! vm w = Some c →
        vms (teardown this W) !! vm w
        = Some (if _isBeingDestroyed c then c
                else mkComponent (remove (_watchers c) this) false)) ∧
     (NoDup (deps w) →
      ∀ d D, depHeap W !! d = Some D →
        depHeap (teardown this W) !! d
        = Some (if decide (d ∈ deps w)
                then mkDep (dep_id D) (remove (subs D) this)
                else D) ∧
        (d ∈ deps w → NoDup (subs D) →
         ∃ D', depHeap (teardown this W) !! d = Some D' ∧ this ∉ subs D'))).
Proof.
  assert (∀ w, watchers W !! this = Some w → active w = true →
            watchers (teardown this W) !! this = Some (set_active false w)) as Hoff.
  { intros w Hw Ha. rewrite (teardown_active _ _ _ Hw Ha).
    cbn [upd_watcher set_watchers watchers].
    rewrite lookup_alter_eq, watchers_unsubscribe.
    assert (∀ W1, watchers W1 = watchers W → watchers W1 !! this = Some w) as Hk.
    { by intros W1 ->. }
    rewrite (Hk _); [done|]. repeat case_match; done. }
  split.
  - destruct (watchers W !! this) as [w|] eqn:Hw.
    2:{ assert (teardown this W = W) as ->; unfold teardown; by rewrite Hw. }
    destruct (active w) eqn:Ha.
    2:{ assert (teardown this W = W) as ->; unfold teardown; by rewrite Hw, Ha. }
    unfold teardown at 1. by rewrite (Hoff w eq_refl Ha).
  - intros w Hw Ha. split; [by apply Hoff|].
    rewrite (teardown_active _ _ _ Hw Ha). split.
    + intros c Hc. rewrite Hc. cbn [upd_watcher set_watchers vms].
      assert (∀ l W1, vms (unsubscribe this l W1) = vms W1) as Hv.
      { intros l W1. induction l; simpl; done. }
      rewrite Hv. destruct (_isBeingDestroyed c) eqn:Hb; [done|].
      cbn [set_vms vms]. by rewrite lookup_alter_eq, Hc, <- Hb.
    + intros Hnd d D Hd.
      assert (depHeap (upd_watcher this (set_active false)
                (unsubscribe this (deps w)
                   match vms W !! vm w with
                   | Some c =>
                       if _isBeingDestroyed c then W
                       else set_vms (alter (λ c, mkComponent (remove (_watchers c) this)
                                                   (_isBeingDestroyed c)) (vm w)) W
                   | None => W
                   end)) !! d
              = Some (if decide (d ∈ deps w)
                      then mkDep (dep_id D) (remove (subs D) this) else D)) as Hreg.
      { cbn [upd_watcher set_watchers depHeap].
        rewrite unsubscribe_lookup by done.
        assert (∀ W1, depHeap W1 = depHeap W → depHeap W1 !! d = Some D) as Hk.
        { by intros W1 ->. }
        rewrite (Hk _) by (repeat case_match; done).
        by destruct (decide (d ∈ deps w)). }
      split; [exact Hreg|]. intros Hin HndS. eexists. split; [exact Hreg|].
      rewrite decide_True by done. simpl. by apply remove_not_elem.
Qed.

(** [teardown_idempotent] on the subscriber of [diff_world], which holds
    edges to publishers 0 and 1. *)
Lemma teardown_idempotent_witness :
  teardown 0 (teardown 0 diff_world) = teardown 0 diff_world ∧
  watchers (teardown 0 diff_world) !! 0 = Some (set_active false diff_watcher) ∧
  depHeap (teardown 0 diff_world) = {[0 := mkDep 10 []; 1 := mkDep 11 []]} ∧
  vms (teardown 0 diff_world) !! 0 = Some (mkComponent [] false).
Proof.
  split; [exact (proj1 (teardown_idempotent 0 diff_world))|].
  split; [exact (proj1 (proj2 (teardown_idempotent 0 diff_world)
                                diff_watcher eq_refl eq_refl))|].
  split; reflexivity.
Defined.

(** ** Deep traversal *)

Lemma _traverse_S fuel val W :
  _traverse (S fuel) val W
  = match val with
    | VRef o =>
        match objs W !! o with
        | Some ob =>
            if isExtensible ob then
              match ob_depId ob with
              | Some d =>
                  if decide (d ∈ seenObjects W) then Some W
                  else traverse_children (_traverse fuel) o (length (props ob))
                         (set_seenObjects (λ s, {[d]} ∪ s) W)
              | None => traverse_children (_traverse fuel) o (length (props ob)) W
              end
            else Some W
        | None => Some W
        end
    | _ => Some W
    end.
Proof.
  destruct val as [| | | | |o]; try reflexivity.
  cbn [_traverse]. unfold Array_isArray, Object_isExtensible. cbn [isObject].
  destruct (objs W !! o) as [ob|]; [|by rewrite andb_false_r].
  destruct (isArray ob), (isExtensible ob); cbn [negb andb orb]; try reflexivity.
Qed.

Lemma addDep_objs this dep W :
  objs (addDep this dep W) = objs W ∧
  seenObjects (addDep this dep W) = seenObjects W ∧
  trace (addDep this dep W) = trace W.
Proof. unfold addDep. repeat case_match; done. Qed.

(** A property read returns the stored value and logs the touch; it does
    not change the object graph or the seen set. *)
Lemma readProp_spec o i W ob p :
  objs W !! o = Some ob → props ob !! i = Some p →
  (readProp o i W).1 = pval p ∧
  objs (readProp o i W).2 = objs W ∧
  seenObjects (readProp o i W).2 = seenObjects W ∧
  trace (readProp o i W).2 = trace W ++ [EvTouch o i].
Proof.
  intros Ho Hp. unfold readProp. rewrite Ho, Hp. cbn [fst snd].
  split; [done|]. destruct (pdep p) as [d|]; [|done].
  unfold Dep_depend. destruct (Dep_target _) as [t|]; [|done].
  destruct (addDep_objs t d (emit (EvTouch o i) W)) as (-> & -> & ->). done.
Qed.

(** The loop over the properties of [o]: an invariant [I i] of the last
    [i] iterations holds if each iteration, a read followed by the
    recursive call, extends it. *)
Lemma traverse_children_inv (I : nat → World → World → Prop) rec o ob h :
  (∀ v W W', rec v W = Some W' → objs W' = objs W) →
  (∀ W, objs W = h → I 0 W W) →
  (∀ i p W W2 W', objs W = h → props ob !! i = Some p →
     rec (pval p) (readProp o i W).2 = Some W2 → objs W2 = h →
     I i W2 W' → I (S i) W W') →
  h !! o = Some ob →
  ∀ i W W', i ≤ length (props ob) → objs W = h →
    traverse_children rec o i W = Some W' → I i W W'.
Proof.
  intros Hobjs Hzero Hstep Ho.
  induction i as [|i IH]; intros W W' Hi HW; cbn [traverse_children].
  - intros [= <-]. by apply Hzero.
  - destruct (lookup_lt_is_Some_2 (props ob) i) as [p Hp]; [lia|].
    assert (objs W !! o = Some ob) as Ho' by (by rewrite HW).
    destruct (readProp_spec o i W ob p Ho' Hp) as (Hv & H1 & _).
    pose proof (Hstep i p W) as Hstep'.
    destruct (readProp o i W) as [v W1]. cbn [fst snd] in *. subst v.
    destruct (rec (pval p) W1) as [W2|] eqn:Hrec; [|done]. intros Hl.
    assert (objs W2 = h) as HW2 by (rewrite (Hobjs _ _ _ Hrec); congruence).
    apply (Hstep' W2 W' HW Hp eq_refl HW2). apply IH; [lia|done|done].
Qed.

Lemma extends_refl W : extends W W.
Proof. split; [done|]. split; [done|]. exists []. by rewrite app_nil_r. Qed.

Lemma extends_trans W1 W2 W3 : extends W1 W2 → extends W2 W3 → extends W1 W3.
Proof.
  intros (Ho1 & Hs1 & T1 & Ht1) (Ho2 & Hs2 & T2 & Ht2).
  split; [congruence|]. split; [set_solver|].
  exists (T1 ++ T2). by rewrite Ht2, Ht1, app_assoc.
Qed.

Lemma extends_readProp o i W ob p :
  objs W !! o = Some ob → props ob !! i = Some p → extends W (readProp o i W).2.
Proof.
  intros Ho Hp. destruct (readProp_spec o i W ob p Ho Hp) as (_ & H1 & H2 & H3).
  split; [done|]. split; [by rewrite H2|]. by exists [EvTouch o i].
Qed.

Lemma extends_mark d W : extends W (set_seenObjects (λ s, {[d]} ∪ s) W).
Proof.
  split; [done|]. split; [simpl; set_solver|]. exists []. simpl. by rewrite app_nil_r.
Qed.

(** The frame of a property loop whose recursive calls extend the world. *)
Lemma traverse_children_extends rec o ob :
  (∀ v W W', rec v W = Some W' → extends W W') →
  ∀ i W W', objs W !! o = Some ob → i ≤ length (props ob) →
    traverse_children rec o i W = Some W' → extends W W'.
Proof.
  intros Hrec i W W' Ho Hi.
  apply (traverse_children_inv (λ _, extends) rec o ob (objs W)); try done.
  - intros v W1 W2 Hv. by destruct (Hrec _ _ _ Hv).
  - intros W1 _. apply extends_refl.
  - intros j p W1 W2 W3 HW1 Hp Hv _ H23.
    apply (extends_trans _ (readProp o j W1).2).
    { apply (extends_readProp o j W1 ob p); [by rewrite HW1|done]. }
    apply (extends_trans _ W2); [by apply Hrec in Hv|done].
Qed.

Lemma _traverse_extends fuel :
  ∀ val W W', _traverse fuel val W = Some W' → extends W W'.
Proof.
  induction fuel as [|fuel IH]; intros val W W'; [done|].
  rewrite _traverse_S.
  destruct val as [| | | | |o]; try (intros [= <-]; apply extends_refl).
  destruct (objs W !! o) as [ob|] eqn:Ho; [|intros [= <-]; apply extends_refl].
  destruct (isExtensible ob); [|intros [= <-]; apply extends_refl].
  destruct (ob_depId ob) as [d|].
  - destruct (decide (d ∈ seenObjects W)); [intros [= <-]; apply extends_refl|].
    intros Hl. apply (extends_trans _ _ _ (extends_mark d W)).
    by apply (traverse_children_extends _ o ob IH) in Hl.
  - intros Hl. by apply (traverse_children_extends _ o ob IH) in Hl.
Qed.

Lemma marker_ids_elem (h : gmap oref Obj) o ob d :
  h !! o = Some ob → ob_depId ob = Some d → d ∈ marker_ids h.
Proof.
  intros Ho Hd. unfold marker_ids. rewrite elem_of_list_to_set, list_elem_of_omap.
  exists (o, ob). split; [by apply elem_of_map_to_list|done].
Qed.

Lemma unseen_mono (M S S' : gset nat) : S ⊆ S' → size (M ∖ S') ≤ size (M ∖ S).
Proof. intros Hs. apply subseteq_size. set_solver. Qed.

Lemma unseen_mark (M S : gset nat) d :
  d ∈ M → d ∉ S → size (M ∖ ({[d]} ∪ S)) < size (M ∖ S).
Proof.
  intros Hd Hn. apply subset_size. split; [set_solver|].
  intros Hsub. assert (d ∈ M ∖ ({[d]} ∪ S)) by set_solver. set_solver.
Qed.

(** *** Each marked composite is walked at most once *)

Lemma touches_app o k (T1 T2 : list Event) :
  touches o k (T1 ++ T2) = touches o k T1 + touches o k T2.
Proof. unfold touches. by rewrite filter_app, length_app. Qed.

Lemma touches_one o k o' i :
  touches o k [EvTouch o' i] = if decide (o' = o ∧ i = k) then 1 else 0.
Proof.
  unfold touches. destruct (decide (o' = o ∧ i = k)) as [[-> ->]|Hne].
  - by rewrite filter_cons_True.
  - rewrite filter_cons_False; [done|]. intros [= -> ->]. by apply Hne.
Qed.

Lemma touches_pos_elem o k (T : list Event) : 0 < touches o k T → EvTouch o k ∈ T.
Proof.
  unfold touches. intros Hl.
  destruct (filter (λ e, e = EvTouch o k) T) as [|e l] eqn:Hf; [simpl in Hl; lia|].
  assert (e ∈ filter (λ e, e = EvTouch o k) T) as He by (rewrite Hf; set_solver).
  apply list_elem_of_filter in He as [-> He]. done.
Qed.

Lemma reads_once_refl o k d n W : reads_once o k d n W W.
Proof.
  split; [apply extends_refl|]. exists []. split; [by rewrite app_nil_r|].
  rewrite decide_False; [done|]. tauto.
Qed.

Lemma reads_once_trans o k d n W1 W2 W3 :
  reads_once o k d n W1 W2 → reads_once o k d n W2 W3 → reads_once o k d n W1 W3.
Proof.
  intros [He1 (T1 & Ht1 & Hc1)] [He2 (T2 & Ht2 & Hc2)].
  split; [by apply (extends_trans _ W2)|].
  exists (T1 ++ T2). split; [by rewrite Ht2, Ht1, app_assoc|].
  rewrite touches_app, Hc1, Hc2.
  destruct He1 as (_ & Hs1 & _), He2 as (_ & Hs2 & _).
  repeat case_decide; try done; exfalso; set_solver.
Qed.

Lemma reads_once_readProp o k d n o' i W ob' p :
  o' ≠ o → objs W !! o' = Some ob' → props ob' !! i = Some p →
  reads_once o k d n W (readProp o' i W).2.
Proof.
  intros Hne Ho Hp. split; [by apply (extends_readProp o' i W ob' p)|].
  destruct (readProp_spec o' i W ob' p Ho Hp) as (_ & _ & Hs & Ht).
  exists [EvTouch o' i]. split; [done|].
  rewrite touches_one, Hs. rewrite decide_False by tauto. rewrite decide_False; [done|tauto].
Qed.

Lemma reads_once_mark o k d n d' W :
  d' ≠ d → reads_once o k d n W (set_seenObjects (λ s, {[d']} ∪ s) W).
Proof.
  intros Hne. split; [apply extends_mark|]. exists []. split; [simpl; by rewrite app_nil_r|].
  rewrite decide_False; [done|]. simpl. set_solver.
Qed.

Section Reads_once.
Variables (h : gmap oref Obj) (o : oref) (ob : Obj) (d k : nat).
Hypothesis Ho : h !! o = Some ob.
Hypothesis Hd : ob_depId ob = Some d.
Hypothesis Huniq : ∀ o' ob', h !! o' = Some ob' → ob_depId ob' = Some d → o' = o.

(** The loop over another composite. *)
Lemma traverse_children_other fuel o' ob' :
  (∀ val W W', objs W = h → _traverse fuel val W = Some W' → reads_once o k d (in_range k ob) W W') →
  o' ≠ o → h !! o' = Some ob' →
  ∀ i W W', i ≤ length (props ob') → objs W = h →
    traverse_children (_traverse fuel) o' i W = Some W' → reads_once o k d (in_range k ob) W W'.
Proof.
  intros IH Hne Ho'.
  apply (traverse_children_inv (λ _, reads_once o k d (in_range k ob)) _ o' ob' h); try done.
  - intros v W W' Hv. by destruct (_traverse_extends _ _ _ _ Hv).
  - intros W _. apply reads_once_refl.
  - intros i p W W2 W' HW Hp Hrec HW2 Hrest.
    apply (reads_once_trans _ _ _ _ _ (readProp o' i W).2).
    { apply (reads_once_readProp _ _ _ _ _ _ _ ob' p); [done|by rewrite HW|done]. }
    apply (reads_once_trans _ _ _ _ _ W2); [|done].
    refine (IH (pval p) _ _ _ Hrec).
    destruct (extends_readProp o' i W ob' p) as [-> _]; [by rewrite HW|done|done].
Qed.

(** The loop over the composite itself, once its id is recorded: each of
    the last [i] properties is read once. *)
Lemma traverse_children_own fuel :
  (∀ val W W', objs W = h → _traverse fuel val W = Some W' → reads_once o k d (in_range k ob) W W') →
  ∀ i W W', i ≤ length (props ob) → objs W = h →
    traverse_children (_traverse fuel) o i W = Some W' →
    d ∈ seenObjects W →
    extends W W' ∧
    ∃ T, trace W' = trace W ++ T ∧ touches o k T = if decide (k < i) then 1 else 0.
Proof.
  intros IH.
  apply (traverse_children_inv
           (λ i W W', d ∈ seenObjects W → extends W W' ∧
              ∃ T, trace W' = trace W ++ T ∧
                   touches o k T = if decide (k < i) then 1 else 0) _ o ob h);
    try done.
  - intros v W W' Hv. by destruct (_traverse_extends _ _ _ _ Hv).
  - intros W _ _. split; [apply extends_refl|]. exists [].
    split; [by rewrite app_nil_r|]. rewrite decide_False; [done|lia].
  - intros i p W W2 W' HW Hp Hrec HW2 Hrest Hin.
    assert (objs W !! o = Some ob) as Ho' by (by rewrite HW).
    destruct (readProp_spec o i W ob p Ho' Hp) as (_ & H1 & H2 & H3).
    destruct (IH _ _ _ (eq_trans H1 HW) Hrec) as [He2 (T2 & Ht2 & Hc2)].
    rewrite decide_False in Hc2 by (rewrite H2; tauto).
    destruct He2 as (He2o & He2s & He2t).
    destruct Hrest as [He3 (T3 & Ht3 & Hc3)]; [rewrite H2 in He2s; set_solver|].
    split.
    { apply (extends_trans _ (readProp o i W).2);
        [by apply (extends_readProp o i W ob p)|].
      by apply (extends_trans _ W2). }
    exists ([EvTouch o i] ++ T2 ++ T3). split.
    { by rewrite Ht3, Ht2, H3, <- !app_assoc. }
    rewrite !touches_app, touches_one, Hc2, Hc3.
    repeat case_decide; try done; exfalso; lia.
Qed.

Lemma _traverse_reads_once fuel :
  ∀ val W W', objs W = h → _traverse fuel val W = Some W' → reads_once o k d (in_range k ob) W W'.
Proof.
  induction fuel as [|fuel IH]; intros val W W' HW; [done|].
  rewrite _traverse_S.
  destruct val as [| | | | |o']; try (intros [= <-]; apply reads_once_refl).
  destruct (objs W !! o') as [ob'|] eqn:Ho'; [|intros [= <-]; apply reads_once_refl].
  destruct (isExtensible ob'); [|intros [= <-]; apply reads_once_refl].
  rewrite HW in Ho'.
  destruct (decide (o' = o)) as [->|Hne].
  - assert (ob' = ob) as -> by congruence. rewrite Hd.
    destruct (decide (d ∈ seenObjects W)) as [|Hout];
      [intros [= <-]; apply reads_once_refl|].
    intros Hl.
    apply (traverse_children_own fuel IH) in Hl as [He (T & Ht & Hc)];
      [|done|done|simpl; set_solver].
    split; [by apply (extends_trans _ _ _ (extends_mark d W))|].
    exists T. split; [done|]. rewrite Hc.
    destruct He as (_ & Hs & _).
    destruct (decide ((d ∉ seenObjects W) ∧ (d ∈ seenObjects W'))) as [|Hn]; [done|].
    exfalso. apply Hn. split; [done|]. simpl in Hs. set_solver.
  - destruct (ob_depId ob') as [d'|] eqn:Hd'.
    + destruct (decide (d' ∈ seenObjects W));
        [intros [= <-]; apply reads_once_refl|].
      intros Hl.
      apply (reads_once_trans _ _ _ _ _ (set_seenObjects (λ s, {[d']} ∪ s) W)).
      { apply reads_once_mark. intros ->. by apply Hne, (Huniq o' ob'). }
      by apply (traverse_children_other fuel o' ob' IH Hne Ho') in Hl.
    + intros Hl. by apply (traverse_children_other fuel o' ob' IH Hne Ho') in Hl.
Qed.
End Reads_once.

(** *** Everything reached is walked *)

Lemma entered_mono h (S S' : gset nat) (T T' : list Event) val :
  entered h S T val → S ⊆ S' → (∀ e, e ∈ T → e ∈ T') → entered h S' T' val.
Proof.
  intros He HS HT c cb Hv Hc Hx. specialize (He c cb Hv Hc Hx).
  destruct (ob_depId cb); [set_solver|]. intros j Hj. by apply HT, He.
Qed.

Lemma closed_nil h (S : gset nat) : closed h S [].
Proof. intros o i ob p Hin. by apply elem_of_nil in Hin. Qed.

Lemma traverse_children_walked h fuel o ob :
  (∀ val W W', objs W = h → _traverse fuel val W = Some W' → walked h val W W') →
  h !! o = Some ob →
  ∀ i W W', i ≤ length (props ob) → objs W = h →
    traverse_children (_traverse fuel) o i W = Some W' →
    extends W W' ∧
    ∃ T, trace W' = trace W ++ T ∧
         closed h (seenObjects W') T ∧
         ∀ j, j < i → EvTouch o j ∈ T.
Proof.
  intros IH Ho.
  apply (traverse_children_inv
           (λ i W W', extends W W' ∧
              ∃ T, trace W' = trace W ++ T ∧
                   closed h (seenObjects W') T ∧
                   ∀ j, j < i → EvTouch o j ∈ T) _ o ob h); try done.
  - intros v W W' Hv. by destruct (_traverse_extends _ _ _ _ Hv).
  - intros W _. split; [apply extends_refl|]. exists [].
    split; [by rewrite app_nil_r|]. split; [apply closed_nil|]. intros j Hj. lia.
  - intros i p W W2 W' HW Hp Hrec HW2 [He3 (T3 & Ht3 & Hc3 & Hall)].
    assert (objs W !! o = Some ob) as Ho' by (by rewrite HW).
    destruct (readProp_spec o i W ob p Ho' Hp) as (_ & H1 & H2 & H3).
    destruct (IH _ _ _ (eq_trans H1 HW) Hrec) as [He2 (T2 & Ht2 & Hen2 & Hc2)].
    split.
    { apply (extends_trans _ (readProp o i W).2);
        [by apply (extends_readProp o i W ob p)|].
      by apply (extends_trans _ W2). }
    exists ([EvTouch o i] ++ T2 ++ T3). split.
    { by rewrite Ht3, Ht2, H3, <- !app_assoc. }
    destruct He3 as (_ & Hs3 & _). split.
    + destruct He2 as (_ & Hs2 & _).
      intros o' i' ob' p' Hin Ho2 Hp2.
      apply elem_of_app in Hin as [Hin|Hin].
      * apply list_elem_of_singleton in Hin.
        injection Hin as -> ->. assert (ob' = ob) as -> by congruence.
        assert (p' = p) as -> by congruence.
        apply (entered_mono _ _ _ _ _ _ Hen2); set_solver.
      * apply elem_of_app in Hin as [Hin|Hin].
        -- apply (entered_mono h (seenObjects W2) _ T2);
             [by apply (Hc2 o' i' ob' p')|done|set_solver].
        -- apply (entered_mono h (seenObjects W') _ T3);
             [by apply (Hc3 o' i' ob' p')|done|set_solver].
    + intros j Hj. destruct (decide (j = i)) as [->|]; [set_solver|].
      assert (EvTouch o j ∈ T3) by (apply Hall; lia). set_solver.
Qed.

Lemma _traverse_walked h fuel :
  ∀ val W W', objs W = h → _traverse fuel val W = Some W' → walked h val W W'.
Proof.
  assert (∀ val W, (∀ c cb, val = VRef c → h !! c = Some cb → isExtensible cb = true →
                      ∃ d, ob_depId cb = Some d ∧ d ∈ seenObjects W) →
            walked h val W W) as Hskip.
  { intros val W Hv. split; [apply extends_refl|]. exists [].
    split; [by rewrite app_nil_r|]. split; [|apply closed_nil].
    intros c cb Hc Hcb Hx. destruct (Hv c cb Hc Hcb Hx) as (d & -> & Hin). done. }
  induction fuel as [|fuel IH]; intros val W W' HW; [done|].
  rewrite _traverse_S.
  destruct val as [| | | | |o]; try (intros [= <-]; by apply Hskip).
  destruct (objs W !! o) as [ob|] eqn:Ho.
  2:{ intros [= <-]. apply Hskip. intros c cb [= <-] Hcb. congruence. }
  rewrite HW in Ho.
  destruct (isExtensible ob) eqn:Hx.
  2:{ intros [= <-]. apply Hskip. intros c cb [= <-] Hcb. congruence. }
  destruct (ob_depId ob) as [d|] eqn:Hd.
  - destruct (decide (d ∈ seenObjects W)).
    { intros [= <-]. apply Hskip. intros c cb [= <-] Hcb _.
      assert (cb = ob) as -> by congruence. by exists d. }
    intros Hl.
    apply (traverse_children_walked h fuel o ob IH Ho) in Hl
      as [He (T & Ht & Hc & _)]; [|done|done].
    split; [by apply (extends_trans _ _ _ (extends_mark d W))|].
    exists T. split; [done|]. split; [|done].
    intros c cb [= <-] Hcb _. assert (cb = ob) as -> by congruence. rewrite Hd.
    destruct He as (_ & Hs & _). simpl in Hs. set_solver.
  - intros Hl.
    apply (traverse_children_walked h fuel o ob IH Ho) in Hl
      as [He (T & Ht & Hc & Hall)]; [|done|done].
    split; [done|]. exists T. split; [done|]. split; [|done].
    intros c cb [= <-] Hcb _. assert (cb = ob) as -> by congruence. by rewrite Hd.
Qed.

Lemma elem_touches_pos o k (T : list Event) : EvTouch o k ∈ T → 0 < touches o k T.
Proof.
  intros Hin. unfold touches.
  assert (EvTouch o k ∈ filter (λ e, e = EvTouch o k) T) as Hf.
  { by apply list_elem_of_filter. }
  destruct (filter (λ e, e = EvTouch o k) T); [by apply elem_of_nil in Hf|simpl; lia].
Qed.

(** *** The walk returns *)

Lemma traverse_children_terminates rec o ob h (S0 : gset nat) :
  (∀ v W W', rec v W = Some W' → extends W W') →
  (∀ p W, p ∈ props ob → objs W = h → S0 ⊆ seenObjects W →
          is_Some (rec (pval p) W)) →
  h !! o = Some ob →
  ∀ i W, i ≤ length (props ob) → objs W = h → S0 ⊆ seenObjects W →
    is_Some (traverse_children rec o i W).
Proof.
  intros Hext Hrec Ho. induction i as [|i IHi]; intros W Hi HW HS;
    cbn [traverse_children]; [done|].
  destruct (lookup_lt_is_Some_2 (props ob) i) as [p Hp]; [lia|].
  assert (objs W !! o = Some ob) as Ho' by (by rewrite HW).
  destruct (readProp_spec o i W ob p Ho' Hp) as (Hv & H1 & H2 & _).
  destruct (readProp o i W) as [v W1]. cbn [fst snd] in *. subst v.
  destruct (Hrec p W1) as [W2 Hcall];
    [by apply list_elem_of_lookup_2 in Hp|congruence|by rewrite H2|].
  rewrite Hcall. destruct (Hext _ _ _ Hcall) as (H3 & H4 & _).
  apply IHi; [lia|congruence|]. rewrite H2 in H4. set_solver.
Qed.

Lemma ancestors_bound (h : gmap oref Obj) (anc : list oref) :
  NoDup anc → (∀ a, a ∈ anc → a ∈ dom h) → length anc ≤ size (dom h).
Proof.
  intros Hnd Hsub. rewrite <- (size_list_to_set (C := gset nat) anc Hnd).
  apply subseteq_size. set_solver.
Qed.

Section Termination.
Variables (h : gmap oref Obj) (val0 : Value).
Hypothesis Hguard : marker_guarded h val0.

(** [anc] lists the unmarked composites being walked since the last
    marked one; no composite is twice among them, which bounds the depth
    of the walk between two marked composites by the size of the heap. *)
Lemma _traverse_terminates :
  ∀ fuel val W (anc : list oref),
    objs W = h →
    (∀ o, val = VRef o → reach h val0 o) →
    NoDup anc → (∀ a, a ∈ anc → a ∈ dom h) →
    (∀ o ob, val = VRef o → h !! o = Some ob → isExtensible ob = true →
       ob_depId ob = None → ∀ a, a ∈ anc → tc (plain_ref h) a o) →
    size (marker_ids h ∖ seenObjects W) * (size (dom h) + 2)
      + (size (dom h) - length anc) + 1 ≤ fuel →
    is_Some (_traverse fuel val W).
Proof.
  induction fuel as [|fuel IH]; intros val W anc HW Hreach Hnd Hdom Htc Hfuel;
    [lia|].
  rewrite _traverse_S.
  destruct val as [| | | | |o]; try done.
  destruct (objs W !! o) as [ob|] eqn:Ho; [|done].
  destruct (isExtensible ob) eqn:Hx; [|done].
  rewrite HW in Ho.
  assert (∀ p c, p ∈ props ob → pval p = VRef c → reach h val0 c) as Hchild.
  { intros p c Hp Hc. by apply (reach_child h val0 o ob p c); [apply Hreach|..]. }
  destruct (ob_depId ob) as [d|] eqn:Hd.
  - destruct (decide (d ∈ seenObjects W)) as [|Hout]; [done|].
    apply (traverse_children_terminates _ o ob h ({[d]} ∪ seenObjects W));
      try done.
    { apply _traverse_extends. }
    intros p W1 Hp HW1 HS. apply (IH (pval p) W1 []); try done.
    + intros c Hc. by apply (Hchild p c).
    + apply NoDup_nil_2.
    + intros a Ha. by apply elem_of_nil in Ha.
    + intros c cb _ _ _ _ a Ha. by apply elem_of_nil in Ha.
    + pose proof (unseen_mark _ _ _ (marker_ids_elem h o ob d Ho Hd) Hout).
      pose proof (unseen_mono (marker_ids h) _ _ HS). simpl. nia.
  - assert (o ∉ anc) as Hfresh.
    { intros Hin. apply (Hguard o (Hreach o eq_refl)).
      by apply (Htc o ob eq_refl Ho Hx Hd o Hin). }
    assert (length (o :: anc) ≤ size (dom h)) as Hlen.
    { apply ancestors_bound; [by apply NoDup_cons|].
      intros a [->|Ha]%elem_of_cons; [by apply elem_of_dom|by apply Hdom]. }
    apply (traverse_children_terminates _ o ob h (seenObjects W)); try done.
    { apply _traverse_extends. }
    intros p W1 Hp HW1 HS. apply (IH (pval p) W1 (o :: anc)); try done.
    + intros c Hc. by apply (Hchild p c).
    + by apply NoDup_cons.
    + intros a [->|Ha]%elem_of_cons; [by apply elem_of_dom|by apply Hdom].
    + intros c cb Hc Hcb Hcx Hcd a Ha.
      assert (plain_ref h o c) as Hedge by (by exists ob, p, cb).
      apply elem_of_cons in Ha as [->|Ha]; [by apply tc_once|].
      apply (tc_r a o c); [|done]. by apply (Htc o ob eq_refl Ho Hx Hd a Ha).
    + pose proof (unseen_mono (marker_ids h) _ _ HS). simpl in *. nia.
Qed.
End Termination.

(** C8: when every cycle the walk of [val] can run into passes through a
    marked composite (and no two composites share a marker id), a
    top-level deep traversal returns once it is given fuel for the depth
    bound.  The properties of a marked composite are read exactly once
    when its id has been recorded during the walk, and never otherwise;
    the id of every marked extensible composite the walk reaches is
    recorded, and every unmarked one is walked.  A marked composite whose
    id is in the seen set is pruned, a primitive or a non-extensible value
    ends the walk with no effect, and the seen set is emptied at the start
    of every top-level call. *)
Theorem traverse_cycle_safe (W : World) (val : Value) (fuel : nat) :
  marker_guarded (objs W) val →
  markers_unique (objs W) →
  size (marker_ids (objs W)) * (size (dom (objs W)) + 2)
    + size (dom (objs W)) + 1 ≤ fuel →
  (∃ W' T,
     traverse fuel val W = Some W' ∧
     objs W' = objs W ∧
     trace W' = trace W ++ T ∧
     (∀ o ob d k, objs W !! o = Some ob → ob_depId ob = Some d →
        touches o k T
        = if decide (d ∈ seenObjects W' ∧ k < length (props ob)) then 1 else 0) ∧
     (∀ o ob, reach (objs W) val o → objs W !! o = Some ob →
        isExtensible ob = true →
        match ob_depId ob with
        | Some d => d ∈ seenObjects W'
        | None => ∀ k, k < length (props ob) → 0 < touches o k T
        end)) ∧
  (∀ n o ob d W1,
     objs W1 !! o = Some ob → ob_depId ob = Some d → d ∈ seenObjects W1 →
     _traverse (S n) (VRef o) W1 = Some W1) ∧
  (∀ n v W1,
     isObject v = false ∨ Object_isExtensible W1 v = false →
     _traverse (S n) v W1 = Some W1) ∧
  (∀ n v W1, traverse n v W1 = _traverse n v (set_seenObjects (λ _, ∅) W1)).
Proof.
  intros Hg Hu Hfuel. split; [|split; [|split]].
  - set (W0 := set_seenObjects (λ _, ∅) W).
    destruct (_traverse_terminates (objs W) val Hg fuel val W0 []) as [W' Htr];
      try done.
    { intros o ->. by apply reach_root. }
    { apply NoDup_nil_2. }
    { intros a Ha. by apply elem_of_nil in Ha. }
    { intros o ob _ _ _ _ a Ha. by apply elem_of_nil in Ha. }
    { pose proof (subseteq_size (marker_ids (objs W) ∖ seenObjects W0)
                    (marker_ids (objs W))) as Hsz.
      assert (size (marker_ids (objs W) ∖ seenObjects W0) ≤ size (marker_ids (objs W)))
        by (apply Hsz; set_solver).
      simpl length. nia. }
    destruct (_traverse_walked (objs W) fuel val W0 W' eq_refl Htr)
      as [(Hobjs & _ & _) (T & Ht & Hen & Hcl)].
    assert (∀ o ob d k, objs W !! o = Some ob → ob_depId ob = Some d →
              touches o k T
              = if decide (d ∈ seenObjects W' ∧ k < length (props ob)) then 1 else 0)
      as Honce.
    { intros o ob d k Ho Hd.
      destruct (_traverse_reads_once (objs W) o ob d k Ho Hd) with fuel val W0 W'
        as [_ (T' & Ht' & Hc)]; try done.
      { intros o' ob' Ho' Hd'. by apply (Hu o' o ob' ob d). }
      assert (T' = T) as -> by (apply (app_inv_head (trace W0)); congruence).
      rewrite Hc. unfold in_range. simpl.
      repeat case_decide; try done; exfalso; set_solver. }
    exists W', T. split; [exact Htr|]. split; [exact Hobjs|]. split; [exact Ht|].
    split; [exact Honce|].
    assert (∀ o, reach (objs W) val o → entered (objs W) (seenObjects W') T (VRef o))
      as Hreach.
    { induction 1 as [o ->|o ob p c _ IH Ho Hx Hp Hc]; [done|].
      apply list_elem_of_lookup_1 in Hp as [i Hi].
      rewrite <- Hc. apply (Hcl o i ob p); [|done|done].
      specialize (IH o ob eq_refl Ho Hx).
      assert (i < length (props ob)) as Hlt by (by apply lookup_lt_Some in Hi).
      destruct (ob_depId ob) as [d|] eqn:Hd; [|by apply IH].
      apply touches_pos_elem. rewrite (Honce o ob d i Ho Hd).
      rewrite decide_True by done. lia. }
    intros o ob Ho' Hob Hx. specialize (Hreach o Ho' o ob eq_refl Hob Hx).
    destruct (ob_depId ob); [done|]. intros k Hk. by apply elem_touches_pos, Hreach.
  - intros n o ob d W1 Ho Hd Hin. rewrite _traverse_S, Ho, Hd.
    rewrite decide_True by done. by destruct (isExtensible ob).
  - intros n v W1 Hv. rewrite _traverse_S.
    destruct v as [| | | | |o]; try done.
    destruct Hv as [Hv|Hv]; [done|]. unfold Object_isExtensible in Hv.
    destruct (objs W1 !! o); [|done]. by rewrite Hv.
  - done.
Qed.

Lemma cyclic_objs_no_plain_ref o c : ¬ plain_ref cyclic_objs o c.
Proof.
  intros (ob & p & cb & Ho & _ & Hd & Hp & Hc & Hcb & _ & Hcd).
  unfold cyclic_objs in Ho.
  apply lookup_insert_Some in Ho as [[<- <-]|[Hne Ho]]; [discriminate Hd|].
  apply lookup_singleton_Some in Ho as [<- <-].
  apply elem_of_cons in Hp as [->|Hp].
  - injection Hc as <-. vm_compute in Hcb. injection Hcb as <-. discriminate Hcd.
  - apply list_elem_of_singleton in Hp as ->. discriminate Hc.
Qed.

Lemma cyclic_objs_marker_guarded : marker_guarded cyclic_objs (VRef 0).
Proof.
  intros o _ Htc.
  destruct Htc as [x y Hxy|x y z Hxy _]; by apply cyclic_objs_no_plain_ref in Hxy.
Qed.

Lemma cyclic_objs_markers_unique : markers_unique cyclic_objs.
Proof.
  intros o1 o2 ob1 ob2 d Ho1 Ho2 Hd1 Hd2. unfold cyclic_objs in Ho1, Ho2.
  apply lookup_insert_Some in Ho1 as [[<- <-]|[Hne1 Ho1]];
    apply lookup_insert_Some in Ho2 as [[<- <-]|[Hne2 Ho2]]; try done.
  - apply lookup_singleton_Some in Ho2 as [<- <-]. discriminate Hd2.
  - apply lookup_singleton_Some in Ho1 as [<- <-]. discriminate Hd1.
  - apply lookup_singleton_Some in Ho1 as [<- <-].
    by apply lookup_singleton_Some in Ho2 as [<- <-].
Qed.

(** [traverse_cycle_safe] on two composites that refer to each other, the
    first one marked: the walk returns, and the only property of the marked
    composite is read once. *)
Lemma traverse_cycle_safe_witness :
  ∃ W' T,
    traverse 7 (VRef 0) cyclic_world = Some W' ∧
    trace W' = trace cyclic_world ++ T ∧
    5 ∈ seenObjects W' ∧
    touches 0 0 T = 1.
Proof.
  destruct (proj1 (traverse_cycle_safe cyclic_world (VRef 0) 7
                     cyclic_objs_marker_guarded cyclic_objs_markers_unique
                     ltac:(vm_compute; lia)))
    as (W' & T & Htr & _ & Ht & Honce & Hreach).
  exists W', T. split; [exact Htr|]. split; [exact Ht|].
  pose proof (Hreach 0 _ (reach_root _ _ 0 eq_refl) eq_refl eq_refl) as Hin.
  split; [exact Hin|].
  rewrite (Honce 0 _ 5 0 eq_refl eq_refl).
  apply decide_True. split; [exact Hin|simpl; lia].
Defined.

(** ** Runs of the engine *)

Lemma readProp_steps o i W : rtc engine_step W (readProp o i W).2.
Proof.
  unfold readProp. destruct (objs W !! o) as [ob|]; [|done].
  destruct (props ob !! i) as [p|]; [|done]. cbn [snd].
  eapply rtc_l; [apply (step_emit (EvTouch o i))|].
  destruct (pdep p) as [d|]; [|done]. apply rtc_once, step_Dep_depend.
Qed.

Lemma _traverse_steps fuel :
  ∀ val W W', _traverse fuel val W = Some W' → rtc engine_step W W'.
Proof.
  induction fuel as [|fuel IH]; intros val W W'; [done|].
  rewrite _traverse_S.
  destruct val as [| | | | |o]; try (by intros [= <-]).
  destruct (objs W !! o) as [ob|] eqn:Ho; [|by intros [= <-]].
  destruct (isExtensible ob); [|by intros [= <-]].
  assert (∀ W0, objs W0 = objs W →
            traverse_children (_traverse fuel) o (length (props ob)) W0 = Some W' →
            rtc engine_step W0 W') as Hloop.
  { intros W0 HW0.
    apply (traverse_children_inv (λ _, rtc engine_step) _ o ob (objs W)); try done.
    - intros v W1 W2 Hv. by destruct (_traverse_extends _ _ _ _ Hv).
    - intros i p W1 W2 W3 _ _ Hv _ H23.
      etrans; [apply readProp_steps|]. etrans; [by apply IH in Hv|done]. }
  destruct (ob_depId ob) as [d|]; [|by apply Hloop].
  destruct (decide (d ∈ seenObjects W)); [by intros [= <-]|].
  intros Hl. eapply rtc_l; [apply step_seenObjects|]. by apply Hloop.
Qed.

Section Runs.
Variable H : Host.
Hypothesis Hhost : host_steps H.

Lemma get_steps fuel this W : rtc engine_step W (get H fuel this W).1.
Proof.
  unfold get. destruct (watchers W !! this) as [w|]; [|done].
  assert (rtc engine_step W (call_this_getter H w (pushTarget this W)).1) as Hg.
  { eapply rtc_l; [apply (step_pushTarget this)|]. unfold call_this_getter.
    destruct (getter w); [|done]. apply Hhost. }
  destruct (call_this_getter H w (pushTarget this W)) as [W2 [v|e|]]; try done.
  cbn [fst] in Hg.
  destruct (if match watchers W2 !! this with Some w2 => deep w2 | None => false end
            then traverse fuel v W2 else Some W2) as [W3|] eqn:Ht; [|done].
  cbn [fst]. etrans; [exact Hg|].
  assert (rtc engine_step W2 W3) as H23.
  { destruct (match watchers W2 !! this with Some w2 => deep w2 | None => false end).
    - unfold traverse in Ht. eapply rtc_l; [apply step_seenObjects|].
      by apply _traverse_steps in Ht.
    - by injection Ht as <-. }
  etrans; [exact H23|]. eapply rtc_l; [apply step_popTarget|].
  apply rtc_once, step_cleanupDeps.
Qed.

Lemma invoke_cb_steps w v oldValue W : rtc engine_step W (invoke_cb H w v oldValue W).1.
Proof.
  destruct Hhost as (_ & Hcb & Hh). unfold invoke_cb.
  destruct (user w); [|apply Hcb].
  pose proof (Hcb (cb w) (vm w) v oldValue W) as Hc.
  destruct (call_cb H (cb w) (vm w) v oldValue W) as [W1 [u|e|]]; try done.
  cbn [fst] in Hc. etrans; [exact Hc|].
  destruct (config_errorHandler W1) as [handler|]; [apply Hh|].
  cbn [fst]. destruct (production W1); [done|]. apply rtc_once, step_emit.
Qed.

Lemma run_steps fuel this W : rtc engine_step W (run H fuel this W).1.
Proof.
  unfold run. destruct (watchers W !! this) as [w|]; [|done].
  destruct (active w); [|done].
  pose proof (get_steps fuel this W) as Hg.
  destruct (get H fuel this W) as [W1 [v|e|]]; try done. cbn [fst] in Hg.
  destruct (watchers W1 !! this) as [w1|]; [|done].
  destruct (should_fire w1 v); [|done].
  etrans; [exact Hg|]. eapply rtc_l; [apply (step_set_value this v)|].
  apply invoke_cb_steps.
Qed.

Lemma update_steps fuel this W : rtc engine_step W (update H fuel this W).1.
Proof.
  unfold update. destruct (watchers W !! this) as [w|]; [|done].
  destruct (lazy w); [apply rtc_once, step_set_dirty|].
  destruct (sync w); [apply run_steps|]. apply rtc_once, step_queueWatcher.
Qed.

Lemma Dep_notify_steps fuel dep W : rtc engine_step W (Dep_notify H fuel dep W).1.
Proof.
  unfold Dep_notify. destruct (depHeap W !! dep) as [D|]; [|done].
  generalize (subs D). intros l. revert W.
  induction l as [|sub l IH]; intros W; [done|]. cbn [notify_loop].
  pose proof (update_steps fuel sub W) as Hu.
  destruct (update H fuel sub W) as [W1 [u|e|]]; try done.
  cbn [fst] in Hu. etrans; [exact Hu|apply IH].
Qed.

(** Notification, and with it every re-evaluation it sets off, keeps the
    edges of every subscriber free of repeated ids. *)
Lemma Dep_notify_world_wf fuel dep W :
  world_wf W → world_wf (Dep_notify H fuel dep W).1.
Proof. apply engine_steps_world_wf, Dep_notify_steps. Qed.
End Runs.

(** ** Scenarios, end to end *)

(** Conditional dependency dropping: a sync subscriber watches
    [data.flag ? data.a : null].  Its first evaluation subscribes it to the
    publishers of [flag] and of [a].  After [data.flag = false] its
    re-evaluation reads [flag] only; the diff unsubscribes it from the
    publisher of [a], whose notifications then leave the world as it is. *)
Example conditional_dependency_dropped :
  let H := host_of cond_getter returning in
  let W1 := (Watcher_new H 5 0 (EFunction 0) 0 (Some sync_options) cond_world).1 in
  let W2 := (Dep_notify H 5 0 (with_objs (cond_objs false) W1)).1 in
  subs <$> depHeap W1 !! 0 = Some [0] ∧
  subs <$> depHeap W1 !! 1 = Some [0] ∧
  deps <$> watchers W1 !! 0 = Some [0; 1] ∧
  subs <$> depHeap W2 !! 0 = Some [0] ∧
  subs <$> depHeap W2 !! 1 = Some [] ∧
  deps <$> watchers W2 !! 0 = Some [0] ∧
  value <$> watchers W2 !! 0 = Some VNull ∧
  Dep_notify H 5 1 W2 = (W2, Normal tt).
Proof. vm_compute. repeat split; reflexivity. Qed.

(** Without a marker on the way the walk of a cycle never returns,
    whatever the fuel: cycle safety needs its hypothesis on cycles. *)
Example plain_cycle_never_returns (fuel : nat) :
  traverse fuel (VRef 0) plain_cycle_world = None.
Proof.
  unfold traverse.
  assert (∀ W, objs W = objs plain_cycle_world → _traverse fuel (VRef 0) W = None)
    as Hall; [|by apply Hall].
  induction fuel as [|fuel IH]; intros W HW; [done|].
  rewrite _traverse_S, HW.
  change (objs plain_cycle_world !! 0) with (Some (mkObj true true None [mkProp (VRef 0) None])).
  cbn [isExtensible ob_depId props length traverse_children].
  assert (objs W !! 0 = Some (mkObj true true None [mkProp (VRef 0) None])) as Ho
    by (by rewrite HW).
  destruct (readProp_spec 0 0 W _ (mkProp (VRef 0) None) Ho eq_refl)
    as (Hv & H1 & _).
  destruct (readProp 0 0 W) as [v W1]. cbn [fst snd] in *. subst v.
  rewrite IH; [done|congruence].
Qed.

(** * Further properties *)

(** ** Evaluations as sequences of reads *)

Lemma same_settings_refl w : same_settings w w.
Proof. by repeat split. Qed.

Lemma same_settings_trans w1 w2 w3 :
  same_settings w1 w2 → same_settings w2 w3 → same_settings w1 w3.
Proof. unfold same_settings. intros H1 H2. destruct_and!. repeat split; congruence. Qed.

Lemma Dep_depend_on_target t d W :
  Dep_target W = Some t → Dep_depend d W = addDep t d W.
Proof. intros Ht. unfold Dep_depend. by rewrite Ht. Qed.

Lemma addDep_frame this dep W :
  vms (addDep this dep W) = vms W ∧ uid (addDep this dep W) = uid W ∧
  queue (addDep this dep W) = queue W ∧
  config_errorHandler (addDep this dep W) = config_errorHandler W ∧
  production (addDep this dep W) = production W.
Proof. unfold addDep. repeat case_match; done. Qed.

(** One registration, seen from the subscriber [t] that makes it. *)
Lemma addDep_staging t d W wt :
  watchers W !! t = Some wt →
  ∃ wt',
    watchers (addDep t d W) !! t = Some wt' ∧
    same_settings wt wt' ∧ deps wt' = deps wt ∧ depIds wt' = depIds wt ∧
    newDepIds wt' = newDepIds wt ∪ list_to_set (ids_of W [d]) ∧
    (staging_consistent W wt → staging_consistent (addDep t d W) wt').
Proof.
  intros Hw. destruct (depHeap W !! d) as [D|] eqn:Hd.
  - assert (ids_of W [d] = [dep_id D]) as Hids.
    { unfold ids_of, depId. csimpl. by rewrite Hd. }
    destruct (addDep_cases t d W wt D Hw Hd) as [Hsame Hnew].
    destruct (decide (dep_id D ∈ newDepIds wt)) as [Hin|Hout].
    + rewrite (Hsame Hin). exists wt. split; [done|]. split; [apply same_settings_refl|].
      rewrite Hids. split_and!; try done. set_solver.
    + destruct (Hnew Hout) as (Hthis & _). eexists. split; [exact Hthis|].
      split; [by repeat split|]. rewrite Hids. simpl.
      split_and!; try done; [set_solver|].
      intros Hc i. rewrite (ids_of_ext W) by (intros; apply depId_addDep).
      cbn [newDeps newDepIds set_newDeps set_newDepIds].
      rewrite ids_of_app, Hids, elem_of_app, list_elem_of_singleton.
      rewrite (Hc i). set_solver.
  - assert (addDep t d W = W) as ->.
    { unfold addDep, depId. by rewrite Hw, Hd. }
    exists wt. split; [done|]. split; [apply same_settings_refl|].
    assert (ids_of W [d] = []) as ->.
    { unfold ids_of, depId. csimpl. by rewrite Hd. }
    split_and!; try done. set_solver.
Qed.

Lemma addDep_others t d W x : x ≠ t → watchers (addDep t d W) !! x = watchers W !! x.
Proof.
  intros Hne. unfold addDep.
  destruct (watchers W !! t) as [wt|] eqn:Hw; [|done].
  destruct (depId W d) as [k|]; [|done].
  destruct (decide (k ∈ newDepIds wt)); [done|].
  assert (∀ W', watchers (if decide (k ∈ depIds wt) then W' else Dep_addSub d t W')
                = watchers W') as ->.
  { intros W'. by destruct (decide (k ∈ depIds wt)). }
  cbn [upd_watcher set_watchers watchers]. by rewrite !lookup_alter_ne.
Qed.

(** A sequence of reads, seen from the subscriber on top of the stack. *)
Lemma reads_staging t : ∀ ds W wt,
  Dep_target W = Some t → watchers W !! t = Some wt →
  ∃ wt',
    watchers (reads ds W) !! t = Some wt' ∧
    same_settings wt wt' ∧ deps wt' = deps wt ∧ depIds wt' = depIds wt ∧
    newDepIds wt' = newDepIds wt ∪ list_to_set (ids_of W ds) ∧
    (staging_consistent W wt → staging_consistent (reads ds W) wt') ∧
    targetStack (reads ds W) = targetStack W ∧
    (∀ d, depId (reads ds W) d = depId W d) ∧
    (∀ x, x ≠ t → watchers (reads ds W) !! x = watchers W !! x).
Proof.
  induction ds as [|d ds IH]; intros W wt Ht Hw.
  - exists wt. split; [done|]. split; [apply same_settings_refl|].
    split_and!; try done. unfold ids_of. simpl. set_solver.
  - change (reads (d :: ds) W) with (reads ds (Dep_depend d W)).
    rewrite (Dep_depend_on_target t d W Ht).
    destruct (addDep_staging t d W wt Hw) as (w1 & Hw1 & Hs1 & Hd1 & Hi1 & Hn1 & Hc1).
    assert (Dep_target (addDep t d W) = Some t) as Ht1.
    { unfold Dep_target. by rewrite addDep_targetStack. }
    destruct (IH (addDep t d W) w1 Ht1 Hw1)
      as (w2 & Hw2 & Hs2 & Hd2 & Hi2 & Hn2 & Hc2 & Hst & Hid & Hoth).
    exists w2. split; [done|]. split; [by apply (same_settings_trans _ w1)|].
    split; [congruence|]. split; [congruence|]. split.
    { rewrite Hn2, Hn1.
      rewrite (ids_of_ext W (addDep t d W) ds) by (intros; apply depId_addDep).
      change (d :: ds) with ([d] ++ ds). rewrite ids_of_app. set_solver. }
    split; [tauto|]. split; [by rewrite Hst, addDep_targetStack|].
    split; [intros d'; by rewrite Hid, depId_addDep|].
    intros x Hx. by rewrite Hoth, addDep_others.
Qed.

Lemma addDep_subs_grow t x W d D :
  depHeap W !! d = Some D →
  ∃ D1, depHeap (addDep t x W) !! d = Some D1 ∧ dep_id D1 = dep_id D ∧
        ∀ s, s ∈ subs D → s ∈ subs D1.
Proof.
  intros Hd. unfold addDep. repeat case_match; try by exists D.
  unfold Dep_addSub. cbn [set_depHeap depHeap upd_watcher set_watchers].
  rewrite lookup_alter. destruct (decide (x = d)) as [->|]; [|by exists D].
  rewrite Hd. eexists. split; [done|]. simpl. split; [done|]. set_solver.
Qed.

(** A publisher with a fresh id that is read lists the subscriber
    afterwards. *)
Lemma reads_subscribes t d : ∀ ds W wt,
  Dep_target W = Some t → watchers W !! t = Some wt →
  ((∃ D, depHeap W !! d = Some D ∧ t ∈ subs D) ∨
   (d ∈ ds ∧ ∃ D, depHeap W !! d = Some D ∧
      (dep_id D ∉ depIds wt) ∧ (dep_id D ∉ newDepIds wt) ∧
      ∀ d', d' ∈ ds → depId W d' = Some (dep_id D) → d' = d)) →
  ∃ D', depHeap (reads ds W) !! d = Some D' ∧ t ∈ subs D'.
Proof.
  induction ds as [|x ds IH]; intros W wt Ht Hw Hinv.
  - destruct Hinv as [?|[Hin _]]; [done|]. by apply elem_of_nil in Hin.
  - change (reads (x :: ds) W) with (reads ds (Dep_depend x W)).
    rewrite (Dep_depend_on_target t x W Ht).
    destruct (addDep_staging t x W wt Hw) as (w1 & Hw1 & _ & _ & Hi1 & Hn1 & _).
    assert (Dep_target (addDep t x W) = Some t) as Ht1.
    { unfold Dep_target. by rewrite addDep_targetStack. }
    apply (IH _ w1 Ht1 Hw1).
    destruct Hinv as [(D & Hd & Hin)|(Hin & D & Hd & Ho1 & Ho2 & Huniq)].
    { left. destruct (addDep_subs_grow t x W d D Hd) as (D1 & Hd1 & _ & Hsub).
      exists D1. split; [done|]. by apply Hsub. }
    destruct (decide (x = d)) as [->|Hne].
    + left. destruct (addDep_cases t d W wt D Hw Hd) as [_ Hnew].
      destruct (Hnew Ho2) as (_ & _ & _ & Hadd). rewrite (Hadd Ho1).
      eexists. split; [apply lookup_insert_eq|]. simpl. set_solver.
    + right. split; [set_solver|].
      destruct (addDep_subs_grow t x W d D Hd) as (D1 & Hd1 & Hid1 & _).
      exists D1. split; [done|]. rewrite Hid1, Hi1, Hn1.
      split; [done|]. split.
      * intros [Hin'|Hin']%elem_of_union; [done|].
        apply elem_of_list_to_set in Hin'. unfold ids_of in Hin'.
        apply list_elem_of_omap in Hin' as (x' & Hx' & Hidx).
        apply list_elem_of_singleton in Hx' as ->.
        apply Hne, Huniq; [set_solver|done].
      * intros d' Hd' Hidd. rewrite depId_addDep in Hidd.
        apply Huniq; [set_solver|done].
Qed.

Lemma cleanupDeps_watcher this W w :
  watchers W !! this = Some w →
  watchers (cleanupDeps this W) !! this
  = Some (set_newDeps [] (set_deps (newDeps w)
            (set_newDepIds ∅ (set_depIds (newDepIds w) w)))).
Proof.
  intros Hw. unfold cleanupDeps. rewrite Hw. cbn [upd_watcher set_watchers watchers].
  rewrite !lookup_alter_eq.
  by rewrite (cleanupDeps_loop_unsubscribe this w _ W Hw), watchers_unsubscribe, Hw.
Qed.

Lemma unsubscribe_lookup_other this (l : list dref) W (d : dref) :
  d ∉ l → depHeap (unsubscribe this l W) !! d = depHeap W !! d.
Proof.
  induction l as [|x l IH]; intros Hd; [done|].
  cbn [unsubscribe foldr]. fold (unsubscribe this l W).
  unfold Dep_removeSub at 1. cbn [depHeap set_depHeap].
  rewrite lookup_alter_ne by set_solver. apply IH. set_solver.
Qed.

Section Evaluation.
Variable H : Host.

(** What [get] does when the watched function amounts to the reads [ds]
    and returns [v], for a subscriber that is not deep. *)
Lemma get_of_reads (fuel : nat) (this : wref) (W : World) (w : Watcher)
    (ds : list dref) (v : Value) :
  watchers W !! this = Some w → deep w = false →
  call_this_getter H w (pushTarget this W) = (reads ds (pushTarget this W), Normal v) →
  get H fuel this W
  = (cleanupDeps this (popTarget (reads ds (pushTarget this W))), Normal v).
Proof.
  intros Hw Hdeep Hg. unfold get. rewrite Hw, Hg.
  destruct (reads_staging this ds (pushTarget this W) w eq_refl Hw)
    as (w2 & Hw2 & Hs2 & _).
  rewrite Hw2. destruct Hs2 as (_ & _ & _ & _ & -> & _). by rewrite Hdeep.
Qed.

(** X1: when the watched function of a subscriber that is not deep reads
    the publishers [ds] and returns, [get] leaves the subscriber with
    exactly the ids staged before the call and the ids read as its current
    id set, empties the staging containers, and restores the stack; the
    current sequence lists the same ids as the current set if staging was
    consistent before.  Ids staged by an earlier evaluation that threw are
    therefore carried into the edge set. *)
Theorem get_refreshes_edges (fuel : nat) (this : wref) (W : World) (w : Watcher)
    (ds : list dref) (v : Value) :
  watchers W !! this = Some w → deep w = false →
  call_this_getter H w (pushTarget this W) = (reads ds (pushTarget this W), Normal v) →
  ∃ W' w',
    get H fuel this W = (W', Normal v) ∧
    watchers W' !! this = Some w' ∧
    depIds w' = newDepIds w ∪ list_to_set (ids_of W ds) ∧
    newDepIds w' = ∅ ∧ newDeps w' = [] ∧
    same_settings w w' ∧
    targetStack W' = targetStack W ∧
    (staging_consistent W w → ∀ i, i ∈ ids_of W' (deps w') ↔ i ∈ depIds w').
Proof.
  intros Hw Hdeep Hg. rewrite (get_of_reads fuel this W w ds v Hw Hdeep Hg).
  destruct (reads_staging this ds (pushTarget this W) w eq_refl Hw)
    as (w2 & Hw2 & Hs2 & Hd2 & Hi2 & Hn2 & Hc2 & Hst & Hid & _).
  eexists _, _. split; [done|].
  split; [by apply (cleanupDeps_watcher this (popTarget _) w2)|].
  cbn [depIds newDepIds newDeps deps set_newDeps set_deps set_newDepIds set_depIds].
  split; [exact Hn2|]. split; [done|]. split; [done|].
  split; [exact Hs2|].
  split; [by rewrite cleanupDeps_targetStack; cbn; rewrite Hst|].
  intros Hc i. rewrite (ids_of_ext _ _ _ (depId_cleanupDeps this _)).
  apply (Hc2 Hc i).
Qed.

(** X2: under the same conditions, a publisher that is read, whose id was
    in neither id set before and is the id of no other publisher read,
    lists the subscriber in its registry after [get]. *)
Theorem get_subscribes_fresh (fuel : nat) (this : wref) (W : World) (w : Watcher)
    (ds : list dref) (v : Value) (d : dref) (D : Dep) :
  watchers W !! this = Some w → deep w = false →
  call_this_getter H w (pushTarget this W) = (reads ds (pushTarget this W), Normal v) →
  d ∈ ds → depHeap W !! d = Some D →
  dep_id D ∉ depIds w → dep_id D ∉ newDepIds w →
  (∀ d', d' ∈ ds → depId W d' = Some (dep_id D) → d' = d) →
  ∃ D', depHeap (get H fuel this W).1 !! d = Some D' ∧ this ∈ subs D' ∧
        dep_id D' = dep_id D.
Proof.
  intros Hw Hdeep Hg Hin Hd Ho1 Ho2 Huniq.
  rewrite (get_of_reads fuel this W w ds v Hw Hdeep Hg). cbn [fst].
  destruct (reads_staging this ds (pushTarget this W) w eq_refl Hw)
    as (w2 & Hw2 & _ & _ & _ & Hn2 & _ & _ & Hid & _).
  destruct (reads_subscribes this d ds (pushTarget this W) w eq_refl Hw)
    as (D2 & Hd2 & Hsub).
  { right. split; [done|]. by exists D. }
  revert Hw2 Hid Hd2. generalize (reads ds (pushTarget this W)). intros W2 Hw2 Hid Hd2.
  assert (dep_id D2 = dep_id D) as Hid2.
  { specialize (Hid d). unfold depId in Hid.
    rewrite Hd2 in Hid. cbn in Hid. rewrite Hd in Hid. by injection Hid. }
  exists D2. split; [|done].
  unfold cleanupDeps. change (watchers (popTarget W2)) with (watchers W2).
  rewrite Hw2. cbn [upd_watcher set_watchers depHeap].
  rewrite (cleanupDeps_loop_unsubscribe this w2 _ (popTarget W2) Hw2).
  rewrite unsubscribe_lookup_other; [done|].
  intros [Hst _]%list_elem_of_filter. unfold stale, depId in Hst.
  change (depHeap (popTarget W2)) with (depHeap W2) in Hst.
  rewrite Hd2 in Hst. cbn in Hst. apply bool_decide_eq_true in Hst.
  apply Hst. rewrite Hn2, Hid2. apply elem_of_union_r, elem_of_list_to_set.
  unfold ids_of. apply list_elem_of_omap. exists d. split; [done|].
  unfold depId. cbn. by rewrite Hd.
Qed.
End Evaluation.

(** [get_refreshes_edges] on a watched function that reads publisher 0,
    publisher 1 and publisher 0 again. *)
Lemma get_refreshes_edges_witness :
  ∃ W' w',
    get (host_of (reading [0; 1; 0] VNull) returning) 0 0 two_deps_world
      = (W', Normal VNull) ∧
    watchers W' !! 0 = Some w' ∧
    depIds w' = newDepIds plain_watcher ∪ list_to_set (ids_of two_deps_world [0; 1; 0]) ∧
    newDepIds w' = ∅ ∧ newDeps w' = [] ∧
    same_settings plain_watcher w' ∧
    targetStack W' = targetStack two_deps_world ∧
    (staging_consistent two_deps_world plain_watcher →
     ∀ i, i ∈ ids_of W' (deps w') ↔ i ∈ depIds w').
Proof.
  apply (get_refreshes_edges (host_of (reading [0; 1; 0] VNull) returning)
           0 0 two_deps_world plain_watcher [0; 1; 0] VNull); reflexivity.
Defined.

(** [get_subscribes_fresh] on the same evaluation, for publisher 1. *)
Lemma get_subscribes_fresh_witness :
  ∃ D', depHeap (get (host_of (reading [0; 1; 0] VNull) returning) 0 0
                   two_deps_world).1 !! 1 = Some D' ∧
        0 ∈ subs D' ∧ dep_id D' = 11.
Proof.
  apply (get_subscribes_fresh (host_of (reading [0; 1; 0] VNull) returning)
           0 0 two_deps_world plain_watcher [0; 1; 0] VNull 1 (mkDep 11 []));
    try reflexivity.
  - apply list_elem_of_In. simpl. tauto.
  - simpl. apply not_elem_of_empty.
  - simpl. apply not_elem_of_empty.
  - intros d' Hd' Hid. apply list_elem_of_In in Hd'. simpl in Hd'.
    destruct Hd' as [<-|[<-|[<-|[]]]]; [discriminate Hid|reflexivity|discriminate Hid].
Defined.

(** ** On-demand evaluation *)

Section Evaluate.
Variable H : Host.

(** X3: the cache of a subscriber, through [evaluate] and [update].  When
    the watched function of a subscriber that is not deep reads the
    publishers [ds] and returns [v], [evaluate] returns and leaves [v] as
    the stored value with [dirty = false], the ids staged and read as the
    current id set, and the stack as it was; an [update] of a lazy
    subscriber then sets [dirty = true] again and keeps the stored value
    and the edges.  When the watched function throws instead, so does
    [evaluate], and it leaves [value] and [dirty] as they were: a
    subscriber that was dirty stays dirty. *)
Theorem evaluate_caches (fuel : nat) (this : wref) (W : World) (w : Watcher)
    (ds : list dref) :
  watchers W !! this = Some w → deep w = false →
  (∀ v, call_this_getter H w (pushTarget this W)
          = (reads ds (pushTarget this W), Normal v) →
     ∃ W2 w2,
       evaluate H fuel this W = (W2, Normal tt) ∧
       watchers W2 !! this = Some w2 ∧
       value w2 = v ∧ dirty w2 = false ∧
       depIds w2 = newDepIds w ∪ list_to_set (ids_of W ds) ∧
       newDepIds w2 = ∅ ∧ lazy w2 = lazy w ∧ active w2 = active w ∧
       targetStack W2 = targetStack W ∧
       (lazy w = true →
        ∃ W3 w3,
          update H fuel this W2 = (W3, Normal tt) ∧
          watchers W3 !! this = Some w3 ∧
          dirty w3 = true ∧ value w3 = v ∧
          deps w3 = deps w2 ∧ depIds w3 = depIds w2 ∧
          depHeap W3 = depHeap W2)) ∧
  (∀ e, call_this_getter H w (pushTarget this W)
          = (reads ds (pushTarget this W), Throw e) →
     ∃ W2 w2,
       evaluate H fuel this W = (W2, Throw e) ∧
       watchers W2 !! this = Some w2 ∧
       value w2 = value w ∧ dirty w2 = dirty w).
Proof.
  intros Hw Hdeep.
  destruct (reads_staging this ds (pushTarget this W) w eq_refl Hw)
    as (w2 & Hw2 & Hs2 & Hd2 & Hi2 & Hn2 & _ & Hst & _).
  destruct Hs2 as (_ & _ & _ & _ & _ & _ & Hlz & _ & Hdirty & Hact & _ & Hval).
  split.
  - intros v Hg. unfold evaluate.
    rewrite (get_of_reads H fuel this W w ds v Hw Hdeep Hg).
    pose proof (cleanupDeps_watcher this (popTarget (reads ds (pushTarget this W))) w2 Hw2)
      as Hw3.
    assert (targetStack (cleanupDeps this (popTarget (reads ds (pushTarget this W))))
            = targetStack W) as Hstack.
    { rewrite cleanupDeps_targetStack. cbn. by rewrite Hst. }
    revert Hw3 Hstack.
    generalize (cleanupDeps this (popTarget (reads ds (pushTarget this W)))).
    intros W1 Hw3 Hstack.
    eexists _, _. split; [done|].
    cbn [upd_watcher set_watchers watchers]. rewrite !lookup_alter_eq, Hw3.
    split; [done|].
    cbn [value dirty depIds newDepIds lazy active set_dirty set_value set_newDeps
         set_deps set_newDepIds set_depIds targetStack].
    split_and!; try done.
    intros Hlazy. unfold update. cbn [upd_watcher set_watchers watchers].
    rewrite !lookup_alter_eq, Hw3.
    cbn [fmap option_fmap option_map lazy set_dirty set_value set_newDeps set_deps
         set_newDepIds set_depIds].
    rewrite Hlz, Hlazy. eexists _, _. split; [done|].
    cbn [upd_watcher set_watchers watchers depHeap].
    rewrite !lookup_alter_eq, Hw3. done.
  - intros e Hg. unfold evaluate, get. rewrite Hw, Hg.
    by exists (reads ds (pushTarget this W)), w2.
Qed.
End Evaluate.

(** [evaluate_caches] on a lazy subscriber that has not been evaluated,
    whose function reads publisher 1 and returns [null]: [dirty], which was
    [true], is [false] afterwards. *)
Lemma evaluate_caches_witness :
  dirty lazy_watcher = true ∧
  ∃ W2 w2, evaluate (host_of (reading [1] VNull) returning) 0 0 lazy_world
             = (W2, Normal tt) ∧
           watchers W2 !! 0 = Some w2 ∧ value w2 = VNull ∧ dirty w2 = false.
Proof.
  split; [reflexivity|].
  assert (watchers lazy_world !! 0 = Some lazy_watcher) as Hw by reflexivity.
  destruct (proj1 (evaluate_caches (host_of (reading [1] VNull) returning) 0 0
                     lazy_world lazy_watcher [1] Hw eq_refl) VNull eq_refl)
    as (W2 & w2 & Hev & Hw2 & Hv & Hd & _).
  exists W2, w2. split; [exact Hev|]. split; [exact Hw2|]. split; [exact Hv|exact Hd].
Defined.

(** ** Dependency forwarding *)

Lemma reads_no_target ds W : Dep_target W = None → reads ds W = W.
Proof.
  intros Ht. induction ds as [|d ds IH]; [done|].
  change (reads (d :: ds) W) with (reads ds (Dep_depend d W)).
  unfold Dep_depend at 1. by rewrite Ht.
Qed.

Lemma Dep_depend_deps d W x wx :
  watchers W !! x = Some wx →
  ∃ wx', watchers (Dep_depend d W) !! x = Some wx' ∧ deps wx' = deps wx.
Proof.
  intros Hx. unfold Dep_depend. destruct (Dep_target W) as [t|]; [|by exists wx].
  destruct (decide (x = t)) as [->|Hne].
  - destruct (addDep_staging t d W wx Hx) as (w' & Hw' & _ & Hd & _). by exists w'.
  - exists wx. by rewrite addDep_others.
Qed.

(** The loop of [depend] makes the publishers of [deps] register, last
    one first. *)
Lemma depend_loop_reads this (l : list dref) (i : nat) : ∀ W w,
  watchers W !! this = Some w → deps w = l →
  depend_loop this i W = reads (rev (take i l)) W.
Proof.
  induction i as [|i IH]; intros W w Hw Hl.
  - by rewrite take_0.
  - cbn [depend_loop]. rewrite Hw, Hl.
    destruct (l !! i) as [dep|] eqn:Hd.
    + rewrite (take_S_r _ _ _ Hd), rev_app_distr. cbn [rev app].
      change (reads (dep :: rev (take i l)) W)
        with (reads (rev (take i l)) (Dep_depend dep W)).
      destruct (Dep_depend_deps dep W this w Hw) as (w' & Hw' & Hd').
      apply (IH _ w' Hw'). congruence.
    + rewrite (IH W w Hw Hl). apply lookup_ge_None in Hd.
      by rewrite !take_ge by lia.
Qed.

Lemma ids_of_rev_set W (l : list dref) :
  list_to_set (C := gset nat) (ids_of W (rev l)) = list_to_set (ids_of W l).
Proof.
  apply set_eq. intros i. rewrite !elem_of_list_to_set. unfold ids_of.
  rewrite !list_elem_of_omap.
  assert (∀ d, d ∈ rev l ↔ d ∈ l) as Hrev.
  { intros d. rewrite !list_elem_of_In. symmetry. apply in_rev. }
  split; intros (d & Hd & Hi); exists d; (split; [|done]); by apply Hrev.
Qed.

(** X4: [depend] forwards the edges of a subscriber to the subscriber
    being evaluated: the ids of all its current publishers join the
    staging set of the subscriber on top of the stack, whose current edges
    are left alone.  With nobody evaluating, [depend] does nothing. *)
Theorem depend_forwards (this : wref) (W : World) (w : Watcher) :
  watchers W !! this = Some w →
  (Dep_target W = None → depend this W = W) ∧
  (∀ t wt, Dep_target W = Some t → watchers W !! t = Some wt →
     ∃ wt',
       watchers (depend this W) !! t = Some wt' ∧
       newDepIds wt' = newDepIds wt ∪ list_to_set (ids_of W (deps w)) ∧
       deps wt' = deps wt ∧ depIds wt' = depIds wt ∧
       targetStack (depend this W) = targetStack W ∧
       (∀ x, x ≠ t → watchers (depend this W) !! x = watchers W !! x)).
Proof.
  intros Hw. unfold depend. rewrite Hw.
  rewrite (depend_loop_reads this (deps w) _ W w Hw eq_refl), firstn_all.
  split; [apply reads_no_target|].
  intros t wt Ht Hwt.
  destruct (reads_staging t (rev (deps w)) W wt Ht Hwt)
    as (wt' & Hw' & _ & Hd & Hi & Hn & _ & Hst & _ & Hoth).
  exists wt'. rewrite <- ids_of_rev_set. done.
Qed.

(** [depend_forwards] where the subscriber of [diff_world] is read while
    subscriber 1 is being evaluated. *)
Lemma depend_forwards_witness :
  ∃ wt',
    watchers (depend 0 nested_world) !! 1 = Some wt' ∧
    newDepIds wt' = newDepIds plain_watcher
                    ∪ list_to_set (ids_of nested_world (deps diff_watcher)) ∧
    deps wt' = deps plain_watcher ∧ depIds wt' = depIds plain_watcher ∧
    targetStack (depend 0 nested_world) = targetStack nested_world ∧
    (∀ x, x ≠ 1 → watchers (depend 0 nested_world) !! x = watchers nested_world !! x).
Proof.
  apply (proj2 (depend_forwards 0 nested_world diff_watcher eq_refl) 1 plain_watcher);
    reflexivity.
Defined.

(** ** Construction *)

(** The order of doubles, through its specification. *)
Ltac SF_order :=
  unfold SFltb, SFleb, SFcompare;
  repeat match goal with
         | |- ∀ x : spec_float, _ => intros [[]|[]| |[] ? ?]
         end;
  simpl; try done;
  repeat match goal with
         | |- context [(?a ?= ?b)%Z] => destruct (Z.compare_spec a b); simpl; try done
         | |- context [Pos.compare_cont Eq ?a ?b] =>
             change (Pos.compare_cont Eq a b) with (Pos.compare a b);
             destruct (Pos.compare_spec a b); simpl; try done
         end;
  try lia.

Lemma float_leb_ltb_trans (a b c : float) :
  (a <=? b)%float = true → (b <? c)%float = true → (a <? c)%float = true.
Proof.
  rewrite !ltb_spec, leb_spec. generalize (Prim2SF a) (Prim2SF b) (Prim2SF c). SF_order.
Qed.

Lemma float_leb_trans (a b c : float) :
  (a <=? b)%float = true → (b <=? c)%float = true → (a <=? c)%float = true.
Proof. rewrite !leb_spec. generalize (Prim2SF a) (Prim2SF b) (Prim2SF c). SF_order. Qed.

Lemma float_ltb_leb (a b : float) : (a <? b)%float = true → (a <=? b)%float = true.
Proof. rewrite ltb_spec, leb_spec. generalize (Prim2SF a) (Prim2SF b). SF_order. Qed.

Lemma float_ltb_leb_refl (a b : float) : (a <? b)%float = true → (b <=? b)%float = true.
Proof. rewrite ltb_spec, leb_spec. generalize (Prim2SF a) (Prim2SF b). SF_order. Qed.

Lemma engine_step_ids W W' :
  engine_step W W' →
  uid W' = uid W ∧ ∀ x, id <$> watchers W' !! x = id <$> watchers W !! x.
Proof.
  assert (∀ this (f : Watcher → Watcher) W0,
            (∀ w, id (f w) = id w) →
            ∀ x, id <$> watchers (upd_watcher this f W0) !! x = id <$> watchers W0 !! x)
    as Hupd.
  { intros this f W0 Hf x. cbn [upd_watcher set_watchers watchers].
    rewrite lookup_alter. destruct (decide (this = x)) as [->|]; [|done].
    destruct (watchers W0 !! x); [|done]. simpl. by rewrite Hf. }
  destruct 1 as [this dep W|this W|dep W|this W|this W|W|this W|e W|f W
                |this v W|this b W]; try done.
  - split; [apply addDep_frame|]. intros x.
    destruct (decide (x = this)) as [->|Hne]; [|by rewrite addDep_others].
    destruct (watchers W !! this) as [w|] eqn:Hw.
    + destruct (addDep_staging this dep W w Hw) as (w' & -> & Hs & _).
      simpl. destruct Hs as (_ & _ & _ & -> & _). done.
    + unfold addDep. rewrite Hw. cbn. by rewrite Hw.
  - destruct (watchers W !! this) as [w|] eqn:Hw.
    2:{ unfold cleanupDeps. by rewrite Hw. }
    split.
    { unfold cleanupDeps. rewrite Hw. cbn [upd_watcher set_watchers uid].
      rewrite (cleanupDeps_loop_unsubscribe this w _ W Hw).
      generalize (filter (λ d, stale W w d = true) (take (length (deps w)) (deps w))).
      intros l. induction l; simpl; done. }
    intros x. unfold cleanupDeps. rewrite Hw.
    rewrite !Hupd by done.
    by rewrite (cleanupDeps_loop_unsubscribe this w _ W Hw), watchers_unsubscribe.
  - unfold Dep_depend. destruct (Dep_target W) as [t|]; [|done].
    split; [apply addDep_frame|]. intros x.
    destruct (decide (x = t)) as [->|Hne]; [|by rewrite addDep_others].
    destruct (watchers W !! t) as [w|] eqn:Hw.
    + destruct (addDep_staging t dep W w Hw) as (w' & -> & Hs & _).
      simpl. destruct Hs as (_ & _ & _ & -> & _). done.
    + unfold addDep. rewrite Hw. cbn. by rewrite Hw.
  - destruct (watchers W !! this) as [w|] eqn:Hw.
    2:{ unfold teardown. by rewrite Hw. }
    destruct (active w) eqn:Ha.
    2:{ unfold teardown. by rewrite Hw, Ha. }
    rewrite (teardown_active _ _ _ Hw Ha).
    set (W1 := match vms W !! vm w with Some _ => _ | None => _ end).
    assert (watchers W1 = watchers W ∧ uid W1 = uid W) as [Hw1 Hu1].
    { unfold W1. repeat case_match; done. }
    split.
    { cbn [upd_watcher set_watchers uid]. rewrite <- Hu1.
      generalize (deps w). intros l. induction l; simpl; done. }
    intros x. rewrite Hupd by done. by rewrite watchers_unsubscribe, Hw1.
  - unfold queueWatcher. by case_match.
  - split; [done|]. by apply Hupd.
  - split; [done|]. by apply Hupd.
Qed.

Lemma engine_steps_ids W W' :
  rtc engine_step W W' →
  uid W' = uid W ∧ ∀ x, id <$> watchers W' !! x = id <$> watchers W !! x.
Proof.
  induction 1 as [|W1 W2 W3 Hstep _ [IHu IHw]]; [done|].
  destruct (engine_step_ids _ _ Hstep) as [Hu Hw].
  split; [congruence|]. intros x. by rewrite IHw, Hw.
Qed.

Section Construction.
Variable H : Host.

(** The last step of the constructor: the first evaluation, unless the
    subscriber is lazy. *)
Lemma first_evaluation_steps (fuel : nat) (this : wref) (lz : bool) (W4 : World) :
  host_steps H →
  rtc engine_step W4
    (if lz then (W4, Normal this)
     else match get H fuel this W4 with
          | (W5, Normal v) => (upd_watcher this (set_value v) W5, Normal this)
          | (W5, Throw e) => (W5, Throw e)
          | (W5, OutOfFuel) => (W5, OutOfFuel)
          end).1 ∧
  ∀ r, (if lz then (W4, Normal this)
        else match get H fuel this W4 with
             | (W5, Normal v) => (upd_watcher this (set_value v) W5, Normal this)
             | (W5, Throw e) => (W5, Throw e)
             | (W5, OutOfFuel) => (W5, OutOfFuel)
             end).2 = Normal r → r = this.
Proof.
  intros Hh. destruct lz; [split; [done|by intros r [= <-]]|].
  pose proof (get_steps H Hh fuel this W4) as Hg.
  destruct (get H fuel this W4) as [W5 [v|e|]]; cbn [fst snd] in *;
    (split; [|by intros r [= <-]]); try done.
  etrans; [exact Hg|]. apply rtc_once, step_set_value.
Qed.

(** X6: the constructor gives the new subscriber a reference no
    subscriber has and the id [uid + 1], an addition of doubles, and stores
    that id as the new [uid], whether the first evaluation returns or
    throws.  As long as the counter still advances ([uid < uid + 1], which
    holds for the integers below 2^53) and no id exceeds [uid], the new id
    is larger than the id of every subscriber there is, and no id exceeds
    the new [uid]. *)
Theorem Watcher_new_ids (fuel : nat) (vm0 : vref) (e : ExpOrFn) (cb0 : fnref)
    (options : option Options) (W : World) :
  host_steps H →
  ∃ this w,
    watchers W !! this = None ∧
    watchers (Watcher_new H fuel vm0 e cb0 options W).1 !! this = Some w ∧
    id w = (uid W + 1)%float ∧
    uid (Watcher_new H fuel vm0 e cb0 options W).1 = (uid W + 1)%float ∧
    (ids_bounded W → (uid W <? uid W + 1)%float = true →
       (∀ x wx, watchers W !! x = Some wx → (id wx <? id w)%float = true) ∧
       ids_bounded (Watcher_new H fuel vm0 e cb0 options W).1) ∧
    (∀ r, (Watcher_new H fuel vm0 e cb0 options W).2 = Normal r → r = this).
Proof.
  intros Hh.
  assert (∀ (this : wref) (wn : Watcher) (lz : bool) (W3 : World),
            watchers W3 = watchers W → uid W3 = (uid W + 1)%float →
            watchers W !! this = None → id wn = (uid W + 1)%float →
            let R := if lz then (set_watchers (insert this wn) W3, Normal this)
                     else match get H fuel this (set_watchers (insert this wn) W3) with
                          | (W5, Normal v) =>
                              (upd_watcher this (set_value v) W5, Normal this)
                          | (W5, Throw e) => (W5, Throw e)
                          | (W5, OutOfFuel) => (W5, OutOfFuel)
                          end in
            ∃ w, watchers R.1 !! this = Some w ∧ id w = (uid W + 1)%float ∧
                 uid R.1 = (uid W + 1)%float ∧
                 (ids_bounded W → (uid W <? uid W + 1)%float = true →
                    (∀ x wx, watchers W !! x = Some wx → (id wx <? id w)%float = true) ∧
                    ids_bounded R.1) ∧
                 (∀ r, R.2 = Normal r → r = this)) as Hfin.
  { intros this wn lz W3 Hw3 Hu3 Hfresh Hid R.
    destruct (first_evaluation_steps fuel this lz (set_watchers (insert this wn) W3) Hh)
      as [Hsteps Hres]. fold R in Hsteps, Hres.
    destruct (engine_steps_ids _ _ Hsteps) as [Hu Hids].
    cbn [set_watchers uid watchers] in Hu, Hids.
    assert (∀ x wx, watchers R.1 !! x = Some wx →
              (x = this ∧ id wx = (uid W + 1)%float) ∨
              (x ≠ this ∧ ∃ wx0, watchers W !! x = Some wx0 ∧ id wx = id wx0)) as Hcase.
    { intros x wx Hx. specialize (Hids x). rewrite Hx in Hids. simpl in Hids.
      destruct (decide (x = this)) as [->|Hne].
      - left. split; [done|]. rewrite lookup_insert_eq in Hids. simpl in Hids. congruence.
      - right. split; [done|]. rewrite lookup_insert_ne, Hw3 in Hids by done.
        destruct (watchers W !! x) as [wx0|]; [|done]. exists wx0. split; [done|].
        simpl in Hids. congruence. }
    assert (is_Some (watchers R.1 !! this)) as [w Hw].
    { specialize (Hids this). rewrite lookup_insert_eq in Hids.
      destruct (watchers R.1 !! this); [done|discriminate Hids]. }
    exists w. split; [done|].
    destruct (Hcase this w Hw) as [[_ Hidw]|[Hne _]]; [|done].
    split; [done|]. split; [congruence|]. split; [|done].
    intros Hb Hadv. split.
    { intros x wx Hx. rewrite Hidw.
      by apply (float_leb_ltb_trans _ (uid W)); [apply (Hb x wx)|]. }
    intros x wx Hx. rewrite Hu, Hu3.
    destruct (Hcase x wx Hx) as [[_ ->]|(_ & wx0 & Hx0 & ->)].
    - by apply (float_ltb_leb_refl (uid W)).
    - apply (float_leb_trans _ (uid W)); [by apply (Hb x wx0)|by apply float_ltb_leb]. }
  unfold Watcher_new.
  set (this := fresh (dom (watchers (emit _ W)))).
  assert (watchers W !! this = None) as Hfresh.
  { apply not_elem_of_dom. apply (is_fresh (dom (watchers W))). }
  exists this.
  destruct options as [o|]; destruct e as [s|f]; try destruct (parsePath H s);
    cbn zeta;
    match goal with
    | |- context [insert this ?wn] =>
        match goal with
        | |- context [set_watchers (insert this wn) ?W3] =>
            destruct (Hfin this wn (lazy wn) W3) as (w & Hfw);
              [try done; by destruct (production _)..|]
        end
    end;
    exists w; split; try done.
Qed.
End Construction.

Lemma host_quiet_steps : host_steps host_quiet.
Proof. by repeat split. Qed.

Lemma plain_world_ids_bounded : ids_bounded (world_with {[0 := plain_watcher]} ∅).
Proof.
  intros x w Hx. cbn in Hx. by apply lookup_singleton_Some in Hx as [<- <-].
Qed.

(** [Watcher_new_ids] on a second subscriber of the component of
    [plain_watcher], whose id is 1. *)
Lemma Watcher_new_ids_witness :
  ∃ this w,
    watchers (world_with {[0 := plain_watcher]} ∅) !! this = None ∧
    watchers (Watcher_new host_quiet 1 0 (EFunction 0) 0 None
                (world_with {[0 := plain_watcher]} ∅)).1 !! this = Some w ∧
    id w = 2%float ∧
    (id plain_watcher <? id w)%float = true.
Proof.
  destruct (Watcher_new_ids host_quiet 1 0 (EFunction 0) 0 None
              (world_with {[0 := plain_watcher]} ∅) host_quiet_steps)
    as (this & w & Hfresh & Hw & Hid & _ & Hord & _).
  exists this, w. split; [exact Hfresh|]. split; [exact Hw|]. split; [exact Hid|].
  exact (proj1 (Hord plain_world_ids_bounded eq_refl) 0 plain_watcher eq_refl).
Defined.

(** At 2^53 the counter no longer advances: [++uid] leaves it as it is,
    and two subscribers constructed in a row get the same id. *)
Example ids_repeat_at_2_53 :
  let W := set_uid 9007199254740992 (world_with ∅ ∅) in
  let lazily := Some (mkOptions VUndefined VUndefined (VBool true) VUndefined) in
  let W1 := (Watcher_new host_quiet 0 0 (EFunction 0) 0 lazily W).1 in
  let W2 := (Watcher_new host_quiet 0 0 (EFunction 0) 0 lazily W1).1 in
  (uid W <? uid W + 1)%float = false ∧
  id <$> watchers W2 !! 0 = Some 9007199254740992%float ∧
  id <$> watchers W2 !! 1 = Some 9007199254740992%float ∧
  uid W2 = uid W.
Proof. vm_compute. repeat split; reflexivity. Qed.

Section Bad_path.
Variable H : Host.

(** An evaluation of the no-op getter by a subscriber without edges. *)
Lemma get_noop (fuel : nat) (this : wref) (W : World) (w : Watcher) :
  watchers W !! this = Some w → getter w = GNoop → deps w = [] → 0 < fuel →
  ∃ W5,
    get H fuel this W = (W5, Normal VUndefined) ∧
    watchers W5 !! this
    = Some (set_newDeps [] (set_deps (newDeps w)
              (set_newDepIds ∅ (set_depIds (newDepIds w) w)))) ∧
    depHeap W5 = depHeap W ∧ targetStack W5 = targetStack W ∧
    queue W5 = queue W ∧ trace W5 = trace W ∧ vms W5 = vms W.
Proof.
  intros Hw Hg Hd Hfuel. unfold get. rewrite Hw. unfold call_this_getter. rewrite Hg.
  change (watchers (pushTarget this W) !! this) with (watchers W !! this). rewrite Hw.
  assert (∃ W3, (if deep w then traverse fuel VUndefined (pushTarget this W)
                 else Some (pushTarget this W)) = Some W3 ∧
                watchers W3 = watchers W ∧ depHeap W3 = depHeap W ∧
                targetStack W3 = this :: targetStack W ∧ queue W3 = queue W ∧
                trace W3 = trace W ∧ vms W3 = vms W) as (W3 & -> & Hw3 & Hd3 & Hs3 & Hq3 & Ht3 & Hv3).
  { destruct (deep w); [|by eexists].
    destruct fuel as [|fuel]; [lia|]. unfold traverse. rewrite _traverse_S. by eexists. }
  eexists. split; [done|].
  assert (watchers (popTarget W3) !! this = Some w) as Hw4.
  { change (watchers (popTarget W3)) with (watchers W3). by rewrite Hw3. }
  split; [by apply cleanupDeps_watcher|].
  unfold cleanupDeps. rewrite Hw4, Hd. cbn. rewrite Hs3. done.
Qed.

(** X5: a path that [parsePath] rejects fails softly.  The constructor
    returns a subscriber with the no-op getter, the value [undefined] and
    no edges; it warns once unless the build is a production build, adds
    the subscriber to its component's list, and leaves registries, stack
    and queue as they were. *)
Theorem Watcher_new_bad_path (fuel : nat) (vm0 : vref) (s : string) (cb0 : fnref)
    (options : option Options) (W : World) :
  parsePath H s = None → 0 < fuel →
  ∃ W' this w,
    Watcher_new H fuel vm0 (EString s) cb0 options W = (W', Normal this) ∧
    watchers W !! this = None ∧
    watchers W' !! this = Some w ∧
    getter w = GNoop ∧ value w = VUndefined ∧ active w = true ∧
    deps w = [] ∧ depIds w = ∅ ∧ newDeps w = [] ∧ newDepIds w = ∅ ∧
    depHeap W' = depHeap W ∧ targetStack W' = targetStack W ∧
    queue W' = queue W ∧
    trace W' = trace W ++ EvConsoleLog "Wather-"
                 :: (if production W then []
                     else [EvWarn (msg_failed_watching s) vm0]) ∧
    (∀ c, vms W !! vm0 = Some c →
       vms W' !! vm0 = Some (mkComponent (_watchers c ++ [this]) (_isBeingDestroyed c))).
Proof.
  intros Hp Hfuel. unfold Watcher_new. rewrite Hp.
  set (this := fresh (dom (watchers (emit _ W)))).
  assert (watchers W !! this = None) as Hfresh.
  { apply not_elem_of_dom. apply (is_fresh (dom (watchers W))). }
  assert (∀ (wn : Watcher) (W3 : World),
            getter wn = GNoop → value wn = VUndefined → active wn = true →
            deps wn = [] → depIds wn = ∅ → newDeps wn = [] → newDepIds wn = ∅ →
            ∃ W' w,
              (if lazy wn then (set_watchers (insert this wn) W3, Normal this)
               else match get H fuel this (set_watchers (insert this wn) W3) with
                    | (W5, Normal v) => (upd_watcher this (set_value v) W5, Normal this)
                    | (W5, Throw e) => (W5, Throw e)
                    | (W5, OutOfFuel) => (W5, OutOfFuel)
                    end) = (W', Normal this) ∧
              watchers W' !! this = Some w ∧
              getter w = GNoop ∧ value w = VUndefined ∧ active w = true ∧
              deps w = [] ∧ depIds w = ∅ ∧ newDeps w = [] ∧ newDepIds w = ∅ ∧
              depHeap W' = depHeap W3 ∧ targetStack W' = targetStack W3 ∧
              queue W' = queue W3 ∧ trace W' = trace W3 ∧ vms W' = vms W3) as Hfin.
  { intros wn W3 Hg Hv Ha Hd Hi Hnd Hni. destruct (lazy wn).
    - eexists _, wn. split; [done|]. cbn [set_watchers watchers].
      rewrite lookup_insert_eq. done.
    - destruct (get_noop fuel this (set_watchers (insert this wn) W3) wn)
        as (W5 & -> & Hw5 & Hd5 & Hs5 & Hq5 & Ht5 & Hv5);
        [apply lookup_insert_eq|done..|].
      eexists _, _. split; [done|].
      cbn [upd_watcher set_watchers watchers depHeap targetStack queue trace vms].
      rewrite lookup_alter_eq, Hw5. split; [done|]. simpl.
      rewrite Hg, Ha, Hnd, Hni. done. }
  destruct options as [o|]; cbn zeta; cbn [production set_uid set_vms emit];
    destruct (production W);
    match goal with
    | |- context [set_watchers (insert this ?wn) ?W3] =>
        destruct (Hfin wn W3) as (W' & w & Heq & Hw & Hg & Hv & Ha & Hd & Hi & Hnd & Hni
                                  & Hdh & Hts & Hq & Htr & Hvm); try done
    end;
    (exists W', this, w; cbn [lazy] in Heq; rewrite Heq, Hdh, Hts, Hq, Htr, Hvm;
     split_and!; try done;
     try (by cbn [trace warn emit set_uid set_vms]; rewrite <- app_assoc);
     intros c Hc; cbn [vms set_watchers set_uid set_vms warn emit];
     by rewrite lookup_alter_eq, Hc).
Qed.
End Bad_path.

(** [Watcher_new_bad_path] on the expression [a+b], outside production. *)
Lemma Watcher_new_bad_path_witness :
  ∃ W' this w,
    Watcher_new host_quiet 1 0 (EString "a+b") 0 None
      (world_with {[0 := plain_watcher]} ∅) = (W', Normal this) ∧
    watchers W' !! this = Some w ∧
    getter w = GNoop ∧ value w = VUndefined ∧ deps w = [] ∧
    trace W' = [EvConsoleLog "Wather-"; EvWarn (msg_failed_watching "a+b") 0].
Proof.
  destruct (Watcher_new_bad_path host_quiet 1 0 "a+b" 0 None
              (world_with {[0 := plain_watcher]} ∅) eq_refl)
    as (W' & this & w & Heq & _ & Hw & Hg & Hv & _ & Hd & _ & _ & _ & _ & _ & _ & Ht & _);
    [lia|].
  exists W', this, w. split; [exact Heq|]. split; [exact Hw|].
  split; [exact Hg|]. split; [exact Hv|]. split; [exact Hd|exact Ht].
Defined.

(** ** More on the deep traversal *)

Lemma only_reached_refl h val0 W : only_reached h val0 W W.
Proof.
  split; [apply extends_refl|]. split; [by left|].
  intros T e Ht He. rewrite <- (app_nil_r (trace W)) in Ht at 1.
  apply app_inv_head in Ht as <-. by apply elem_of_nil in He.
Qed.

Lemma only_reached_trans h val0 W1 W2 W3 :
  only_reached h val0 W1 W2 → only_reached h val0 W2 W3 → only_reached h val0 W1 W3.
Proof.
  intros (He1 & Hs1 & Ht1) (He2 & Hs2 & Ht2).
  split; [by apply (extends_trans _ W2)|]. split.
  - intros d Hd. destruct (Hs2 d Hd) as [Hd2|?]; [by apply Hs1|by right].
  - intros T e HT He.
    destruct He1 as (_ & _ & T1 & HT1), He2 as (_ & _ & T2 & HT2).
    assert (T = T1 ++ T2) as ->.
    { apply (app_inv_head (trace W1)). by rewrite <- HT, HT2, HT1, app_assoc. }
    apply elem_of_app in He as [He|He]; [by apply (Ht1 T1)|by apply (Ht2 T2)].
Qed.

Section Only_reached.
Variables (h : gmap oref Obj) (val0 : Value).

Lemma _traverse_only_reached fuel :
  ∀ val W W', objs W = h → (∀ o, val = VRef o → reach h val0 o) →
    _traverse fuel val W = Some W' → only_reached h val0 W W'.
Proof.
  induction fuel as [|fuel IH]; intros val W W' HW Hreach; [done|].
  rewrite _traverse_S.
  destruct val as [| | | | |o]; try (intros [= <-]; apply only_reached_refl).
  destruct (objs W !! o) as [ob|] eqn:Ho; [|intros [= <-]; apply only_reached_refl].
  destruct (isExtensible ob) eqn:Hx; [|intros [= <-]; apply only_reached_refl].
  rewrite HW in Ho. specialize (Hreach o eq_refl).
  assert (∀ W0, objs W0 = h →
            traverse_children (_traverse fuel) o (length (props ob)) W0 = Some W' →
            only_reached h val0 W0 W') as Hloop.
  { intros W0 HW0.
    apply (traverse_children_inv (λ _, only_reached h val0) _ o ob h); try done.
    - intros v W1 W2 Hv. by destruct (_traverse_extends _ _ _ _ Hv).
    - intros W1 _. apply only_reached_refl.
    - intros i p W1 W2 W3 HW1 Hp Hv HW2 H23.
      assert (objs W1 !! o = Some ob) as Ho1 by (by rewrite HW1).
      destruct (readProp_spec o i W1 ob p Ho1 Hp) as (_ & Hr1 & Hr2 & Hr3).
      apply (only_reached_trans _ _ _ (readProp o i W1).2).
      { split; [by apply (extends_readProp o i W1 ob p)|].
        split; [intros d Hd; left; by rewrite <- Hr2|].
        intros T e HT He. rewrite Hr3 in HT. apply app_inv_head in HT as <-.
        apply list_elem_of_singleton in He as ->.
        exists o, i, ob. split_and!; try done. by apply lookup_lt_Some in Hp. }
      apply (only_reached_trans _ _ _ W2); [|done].
      apply (IH (pval p) _ _ (eq_trans Hr1 HW1)); [|done].
      intros c Hc. apply (reach_child h val0 o ob p c); try done.
      by apply list_elem_of_lookup_2 in Hp. }
  destruct (ob_depId ob) as [d|] eqn:Hd; [|by apply Hloop].
  destruct (decide (d ∈ seenObjects W)); [intros [= <-]; apply only_reached_refl|].
  intros Hl. apply (only_reached_trans _ _ _ (set_seenObjects (λ s, {[d]} ∪ s) W)).
  - split; [apply extends_mark|]. split.
    + intros d' [->%elem_of_singleton|Hd']%elem_of_union; [|by left].
      right. by exists o, ob.
    + intros T e HT He. cbn in HT. rewrite <- (app_nil_r (trace W)) in HT at 1.
      apply app_inv_head in HT as <-. by apply elem_of_nil in He.
  - by apply Hloop.
Qed.
End Only_reached.

(** X7: a top-level traversal that returns has recorded only marker ids
    of extensible composites reachable from the value, and has read only
    properties, within bounds, of extensible composites reachable from it:
    nothing behind a non-extensible composite is touched. *)
Theorem traverse_only_reachable (fuel : nat) (val : Value) (W W' : World) :
  traverse fuel val W = Some W' →
  (∀ d, d ∈ seenObjects W' →
     ∃ o ob, reach (objs W) val o ∧ objs W !! o = Some ob ∧
             isExtensible ob = true ∧ ob_depId ob = Some d) ∧
  (∀ T e, trace W' = trace W ++ T → e ∈ T →
     ∃ o i ob, e = EvTouch o i ∧ reach (objs W) val o ∧ objs W !! o = Some ob ∧
               isExtensible ob = true ∧ i < length (props ob)).
Proof.
  unfold traverse. intros Htr.
  apply (_traverse_only_reached (objs W) val) in Htr as (_ & Hs & Ht); try done.
  - split; [|exact Ht]. intros d Hd. destruct (Hs d Hd) as [Hin|?]; [|done].
    cbn in Hin. by apply not_elem_of_empty in Hin.
  - intros o ->. by apply reach_root.
Qed.

(** [traverse_only_reachable] on the walk of [cyclic_world]: the id 5
    it has recorded is the marker of a composite it reaches. *)
Lemma traverse_only_reachable_witness :
  ∃ o ob, reach (objs cyclic_world) (VRef 0) o ∧ objs cyclic_world !! o = Some ob ∧
          isExtensible ob = true ∧ ob_depId ob = Some 5.
Proof.
  apply (proj1 (traverse_only_reachable 3 (VRef 0) cyclic_world cyclic_walked eq_refl) 5).
  change (5 ∈ ({[5]} : gset nat)). apply elem_of_singleton. reflexivity.
Defined.

Lemma walk_frame_refl W : walk_frame W W.
Proof. unfold walk_frame. split_and!; done. Qed.

Lemma walk_frame_trans W1 W2 W3 : walk_frame W1 W2 → walk_frame W2 W3 → walk_frame W1 W3.
Proof.
  unfold walk_frame, Dep_target.
  intros (Ho1 & Hv1 & Hu1 & Hq1 & Hs1 & Hc1 & Hp1 & Hi1 & Hw1 & Hn1)
         (Ho2 & Hv2 & Hu2 & Hq2 & Hs2 & Hc2 & Hp2 & Hi2 & Hw2 & Hn2).
  rewrite Hs1 in Hw2, Hn2.
  split_and!; try congruence;
    try (intros x Hx; by rewrite Hw2, Hw1).
  intros Hnone. destruct (Hn1 Hnone), (Hn2 Hnone). split; congruence.
Qed.

Lemma walk_frame_readProp o i W : walk_frame W (readProp o i W).2.
Proof.
  unfold readProp. destruct (objs W !! o) as [ob|]; [|apply walk_frame_refl].
  destruct (props ob !! i) as [p|]; [|apply walk_frame_refl]. cbn [snd].
  destruct (pdep p) as [d|]; [|unfold walk_frame; split_and!; done].
  unfold Dep_depend.
  change (Dep_target (emit (EvTouch o i) W)) with (Dep_target W).
  destruct (Dep_target W) as [t|] eqn:Ht; [|unfold walk_frame; split_and!; done].
  destruct (addDep_frame t d (emit (EvTouch o i) W)) as (Hv & Hu & Hq & Hc & Hp).
  destruct (addDep_objs t d (emit (EvTouch o i) W)) as (Ho & _).
  unfold walk_frame. rewrite Ho, Hv, Hu, Hq, Hc, Hp, addDep_targetStack.
  split_and!; try done.
  - intros d'. by rewrite depId_addDep.
  - intros x Hx. rewrite addDep_others; [done|]. rewrite Ht in Hx. congruence.
  - by rewrite Ht.
Qed.

Lemma _traverse_walk_frame fuel :
  ∀ val W W', _traverse fuel val W = Some W' → walk_frame W W'.
Proof.
  induction fuel as [|fuel IH]; intros val W W'; [done|].
  rewrite _traverse_S.
  destruct val as [| | | | |o]; try (intros [= <-]; apply walk_frame_refl).
  destruct (objs W !! o) as [ob|] eqn:Ho; [|intros [= <-]; apply walk_frame_refl].
  destruct (isExtensible ob); [|intros [= <-]; apply walk_frame_refl].
  assert (∀ W0, objs W0 = objs W →
            traverse_children (_traverse fuel) o (length (props ob)) W0 = Some W' →
            walk_frame W0 W') as Hloop.
  { intros W0 HW0.
    apply (traverse_children_inv (λ _, walk_frame) _ o ob (objs W)); try done.
    - intros v W1 W2 Hv. by destruct (_traverse_extends _ _ _ _ Hv).
    - intros i p W1 W2 W3 _ _ Hv _ H23.
      apply (walk_frame_trans _ _ _ (walk_frame_readProp o i W1)).
      apply (walk_frame_trans _ W2); [by apply IH in Hv|done]. }
  destruct (ob_depId ob) as [d|]; [|by apply Hloop].
  destruct (decide (d ∈ seenObjects W)); [intros [= <-]; apply walk_frame_refl|].
  intros Hl. apply (walk_frame_trans _ (set_seenObjects (λ s, {[d]} ∪ s) W)).
  - unfold walk_frame. split_and!; done.
  - by apply Hloop.
Qed.

(** X8: a traversal that returns leaves the object graph, the components,
    the queue, the stack, the configuration and the ids of the publishers
    as they were.  The only subscriber it can change is the one on top of
    the stack, and with nobody evaluating it changes no subscriber and no
    registry at all. *)
Theorem traverse_frame (fuel : nat) (val : Value) (W W' : World) :
  traverse fuel val W = Some W' →
  objs W' = objs W ∧ vms W' = vms W ∧ uid W' = uid W ∧ queue W' = queue W ∧
  targetStack W' = targetStack W ∧
  config_errorHandler W' = config_errorHandler W ∧ production W' = production W ∧
  (∀ d, depId W' d = depId W d) ∧
  (∀ x, Dep_target W ≠ Some x → watchers W' !! x = watchers W !! x) ∧
  (Dep_target W = None → watchers W' = watchers W ∧ depHeap W' = depHeap W).
Proof.
  unfold traverse. intros Htr. by apply _traverse_walk_frame in Htr.
Qed.

(** [traverse_frame] on the walk of [cyclic_world], made with nobody
    evaluating. *)
Lemma traverse_frame_witness :
  watchers cyclic_walked = watchers cyclic_world ∧
  depHeap cyclic_walked = depHeap cyclic_world.
Proof.
  exact (proj2 (proj2 (proj2 (proj2 (proj2 (proj2 (proj2 (proj2 (proj2
           (traverse_frame 3 (VRef 0) cyclic_world cyclic_walked eq_refl)))))))))
           eq_refl).
Defined.

(** ** Deep subscribers *)

(** Every property of every extensible composite a walk reaches is read. *)
Lemma traverse_touches_reached (fuel : nat) (val : Value) (W W' : World)
    (T : list Event) :
  markers_unique (objs W) →
  traverse fuel val W = Some W' → trace W' = trace W ++ T →
  ∀ o ob i, reach (objs W) val o → objs W !! o = Some ob →
    isExtensible ob = true → i < length (props ob) → EvTouch o i ∈ T.
Proof.
  intros Hu Htr HT. unfold traverse in Htr.
  set (W0 := set_seenObjects (λ _, ∅) W) in *.
  destruct (_traverse_walked (objs W) fuel val W0 W' eq_refl Htr)
    as [_ (T' & Ht' & Hen & Hcl)].
  assert (T' = T) as -> by (apply (app_inv_head (trace W)); by rewrite <- HT, Ht').
  assert (∀ o ob d i, objs W !! o = Some ob → ob_depId ob = Some d →
            d ∈ seenObjects W' → i < length (props ob) → EvTouch o i ∈ T) as Honce.
  { intros o ob d i Ho Hd Hin Hi.
    destruct (_traverse_reads_once (objs W) o ob d i Ho Hd) with fuel val W0 W'
      as [_ (T' & Ht'' & Hc)]; try done.
    { intros o' ob' Ho' Hd'. by apply (Hu o' o ob' ob d). }
    assert (T' = T) as -> by (apply (app_inv_head (trace W0)); congruence).
    apply touches_pos_elem. rewrite Hc. unfold in_range.
    rewrite decide_True by (split; [set_solver|done]).
    rewrite decide_True by done. lia. }
  assert (∀ o, reach (objs W) val o → entered (objs W) (seenObjects W') T (VRef o))
    as Hreach.
  { induction 1 as [o ->|o ob p c _ IH Ho Hx Hp Hc]; [done|].
    apply list_elem_of_lookup_1 in Hp as [i Hi].
    rewrite <- Hc. apply (Hcl o i ob p); [|done|done].
    specialize (IH o ob eq_refl Ho Hx).
    assert (i < length (props ob)) as Hlt by (by apply lookup_lt_Some in Hi).
    destruct (ob_depId ob) as [d|] eqn:Hd; [|by apply IH].
    by apply (Honce o ob d i). }
  intros o ob i Hr Ho Hx Hi. specialize (Hreach o Hr o ob eq_refl Ho Hx).
  destruct (ob_depId ob) as [d|] eqn:Hd; [|by apply Hreach].
  by apply (Honce o ob d i).
Qed.

Section Registers.
Variables (h : gmap oref Obj) (t : wref).

Lemma registers_refl W : registers h t W W.
Proof.
  split; [apply extends_refl|]. split; [apply walk_frame_refl|].
  intros wt Hwt. exists wt. split; [done|]. split; [apply same_settings_refl|].
  split; [done|]. intros T o i ob p d k HT Hin.
  rewrite <- (app_nil_r (trace W)) in HT at 1.
  apply app_inv_head in HT as <-. by apply elem_of_nil in Hin.
Qed.

Lemma registers_trans W1 W2 W3 :
  registers h t W1 W2 → registers h t W2 W3 → registers h t W1 W3.
Proof.
  intros (He1 & Hf1 & Hr1) (He2 & Hf2 & Hr2).
  split; [by apply (extends_trans _ W2)|].
  split; [by apply (walk_frame_trans _ W2)|].
  intros wt Hwt. destruct (Hr1 wt Hwt) as (w2 & Hw2 & Hs2 & Hi2 & Ht2).
  destruct (Hr2 w2 Hw2) as (w3 & Hw3 & Hs3 & Hi3 & Ht3).
  exists w3. split; [done|]. split; [by apply (same_settings_trans _ w2)|].
  split; [set_solver|].
  intros T o i ob p d k HT Hin Ho Hp Hd Hk.
  destruct He1 as (_ & _ & T1 & HT1), He2 as (_ & _ & T2 & HT2).
  assert (T = T1 ++ T2) as ->.
  { apply (app_inv_head (trace W1)). by rewrite <- HT, HT2, HT1, app_assoc. }
  apply elem_of_app in Hin as [Hin|Hin].
  - apply Hi3. by apply (Ht2 T1 o i ob p d k).
  - apply (Ht3 T2 o i ob p d k); try done.
    destruct Hf1 as (_ & _ & _ & _ & _ & _ & _ & Hid & _). by rewrite Hid.
Qed.

Lemma registers_readProp o i W ob p :
  objs W = h → h !! o = Some ob → props ob !! i = Some p →
  Dep_target W = Some t →
  registers h t W (readProp o i W).2.
Proof.
  intros HW Ho Hp Ht.
  assert (objs W !! o = Some ob) as Ho' by (by rewrite HW).
  split; [by apply (extends_readProp o i W ob p)|].
  split; [apply walk_frame_readProp|].
  destruct (readProp_spec o i W ob p Ho' Hp) as (_ & _ & _ & Htr).
  intros wt Hwt.
  assert (∀ wt', newDepIds wt ⊆ newDepIds wt' →
            (∀ d k, pdep p = Some d → depId W d = Some k → k ∈ newDepIds wt') →
            ∀ T o' i' ob' p' d k,
              trace (readProp o i W).2 = trace W ++ T → EvTouch o' i' ∈ T →
              h !! o' = Some ob' → props ob' !! i' = Some p' → pdep p' = Some d →
              depId W d = Some k → k ∈ newDepIds wt') as Hev.
  { intros wt' _ Hreg T o' i' ob' p' d k HT Hin Ho2 Hp2 Hd Hk.
    rewrite Htr in HT. apply app_inv_head in HT as <-.
    apply list_elem_of_singleton in Hin. injection Hin as -> ->.
    assert (ob' = ob) as -> by congruence. assert (p' = p) as -> by congruence.
    by apply (Hreg d k). }
  unfold readProp. rewrite Ho', Hp. cbn [snd].
  unfold readProp in Hev. rewrite Ho', Hp in Hev. cbn [snd] in Hev.
  destruct (pdep p) as [d|] eqn:Hd.
  - unfold Dep_depend in *.
    change (Dep_target (emit (EvTouch o i) W)) with (Dep_target W) in *.
    rewrite Ht in *.
    destruct (addDep_staging t d (emit (EvTouch o i) W) wt Hwt)
      as (wt' & Hw' & Hs' & _ & _ & Hn' & _).
    exists wt'. split; [done|]. split; [done|]. split; [set_solver|].
    apply Hev; [set_solver|]. intros d' k [= <-] Hk. rewrite Hn'.
    apply elem_of_union_r, elem_of_list_to_set. unfold ids_of. csimpl.
    change (depId (emit (EvTouch o i) W) d) with (depId W d). by rewrite Hk; left.
  - exists wt. split; [done|]. split; [apply same_settings_refl|]. split; [done|].
    by apply Hev.
Qed.

Lemma _traverse_registers fuel :
  ∀ val W W', objs W = h → Dep_target W = Some t →
    _traverse fuel val W = Some W' → registers h t W W'.
Proof.
  induction fuel as [|fuel IH]; intros val W W' HW Ht; [done|].
  rewrite _traverse_S.
  destruct val as [| | | | |o]; try (intros [= <-]; apply registers_refl).
  destruct (objs W !! o) as [ob|] eqn:Ho; [|intros [= <-]; apply registers_refl].
  destruct (isExtensible ob); [|intros [= <-]; apply registers_refl].
  rewrite HW in Ho.
  assert (∀ W0, objs W0 = h → Dep_target W0 = Some t →
            traverse_children (_traverse fuel) o (length (props ob)) W0 = Some W' →
            registers h t W0 W') as Hloop.
  { intros W0 HW0 Ht0 Hl. revert Ht0.
    apply (traverse_children_inv
             (λ _ W1 W2, Dep_target W1 = Some t → registers h t W1 W2)
             (_traverse fuel) o ob h) with (length (props ob)); try done.
    - intros v W1 W2 Hv. by destruct (_traverse_extends _ _ _ _ Hv).
    - intros W1 _ _. apply registers_refl.
    - intros i p W1 W2 W3 HW1 Hp Hv HW2 H23 Ht1.
      pose proof (registers_readProp o i W1 ob p HW1 Ho Hp Ht1) as Hr1.
      assert (Dep_target (readProp o i W1).2 = Some t) as Ht1'.
      { unfold Dep_target. by rewrite readProp_targetStack. }
      assert (objs (readProp o i W1).2 = h) as HW1'.
      { destruct Hr1 as ((-> & _) & _). done. }
      pose proof (IH _ _ _ HW1' Ht1' Hv) as Hr2.
      assert (Dep_target W2 = Some t) as Ht2.
      { destruct Hr2 as (_ & (_ & _ & _ & _ & Hst & _) & _).
        unfold Dep_target in *. by rewrite Hst. }
      apply (registers_trans _ _ _ Hr1). apply (registers_trans _ _ _ Hr2).
      by apply H23. }
  destruct (ob_depId ob) as [d|]; [|by apply Hloop].
  destruct (decide (d ∈ seenObjects W)); [intros [= <-]; apply registers_refl|].
  intros Hl. apply (registers_trans _ (set_seenObjects (λ s, {[d]} ∪ s) W)).
  - split; [apply extends_mark|]. split; [unfold walk_frame; split_and!; done|].
    intros wt Hwt. exists wt. split; [done|]. split; [apply same_settings_refl|].
    split; [done|]. intros T o' i' ob' p' d' k HT Hin. cbn in HT.
    rewrite <- (app_nil_r (trace W)) in HT at 1.
    apply app_inv_head in HT as <-. by apply elem_of_nil in Hin.
  - by apply Hloop.
Qed.
End Registers.

Section Deep_get.
Variable H : Host.

(** X9: when the watched function of a deep subscriber returns a value,
    leaving the subscriber on top of the stack, and [get] returns, the id
    of the publisher of every instrumented property of every extensible
    composite reachable from the value is in the subscriber's current id
    set, together with every id staged before the traversal. *)
Theorem deep_get_tracks_nested (fuel : nat) (this : wref) (W W1 W' : World)
    (w w1 : Watcher) (v v' : Value) :
  watchers W !! this = Some w →
  call_this_getter H w (pushTarget this W) = (W1, Normal v) →
  watchers W1 !! this = Some w1 → deep w1 = true →
  Dep_target W1 = Some this →
  markers_unique (objs W1) →
  get H fuel this W = (W', Normal v') →
  v' = v ∧
  ∃ w', watchers W' !! this = Some w' ∧
        newDepIds w1 ⊆ depIds w' ∧
        ∀ o ob i p d k,
          reach (objs W1) v o → objs W1 !! o = Some ob → isExtensible ob = true →
          props ob !! i = Some p → pdep p = Some d → depId W1 d = Some k →
          k ∈ depIds w'.
Proof.
  intros Hw Hg Hw1 Hdeep Ht Hu Hget. unfold get in Hget.
  rewrite Hw, Hg, Hw1, Hdeep in Hget.
  destruct (traverse fuel v W1) as [W3|] eqn:Htr; [|discriminate Hget].
  injection Hget as <- <-. split; [done|].
  pose proof Htr as Hreg. unfold traverse in Hreg.
  apply (_traverse_registers (objs W1) this) in Hreg as ((_ & _ & T & HT) & _ & Hreg);
    [|done|done].
  destruct (Hreg w1 Hw1) as (w3 & Hw3 & _ & Hsub & Hev).
  eexists. split; [by apply (cleanupDeps_watcher this (popTarget W3) w3)|].
  cbn [depIds set_newDeps set_deps set_newDepIds set_depIds]. split; [done|].
  intros o ob i p d k Hr Ho Hx Hp Hd Hk.
  apply (Hev T o i ob p d k); try done.
  apply (traverse_touches_reached fuel v W1 W3 T Hu Htr HT o ob i Hr Ho Hx).
  by apply lookup_lt_Some in Hp.
Qed.
End Deep_get.

Lemma cond_objs_markers_unique flag : markers_unique (cond_objs flag).
Proof.
  intros o1 o2 ob1 ob2 d Ho1 _ Hd1 _. unfold cond_objs in Ho1.
  apply lookup_singleton_Some in Ho1 as [<- <-]. discriminate Hd1.
Qed.

(** [deep_get_tracks_nested] where the watched function returns the data
    object without reading any of its properties. *)
Lemma deep_get_tracks_nested_witness :
  ∃ w', watchers (get (host_of (reading [] (VRef 0)) returning) 3 0 deep_world).1 !! 0
        = Some w' ∧
        11 ∈ depIds w'.
Proof.
  assert (get (host_of (reading [] (VRef 0)) returning) 3 0 deep_world
          = ((get (host_of (reading [] (VRef 0)) returning) 3 0 deep_world).1,
             Normal (VRef 0))) as Hget by (vm_compute; reflexivity).
  destruct (deep_get_tracks_nested (host_of (reading [] (VRef 0)) returning) 3 0
              deep_world (pushTarget 0 deep_world) _
              deep_watcher deep_watcher (VRef 0) (VRef 0)
              eq_refl eq_refl eq_refl eq_refl eq_refl
              (cond_objs_markers_unique true) Hget)
    as (_ & w' & Hw' & _ & Hall).
  exists w'. split; [exact Hw'|].
  apply (Hall 0 _ 1 (mkProp (VNum 1) (Some 1)) 1 11
           (reach_root _ _ 0 eq_refl) eq_refl eq_refl eq_refl eq_refl eq_refl).
Defined.

(** ** Cancellation and silence *)

Lemma teardown_watcher this W w :
  watchers W !! this = Some w →
  ∃ w', watchers (teardown this W) !! this = Some w' ∧ active w' = false ∧
        lazy w' = lazy w ∧ sync w' = sync w ∧ dirty w' = dirty w ∧
        value w' = value w ∧ deps w' = deps w ∧ depIds w' = depIds w.
Proof.
  intros Hw. destruct (active w) eqn:Ha.
  - rewrite (teardown_active _ _ _ Hw Ha). cbn [upd_watcher set_watchers watchers].
    rewrite lookup_alter_eq, watchers_unsubscribe.
    assert (∀ W1, watchers W1 = watchers W → watchers W1 !! this = Some w) as Hk.
    { by intros W1 ->. }
    rewrite (Hk _) by (repeat case_match; done). by eexists.
  - exists w. unfold teardown. rewrite Hw, Ha. done.
Qed.

Section Cancelled.
Variable H : Host.

(** X10: once [teardown] has been called, [run] never evaluates the
    subscriber again, whatever its state was: it returns at once, and so
    does [update] on a sync subscriber; [update] on a batched one only
    queues it.  The bookkeeping of the subscriber itself is not cleared:
    [deps] and [depIds] keep the edges it held. *)
Theorem cancelled_never_runs (fuel : nat) (this : wref) (W : World) (w : Watcher) :
  watchers W !! this = Some w →
  run H fuel this (teardown this W) = (teardown this W, Normal tt) ∧
  (lazy w = false → sync w = true →
     update H fuel this (teardown this W) = (teardown this W, Normal tt)) ∧
  (lazy w = false → sync w = false →
     update H fuel this (teardown this W)
     = (queueWatcher this (teardown this W), Normal tt)) ∧
  ∃ w', watchers (teardown this W) !! this = Some w' ∧
        deps w' = deps w ∧ depIds w' = depIds w.
Proof.
  intros Hw.
  destruct (teardown_watcher this W w Hw) as (w' & Hw' & Ha & Hl & Hs & _ & _ & Hd & Hi).
  assert (run H fuel this (teardown this W) = (teardown this W, Normal tt)) as Hrun.
  { unfold run. by rewrite Hw', Ha. }
  split; [exact Hrun|]. unfold update. rewrite Hw', Hl, Hs, Hrun.
  split; [by intros -> ->|]. split; [by intros -> ->|]. by exists w'.
Qed.
End Cancelled.

(** [cancelled_never_runs] on the subscriber of [diff_world]. *)
Lemma cancelled_never_runs_witness :
  run host_quiet 0 0 (teardown 0 diff_world) = (teardown 0 diff_world, Normal tt).
Proof.
  exact (proj1 (cancelled_never_runs host_quiet 0 0 diff_world diff_watcher eq_refl)).
Defined.

Lemma strict_neq_same (v : Value) :
  strict_neq v v = match v with VNum x => PrimFloat.is_nan x | _ => false end.
Proof.
  destruct v as [| |b|x|s|o]; simpl; try done.
  - by destruct b.
  - by rewrite String.eqb_refl.
  - by rewrite Nat.eqb_refl.
Qed.

Section Silence.
Variable H : Host.

(** X11: a re-evaluation that yields the stored value again is silent for
    a subscriber that is not deep when the value is a primitive other than
    [NaN]: [run] ends right after [get], and the callback is not called.
    It is not silent for a composite, for a deep subscriber, or for
    [NaN], which differs from itself: the callback is then called with the
    same value twice. *)
Theorem run_same_value (fuel : nat) (this : wref) (W W1 : World)
    (w w1 : Watcher) (v : Value) :
  watchers W !! this = Some w → active w = true →
  get H fuel this W = (W1, Normal v) →
  watchers W1 !! this = Some w1 → value w1 = v →
  (deep w1 = false → isObject v = false →
   (∀ x, v = VNum x → PrimFloat.is_nan x = false) →
   run H fuel this W = (W1, Normal tt)) ∧
  (deep w1 = true ∨ isObject v = true ∨ (∃ x, v = VNum x ∧ PrimFloat.is_nan x = true) →
   run H fuel this W = invoke_cb H w1 v v (upd_watcher this (set_value v) W1)).
Proof.
  intros Hw Ha Hget Hw1 Hv. unfold run. rewrite Hw, Ha, Hget, Hw1.
  unfold should_fire. rewrite Hv, strict_neq_same. split.
  - intros -> -> Hnan. destruct v as [| | |x| |]; try done.
    by rewrite (Hnan x eq_refl).
  - intros [->|[->|(x & -> & ->)]]; [by rewrite !orb_true_r|by rewrite orb_true_r|done].
Qed.
End Silence.

(** [run_same_value] on a subscriber whose function returns the stored
    [undefined] again. *)
Lemma run_same_value_witness :
  run (host_of (reading [] VUndefined) returning) 0 0
      (world_with {[0 := plain_watcher]} ∅)
  = (world_with {[0 := plain_watcher]} ∅, Normal tt).
Proof.
  refine (proj1 (run_same_value (host_of (reading [] VUndefined) returning) 0 0
                   (world_with {[0 := plain_watcher]} ∅)
                   (world_with {[0 := plain_watcher]} ∅)
                   plain_watcher plain_watcher VUndefined _ _ _ _ _) _ _ _);
    try reflexivity.
  intros x Hx. discriminate Hx.
Defined.

(** ** The edge invariant across the entry points *)

Lemma reads_steps ds W : rtc engine_step W (reads ds W).
Proof.
  revert W. induction ds as [|d ds IH]; intros W; [done|].
  change (reads (d :: ds) W) with (reads ds (Dep_depend d W)).
  eapply rtc_l; [apply step_Dep_depend|apply IH].
Qed.

Section Entry_points.
Variable H : Host.
Hypothesis Hhost : host_steps H.

Lemma evaluate_steps fuel this W : rtc engine_step W (evaluate H fuel this W).1.
Proof.
  unfold evaluate. pose proof (get_steps H Hhost fuel this W) as Hg.
  destruct (get H fuel this W) as [W1 [v|e|]]; cbn [fst] in *; try done.
  etrans; [exact Hg|]. eapply rtc_l; [apply (step_set_value this v)|].
  apply rtc_once, step_set_dirty.
Qed.

Lemma depend_steps this W : rtc engine_step W (depend this W).
Proof.
  unfold depend. destruct (watchers W !! this) as [w|] eqn:Hw; [|done].
  rewrite (depend_loop_reads this (deps w) _ W w Hw eq_refl). apply reads_steps.
Qed.

Lemma Watcher_new_world_wf fuel vm0 e cb0 options W :
  world_wf W → world_wf (Watcher_new H fuel vm0 e cb0 options W).1.
Proof.
  intros Hwf.
  assert (∀ (this : wref) (wn : Watcher) (lz : bool) (W3 : World),
            watchers W3 = watchers W → depHeap W3 = depHeap W →
            deps wn = [] → newDeps wn = [] →
            world_wf
              (if lz then (set_watchers (insert this wn) W3, Normal this)
               else match get H fuel this (set_watchers (insert this wn) W3) with
                    | (W5, Normal v) => (upd_watcher this (set_value v) W5, Normal this)
                    | (W5, Throw e) => (W5, Throw e)
                    | (W5, OutOfFuel) => (W5, OutOfFuel)
                    end).1) as Hfin.
  { intros this wn lz W3 Hw3 Hd3 Hd Hnd.
    destruct (first_evaluation_steps H fuel this lz (set_watchers (insert this wn) W3)
                Hhost) as [Hsteps _].
    apply (engine_steps_world_wf _ _ Hsteps).
    intros x wx. cbn [set_watchers watchers]. rewrite Hw3.
    assert (∀ l, ids_of (set_watchers (insert this wn) W3) l = ids_of W l) as Hids.
    { intros l. apply ids_of_ext. intros d. unfold depId. cbn. by rewrite Hd3. }
    unfold edges_wf. rewrite !Hids.
    destruct (decide (x = this)) as [->|Hne].
    - rewrite lookup_insert_eq. intros [= <-]. rewrite Hd, Hnd.
      split_and!; [apply NoDup_nil_2..|]. intros i Hi. by apply elem_of_nil in Hi.
    - rewrite lookup_insert_ne by done. apply (Hwf x). }
  unfold Watcher_new.
  destruct options as [o|]; destruct e as [s|f]; try destruct (parsePath H s);
    cbn zeta;
    match goal with
    | |- context [insert ?this ?wn] =>
        match goal with
        | |- context [set_watchers (insert this wn) ?W3] =>
            apply (Hfin this wn (lazy wn) W3); try done; by destruct (production _)
        end
    end.
Qed.

(** X12: when user code acts on the world through the engine only, every
    entry point of a subscriber ([get], [run], [update], [evaluate],
    [depend], [teardown] and the constructor) keeps, for every subscriber,
    the current and the staging sequence free of repeated publisher ids
    and the staging set in step with the staging sequence. *)
Theorem entry_points_keep_edges_wf (fuel : nat) (this : wref) (W : World) :
  world_wf W →
  world_wf (get H fuel this W).1 ∧
  world_wf (run H fuel this W).1 ∧
  world_wf (update H fuel this W).1 ∧
  world_wf (evaluate H fuel this W).1 ∧
  world_wf (depend this W) ∧
  world_wf (teardown this W) ∧
  (∀ vm0 e cb0 options, world_wf (Watcher_new H fuel vm0 e cb0 options W).1).
Proof.
  intros Hwf. split_and!.
  - apply (engine_steps_world_wf W); [apply (get_steps H Hhost)|done].
  - apply (engine_steps_world_wf W); [apply (run_steps H Hhost)|done].
  - apply (engine_steps_world_wf W); [apply (update_steps H Hhost)|done].
  - apply (engine_steps_world_wf W); [apply evaluate_steps|done].
  - apply (engine_steps_world_wf W); [apply depend_steps|done].
  - by apply teardown_world_wf.
  - intros vm0 e cb0 options. by apply Watcher_new_world_wf.
Qed.
End Entry_points.

Lemma two_deps_world_wf : world_wf two_deps_world.
Proof.
  intros x w Hx. cbn in Hx. apply lookup_singleton_Some in Hx as [<- <-].
  unfold edges_wf. simpl. split_and!; [apply NoDup_nil_2..|].
  intros i Hi. by apply elem_of_nil in Hi.
Qed.

(** [entry_points_keep_edges_wf] on an evaluation that reads publisher 0,
    publisher 1 and publisher 0 again. *)
Lemma entry_points_keep_edges_wf_witness :
  world_wf (get (host_of (reading [0; 1; 0] VNull) returning) 0 0 two_deps_world).1.
Proof.
  refine (proj1 (entry_points_keep_edges_wf
                   (host_of (reading [0; 1; 0] VNull) returning) _ 0 0 two_deps_world
                   two_deps_world_wf)).
  split_and!; intros; try apply rtc_refl. apply reads_steps.
Defined.

(** ** Evaluations drop what they did not read *)

Lemma addDep_depHeap_other t x W d :
  d ≠ x → depHeap (addDep t x W) !! d = depHeap W !! d.
Proof.
  intros Hne. unfold addDep. repeat case_match; try done.
  unfold Dep_addSub. cbn [set_depHeap depHeap upd_watcher set_watchers].
  by rewrite lookup_alter_ne.
Qed.

Lemma reads_depHeap_other d : ∀ ds W,
  d ∉ ds → depHeap (reads ds W) !! d = depHeap W !! d.
Proof.
  induction ds as [|x ds IH]; intros W Hd; [done|].
  change (reads (x :: ds) W) with (reads ds (Dep_depend x W)).
  rewrite IH by set_solver. unfold Dep_depend.
  destruct (Dep_target W) as [t|]; [|done].
  apply addDep_depHeap_other. set_solver.
Qed.

Section Drop.
Variable H : Host.

(** X13: when the watched function of a subscriber that is not deep reads
    the publishers [ds] and returns, [get] takes the subscriber out of the
    registry of every publisher it held that was not read and whose id is
    neither staged nor the id of a publisher read ([deps] listing no
    reference twice and the registry no subscriber twice). *)
Theorem get_unsubscribes_unread (fuel : nat) (this : wref) (W : World) (w : Watcher)
    (ds : list dref) (v : Value) (d : dref) (D : Dep) :
  watchers W !! this = Some w → deep w = false →
  call_this_getter H w (pushTarget this W) = (reads ds (pushTarget this W), Normal v) →
  NoDup (deps w) → d ∈ deps w → d ∉ ds →
  depHeap W !! d = Some D → NoDup (subs D) →
  dep_id D ∉ newDepIds w → dep_id D ∉ ids_of W ds →
  depHeap (get H fuel this W).1 !! d = Some (mkDep (dep_id D) (remove (subs D) this)) ∧
  this ∉ remove (subs D) this.
Proof.
  intros Hw Hdeep Hg Hnd Hin Hout Hd HndS Ho1 Ho2.
  split; [|by apply remove_not_elem].
  rewrite (get_of_reads H fuel this W w ds v Hw Hdeep Hg). cbn [fst].
  destruct (reads_staging this ds (pushTarget this W) w eq_refl Hw)
    as (w2 & Hw2 & _ & Hd2 & _ & Hn2 & _ & _ & Hid & _).
  pose proof (reads_depHeap_other d ds (pushTarget this W) Hout) as Hsame.
  revert Hw2 Hid Hsame. generalize (reads ds (pushTarget this W)).
  intros W2 Hw2 Hid Hsame. cbn in Hsame. rewrite Hd in Hsame.
  unfold cleanupDeps. change (watchers (popTarget W2)) with (watchers W2).
  rewrite Hw2. cbn [upd_watcher set_watchers depHeap].
  rewrite (cleanupDeps_loop_unsubscribe this w2 _ (popTarget W2) Hw2), firstn_all.
  rewrite unsubscribe_lookup by (apply NoDup_filter; by rewrite Hd2).
  change (depHeap (popTarget W2)) with (depHeap W2). rewrite Hsame.
  rewrite decide_True; [done|].
  apply (elem_of_stale_filter (popTarget W2) w2 _ d D Hsame).
  split; [by rewrite Hd2|]. rewrite Hn2.
  intros [?|Hr%elem_of_list_to_set]%elem_of_union; [done|]. by apply Ho2.
Qed.
End Drop.

(** [get_unsubscribes_unread] on the subscriber of [diff_world], whose
    function now reads publisher 0 only. *)
Lemma get_unsubscribes_unread_witness :
  depHeap (get (host_of (reading [0] VNull) returning) 0 0 diff_world).1 !! 1
  = Some (mkDep 11 []).
Proof.
  refine (proj1 (get_unsubscribes_unread (host_of (reading [0] VNull) returning)
                   0 0 diff_world diff_watcher [0] VNull 1 (mkDep 11 [0])
                   _ _ _ _ _ _ _ _ _ _)); try reflexivity.
  - apply NoDup_cons. split; [|apply NoDup_singleton].
    intros Hx. apply list_elem_of_singleton in Hx. discriminate Hx.
  - apply list_elem_of_In. simpl. tauto.
  - intros Hx. apply list_elem_of_singleton in Hx. discriminate Hx.
  - apply NoDup_singleton.
  - simpl. intros Hx. apply elem_of_singleton in Hx. discriminate Hx.
  - intros Hx. apply list_elem_of_singleton in Hx. discriminate Hx.
Defined.

(** ** Construction and teardown *)

Lemma remove_app_fresh (l : list nat) (x : nat) : x ∉ l → remove (l ++ [x]) x = l.
Proof.
  induction l as [|y l IH]; intros Hx; simpl.
  - by rewrite decide_True.
  - rewrite decide_False by set_solver. f_equal. apply IH. set_solver.
Qed.

Section Round_trip.
Variable H : Host.

(** X14: [teardown] undoes the registration made by the constructor.  For
    a lazy subscriber, which is not evaluated when constructed, the
    component's list of subscribers and all registries are, after
    construction and teardown, what they were before, provided the
    component is not being destroyed and lists existing subscribers only;
    the subscriber is left inactive. *)
Theorem teardown_undoes_construction (fuel : nat) (vm0 : vref) (e : ExpOrFn)
    (cb0 : fnref) (o : Options) (W : World) (c : Component) :
  truthy (o_lazy o) = true →
  vms W !! vm0 = Some c → _isBeingDestroyed c = false →
  (∀ x, x ∈ _watchers c → is_Some (watchers W !! x)) →
  ∃ W1 this,
    Watcher_new H fuel vm0 e cb0 (Some o) W = (W1, Normal this) ∧
    vms W1 !! vm0 = Some (mkComponent (_watchers c ++ [this]) false) ∧
    vms (teardown this W1) = vms W ∧
    depHeap (teardown this W1) = depHeap W ∧
    active <$> watchers (teardown this W1) !! this = Some false.
Proof.
  intros Hl Hc Hb Hlist. unfold Watcher_new. rewrite Hl. cbn zeta.
  set (this := fresh (dom (watchers (emit _ W)))).
  assert (this ∉ _watchers c) as Hfresh.
  { intros Hin. apply Hlist in Hin. apply elem_of_dom in Hin.
    by apply (is_fresh (dom (watchers W))) in Hin. }
  assert (∀ (wn : Watcher) (W3 : World),
            vm wn = vm0 → active wn = true → deps wn = [] →
            vms W3 = alter (λ c, mkComponent (_watchers c ++ [this])
                                   (_isBeingDestroyed c)) vm0 (vms W) →
            depHeap W3 = depHeap W →
            vms (set_watchers (insert this wn) W3) !! vm0
              = Some (mkComponent (_watchers c ++ [this]) false) ∧
            vms (teardown this (set_watchers (insert this wn) W3)) = vms W ∧
            depHeap (teardown this (set_watchers (insert this wn) W3)) = depHeap W ∧
            active <$> watchers (teardown this (set_watchers (insert this wn) W3)) !! this
              = Some false) as Hfin.
  { intros wn W3 Hvm Ha Hd Hv3 Hd3.
    assert (vms (set_watchers (insert this wn) W3) !! vm0
            = Some (mkComponent (_watchers c ++ [this]) false)) as Hlook.
    { cbn [set_watchers vms]. by rewrite Hv3, lookup_alter_eq, Hc, <- Hb. }
    split; [exact Hlook|].
    assert (watchers (set_watchers (insert this wn) W3) !! this = Some wn) as Hw
      by apply lookup_insert_eq.
    rewrite (teardown_active _ _ _ Hw Ha), Hd, Hvm, Hlook.
    cbn [unsubscribe foldr _isBeingDestroyed upd_watcher set_watchers set_vms
         vms depHeap watchers _watchers].
    split_and!.
    - rewrite Hv3. apply map_eq. intros x. rewrite !lookup_alter.
      destruct (decide (vm0 = x)) as [<-|]; [|done]. rewrite Hc.
      rewrite decide_True by done. simpl.
      rewrite remove_app_fresh by done. destruct c as [l b]. simpl in *. by subst b.
    - done.
    - by rewrite lookup_alter_eq, lookup_insert_eq.
  }
  destruct e as [s|f]; [destruct (parsePath H s)|];
    eexists _, this; (split; [reflexivity|]);
    match goal with
    | |- context [set_watchers (insert this ?wn) ?W3] => apply (Hfin wn W3); try done
    end; by destruct (production _).
Qed.
End Round_trip.

(** [teardown_undoes_construction] on a lazy subscriber added to the
    component of [plain_watcher]. *)
Lemma teardown_undoes_construction_witness :
  ∃ W1 this,
    Watcher_new host_quiet 0 0 (EFunction 0) 0
      (Some (mkOptions VUndefined VUndefined (VBool true) VUndefined))
      (world_with {[0 := plain_watcher]} ∅) = (W1, Normal this) ∧
    vms (teardown this W1) = vms (world_with {[0 := plain_watcher]} ∅).
Proof.
  destruct (teardown_undoes_construction host_quiet 0 0 (EFunction 0) 0
              (mkOptions VUndefined VUndefined (VBool true) VUndefined)
              (world_with {[0 := plain_watcher]} ∅) (mkComponent [0] false)
              eq_refl eq_refl eq_refl)
    as (W1 & this & Heq & _ & Hv & _).
  - intros x Hx. apply list_elem_of_singleton in Hx as ->. by eexists.
  - exists W1, this. split; [exact Heq|exact Hv].
Defined.

(** ** Evaluations that throw *)

Lemma reads_subs_grow (d : dref) : ∀ ds W D,
  depHeap W !! d = Some D →
  ∃ D', depHeap (reads ds W) !! d = Some D' ∧ dep_id D' = dep_id D ∧
        ∀ s, s ∈ subs D → s ∈ subs D'.
Proof.
  induction ds as [|x ds IH]; intros W D Hd; [by exists D|].
  change (reads (x :: ds) W) with (reads ds (Dep_depend x W)).
  assert (∃ D1, depHeap (Dep_depend x W) !! d = Some D1 ∧ dep_id D1 = dep_id D ∧
                ∀ s, s ∈ subs D → s ∈ subs D1) as (D1 & Hd1 & Hi1 & Hs1).
  { unfold Dep_depend. destruct (Dep_target W) as [t'|]; [|by exists D].
    by apply addDep_subs_grow. }
  destruct (IH _ D1 Hd1) as (D2 & Hd2 & Hi2 & Hs2).
  exists D2. split; [done|]. split; [congruence|]. intros s Hs. by apply Hs2, Hs1.
Qed.

Section Throwing.
Variable H : Host.

(** X15: when the watched function reads the publishers [ds] and then
    throws, [get] ends with the subscriber still on top of the stack and
    with its current edges ([deps], [depIds]) untouched; the ids read stay
    in the staging set, and no registry loses a subscriber: what was
    subscribed during the failed evaluation stays subscribed. *)
Theorem get_throw_keeps_edges (fuel : nat) (this : wref) (W : World) (w : Watcher)
    (ds : list dref) (e : Value) :
  watchers W !! this = Some w →
  call_this_getter H w (pushTarget this W) = (reads ds (pushTarget this W), Throw e) →
  ∃ W' w',
    get H fuel this W = (W', Throw e) ∧
    targetStack W' = this :: targetStack W ∧
    watchers W' !! this = Some w' ∧
    deps w' = deps w ∧ depIds w' = depIds w ∧ same_settings w w' ∧
    newDepIds w' = newDepIds w ∪ list_to_set (ids_of W ds) ∧
    (∀ d D, depHeap W !! d = Some D →
       ∃ D', depHeap W' !! d = Some D' ∧ dep_id D' = dep_id D ∧
             ∀ s, s ∈ subs D → s ∈ subs D').
Proof.
  intros Hw Hg. unfold get. rewrite Hw, Hg.
  destruct (reads_staging this ds (pushTarget this W) w eq_refl Hw)
    as (w2 & Hw2 & Hs2 & Hd2 & Hi2 & Hn2 & _ & Hst & _).
  eexists _, w2. split; [done|]. split; [by rewrite Hst|].
  split_and!; try done.
  intros d D Hd. by apply (reads_subs_grow d ds (pushTarget this W) D).
Qed.
End Throwing.

(** [get_throw_keeps_edges] on a function that reads publisher 1 and
    throws. *)
Lemma get_throw_keeps_edges_witness :
  ∃ W' w',
    get (host_of (λ W, (reads [1] W, Throw boom)) returning) 0 0 two_deps_world
      = (W', Throw boom) ∧
    targetStack W' = [0] ∧
    watchers W' !! 0 = Some w' ∧
    depIds w' = ∅.
Proof.
  destruct (get_throw_keeps_edges (host_of (λ W, (reads [1] W, Throw boom)) returning)
              0 0 two_deps_world plain_watcher [1] boom eq_refl eq_refl)
    as (W' & w' & Hget & Hst & Hw' & _ & Hi & _).
  exists W', w'. split; [exact Hget|]. split; [exact Hst|]. split; [exact Hw'|exact Hi].
Defined.

(** * The dependency diff across evaluations *)




Section Stages.
Variables (h : gmap oref Obj) (t : wref).




End Stages.



Section Diff.
Variable H : Host.

End Diff.



